(** * universalmotif: the sequence scanning kernel (src/scan_sequences.cpp)

    A shallow embedding of the scanner: alphabet encoding, higher-order
    (k-mer) recoding in place, sliding-window scoring, hit extraction and the
    exported entry point [scan_sequences_cpp].

    Conventions of the embedding.
    - An [int] is a [Z]; an [int] computation whose mathematical value leaves
      the 32-bit range has no defined behaviour in C++ and is [None] here.
    - A [std::size_t] expression is a [Z] reduced modulo [2^64].
    - [v[i]] on a [std::vector] outside its bounds has no defined behaviour
      and is [None].
    - A [double] is the rational it denotes ([Q]); infinities and NaN are not
      represented.  The product [x * 1000], whose truncation to an [int]
      depends on it, is rounded to binary64 ([round64]); the quotients
      ([s / 1000], the GC content) are exact: their rounding is not modelled.
    - [RcppThread::parallelFor] runs independent iterations, each writing its
      own slot, so it is embedded as the sequential loop. *)

From Stdlib Require Import ZArith QArith Qround String Ascii Lia.
From stdpp Require Import base option list sorting.

Open Scope Z_scope.

(** ** Machine arithmetic *)

Module Machine.

Definition INT_MIN : Z := - 2 ^ 31.
Definition INT_MAX : Z := 2 ^ 31 - 1.

Definition in_int (z : Z) : bool := (INT_MIN <=? z) && (z <=? INT_MAX).

(** The value of an [int] expression whose mathematical value is [z]. *)
Definition to_int (z : Z) : option Z := if in_int z then Some z else None.

(** Unsigned 64-bit arithmetic wraps around. *)
Definition size_t (z : Z) : Z := z mod 2 ^ 64.

(** Conversion of a [double] to [int]: truncation toward zero, defined only
    when the truncated value is representable. *)
Definition Qtruncate (x : Q) : Z := Z.quot (Qnum x) (Zpos (Qden x)).
Definition double_to_int (x : Q) : option Z := to_int (Qtruncate x).

(** The fraction [a / b], for [0 < b], rounded to the nearest integer, a tie
    to the even one. *)
Definition round_half_even (a b : Z) : Z :=
  let f := a / b in
  match 2 * (a mod b) ?= b with
  | Lt => f
  | Gt => f + 1
  | Eq => if Z.even f then f else f + 1
  end.

(** [x / 2^e] as a fraction with a positive denominator. *)
Definition shifted (x : Q) (e : Z) : Z * Z :=
  (Qnum x * 2 ^ Z.max 0 (- e), Zpos (Qden x) * 2 ^ Z.max 0 e).

(** The exponent of the last place of the binary64 numbers around [x]: the
    [e] with [2^52 <= |x| / 2^e < 2^53] (53 significant bits), and -1074 in
    the subnormal range.  [l] is that exponent or one more. *)
Definition ulp_exponent (x : Q) : Z :=
  let l := Z.log2 (Z.abs (Qnum x)) - Z.log2 (Zpos (Qden x)) - 52 in
  let '(a, b) := shifted x l in
  Z.max (-1074) (if Z.abs a <? 2 ^ 52 * b then l - 1 else l).

(** The result of a binary64 operation whose exact value is [x]: the nearest
    multiple of [2^e], ties to even (the IEEE 754 default).  The exponent is
    not bounded above: a result of [2^1024] or more stands for an infinity,
    and its conversion to an [int] is undefined like that of any [double]
    beyond the [int] range. *)
Definition round64 (x : Q) : Q :=
  let e := ulp_exponent x in
  let '(a, b) := shifted x e in
  (round_half_even a b * 2 ^ Z.max 0 e) # Z.to_pos (2 ^ Z.max 0 (- e)).

(** [a - 1] for an [int] [a]: the difference leaves the [int] range, and has
    no defined behaviour, only at [INT_MIN]. *)
Definition int_pred (a : Z) : option Z :=
  if a <=? INT_MIN then None else Some (a - 1).

(** [pow(a, e)] on doubles, for integers [a] and [e >= 0]: [None] stands for
    an infinite result.  A finite result beyond [2^53] may be rounded; it is
    only ever multiplied by an [int] and added to an [int], and then either
    the product is zero or the sum is not representable as an [int]. *)
Definition pow (a e : Z) : option Z :=
  if a ^ e <? 2 ^ 1024 - 2 ^ 970 then Some (a ^ e) else None.

(** [v[i]] with an [int] index: the index is converted to [std::size_t], so
    that a negative one lies beyond the end of any vector. *)
Definition at_int {A} (v : list A) (i : Z) : option A :=
  if i <? 0 then None else v !! Z.to_nat i.

End Machine.
Import Machine.

(** ** Types of types.h *)

Abbreviation vec_int_t := (list Z) (only parsing).
Abbreviation list_int_t := (list (list Z)) (only parsing).
Abbreviation list_mat_t := (list (list (list Z))) (only parsing).
Abbreviation vec_char_t := (list ascii) (only parsing).
Abbreviation list_char_t := (list (list ascii)) (only parsing).
Abbreviation vec_str_t := (list string) (only parsing).
Abbreviation vec_num_t := (list Q) (only parsing).

(** ** Higher-order recoder *)

(** The loop over [b] of [deal_with_higher_k]: [n] iterations remain, [b] is
    the loop counter and [tmp] the accumulator. *)
Fixpoint higher_k_sum (k let_len : Z) (s : vec_int_t) (j : nat)
    (n b : nat) (tmp : Z) : option Z :=
  match n with
  | O => Some tmp
  | S n' =>
      x ← s !! (j + b)%nat;
      p ← pow let_len (k - Z.of_nat b - 1);
      tmp' ← to_int (tmp + x * p);
      higher_k_sum k let_len s j n' (S b) tmp'
  end.

(** The same loop in [deal_with_higher_k_NA]: a negative symbol sets [tmp] to
    [-1] and leaves the loop. *)
Fixpoint higher_k_sum_NA (k let_len : Z) (s : vec_int_t) (j : nat)
    (n b : nat) (tmp : Z) : option Z :=
  match n with
  | O => Some tmp
  | S n' =>
      x ← s !! (j + b)%nat;
      if x <? 0 then Some (-1)
      else
        p ← pow let_len (k - Z.of_nat b - 1);
        tmp' ← to_int (tmp + x * p);
        higher_k_sum_NA k let_len s j n' (S b) tmp'
  end.

(** The loop over [j]: [n] iterations remain; [seq_ints[i][j] = tmp] writes in
    place, so later iterations read the updated vector. *)
Fixpoint higher_k_loop (sum : vec_int_t → nat → option Z)
    (n j : nat) (s : vec_int_t) : option vec_int_t :=
  match n with
  | O => Some s
  | S n' =>
      tmp ← sum s j;
      if decide (j < length s)%nat
      then higher_k_loop sum n' (S j) (<[j := tmp]> s)
      else None
  end.

Definition higher_k_bound (s : vec_int_t) (k : Z) : nat :=
  Z.to_nat (size_t (Z.of_nat (length s) - k + 1)).

Definition deal_with_higher_k_NA (seq_ints : list_int_t) (k let_len : Z)
    : option list_int_t :=
  mapM (λ s,
    higher_k_loop
      (λ s' j, higher_k_sum_NA k let_len s' j (Z.to_nat k) 0 0)
      (higher_k_bound s k) 0 s) seq_ints.

Definition deal_with_higher_k (seq_ints : list_int_t) (k let_len : Z)
    : option list_int_t :=
  mapM (λ s,
    higher_k_loop
      (λ s' j, higher_k_sum k let_len s' j (Z.to_nat k) 0 0)
      (higher_k_bound s k) 0 s) seq_ints.

(** ** Window scorer *)

(** The loop over [j] of [scan_single_seq]: the remaining motif positions are
    [rows], [p] is [i + j] and [tmp] the accumulator. *)
Fixpoint window_score (rows : list_int_t) (sequence : vec_int_t)
    (p : nat) (tmp : Z) : option Z :=
  match rows with
  | [] => Some tmp
  | row :: rows' =>
      x ← sequence !! p;
      e ← at_int row x;
      tmp' ← to_int (tmp + e);
      window_score rows' sequence (S p) tmp'
  end.

Fixpoint window_score_NA (rows : list_int_t) (sequence : vec_int_t)
    (p : nat) (tmp : Z) : option Z :=
  match rows with
  | [] => Some tmp
  | row :: rows' =>
      x ← sequence !! p;
      tmp' ← (if x <? 0 then to_int (tmp + -999999)
              else e ← at_int row x; to_int (tmp + e));
      window_score_NA rows' sequence (S p) tmp'
  end.

(** The number of iterations of the loop over [i]. *)
Definition scan_bound (motif : list_int_t) (sequence : vec_int_t) (k : Z) : nat :=
  Z.to_nat (size_t (Z.of_nat (length sequence) - k + 1
                    - Z.of_nat (length motif) + 1)).

Definition scan_single_seq_NA (motif : list_int_t) (sequence : vec_int_t)
    (k : Z) : option vec_int_t :=
  mapM (λ i, window_score_NA motif sequence i 0)
       (seq 0 (scan_bound motif sequence k)).

Definition scan_single_seq (motif : list_int_t) (sequence : vec_int_t)
    (k : Z) : option vec_int_t :=
  mapM (λ i, window_score motif sequence i 0)
       (seq 0 (scan_bound motif sequence k)).

(** ** Alphabet encoder and scan orchestrator *)

(** The loop over [a]: the first matching letter of the alphabet wins. *)
Fixpoint alph_index (alph : vec_char_t) (c : ascii) (a : nat) : option nat :=
  match alph with
  | [] => None
  | x :: alph' => if Ascii.eqb c x then Some a else alph_index alph' c (S a)
  end.

(** One iteration of the first [parallelFor]: the encoded sequence and its
    entry of [na_index]. *)
Fixpoint encode_seq (alph : vec_char_t) (s : vec_char_t) : vec_int_t * Z :=
  match s with
  | [] => ([], 0)
  | c :: s' =>
      let '(ints, na) := encode_seq alph s' in
      match alph_index alph c 0 with
      | Some a => (Z.of_nat a :: ints, na)
      | None => (-1 :: ints, 1)
      end
  end.

Definition NA_warning : string :=
  "Non-standard letters detected. These were ignored.".

Definition accumulate (v : vec_int_t) (init : Z) : Z := foldl Z.add init v.

Definition encode_all (alph : vec_char_t) (seq_vecs : list_char_t)
    : list_int_t * vec_int_t :=
  let enc := encode_seq alph <$> seq_vecs in (fst <$> enc, snd <$> enc).

Definition use_na_fun (alph : vec_char_t) (seq_vecs : list_char_t) : bool :=
  0 <? accumulate (encode_all alph seq_vecs).2 0.

(** The result is the list of warnings raised and the score vectors, indexed
    by motif and then by sequence. *)
Definition scan_sequences_cpp_internal (score_mats : list_mat_t)
    (seq_vecs : list_char_t) (k : Z) (alph : vec_char_t) (nthreads : Z)
    (warnNA : bool) : list string * option (list (list vec_int_t)) :=
  let seq_ints := (encode_all alph seq_vecs).1 in
  let na := use_na_fun alph seq_vecs in
  (if na && warnNA then [NA_warning] else [],
   seq_ints' ←
     (if (1 <? k) && na then deal_with_higher_k_NA seq_ints k (Z.of_nat (length alph))
      else if 1 <? k then deal_with_higher_k seq_ints k (Z.of_nat (length alph))
      else Some seq_ints);
   if na
   then mapM (λ m, mapM (λ s, scan_single_seq_NA m s k) seq_ints') score_mats
   else mapM (λ m, mapM (λ s, scan_single_seq m s k) seq_ints') score_mats).

(** ** Hit extractor *)

(** One row of [res]: the five vectors of [format_results] grow together, one
    entry each per hit. *)
Record hit : Type := Hit {
  hit_motif : Z;
  hit_sequence : Z;
  hit_start : Z;
  hit_stop : Z;
  hit_score : Z
}.

(** The test [out_pre[i][j][b] >= scores[i]]. *)
Definition meets_threshold (score threshold : Z) : bool := threshold <=? score.

(** The loop over [b]: positions of one score vector. *)
Fixpoint format_positions (scores : vec_int_t) (motifs : list_mat_t)
    (i j b : nat) (v : vec_int_t) : option (list hit) :=
  match v with
  | [] => Some []
  | x :: v' =>
      t ← scores !! i;
      if meets_threshold x t then
        m ← motifs !! i;
        rest ← format_positions scores motifs i j (S b) v';
        Some (Hit (Z.of_nat i + 1) (Z.of_nat j + 1) (Z.of_nat b + 1)
                  (Z.of_nat b + Z.of_nat (length m)) x :: rest)
      else format_positions scores motifs i j (S b) v'
  end.

(** The loop over [j]: sequences of one motif. *)
Fixpoint format_sequences (scores : vec_int_t) (motifs : list_mat_t)
    (i j : nat) (vs : list vec_int_t) : option (list hit) :=
  match vs with
  | [] => Some []
  | v :: vs' =>
      here ← format_positions scores motifs i j 0 v;
      rest ← format_sequences scores motifs i (S j) vs';
      Some (here ++ rest)
  end.

(** The loop over [i]: motifs. *)
Fixpoint format_motifs (scores : vec_int_t) (motifs : list_mat_t)
    (i : nat) (out_pre : list (list vec_int_t)) : option (list hit) :=
  match out_pre with
  | [] => Some []
  | vs :: out' =>
      here ← format_sequences scores motifs i 0 vs;
      rest ← format_motifs scores motifs (S i) out';
      Some (here ++ rest)
  end.

Definition format_results (out_pre : list (list vec_int_t))
    (scores : vec_int_t) (motifs : list_mat_t) : option (list hit) :=
  format_motifs scores motifs 0 out_pre.

(** ** Outcomes of the exported function *)

Inductive outcome (A : Type) : Type :=
  | Returned (a : A)        (* normal return *)
  | Stop (msg : string)     (* Rcpp::stop *)
  | OutOfRange              (* std::out_of_range thrown by substr *)
  | Undefined.              (* no defined behaviour *)
Arguments Returned {A} a.
Arguments Stop {A} msg.
Arguments OutOfRange {A}.
Arguments Undefined {A}.

#[global] Instance outcome_ret : MRet outcome := λ A a, Returned a.
#[global] Instance outcome_bind : MBind outcome := λ A B f x,
  match x with
  | Returned a => f a
  | Stop msg => Stop msg
  | OutOfRange => OutOfRange
  | Undefined => Undefined
  end.

Definition defined {A} (x : option A) : outcome A :=
  match x with Some a => Returned a | None => Undefined end.

(** [s.substr(pos, len)]: throws when [pos] exceeds the size, and otherwise
    stops at the end of the string. *)
Definition substr (s : string) (pos len : nat) : outcome string :=
  if decide (pos ≤ String.length s)%nat
  then Returned (substring pos len s) else OutOfRange.

Definition get_match (seq_vecs : vec_str_t) (motifs : list_mat_t) (h : hit)
    : outcome string :=
  s ← defined (at_int seq_vecs (hit_sequence h - 1));
  m ← defined (at_int motifs (hit_motif h - 1));
  substr s (Z.to_nat (size_t (hit_start h - 1))) (length m).

Fixpoint get_matches (res : list hit) (seq_vecs : vec_str_t)
    (motifs : list_mat_t) : outcome vec_str_t :=
  match res with
  | [] => Returned []
  | h :: res' =>
      m ← get_match seq_vecs motifs h;
      ms ← get_matches res' seq_vecs motifs;
      Returned (m :: ms)
  end.

(** ** The exported entry point *)

(** An [Rcpp::NumericMatrix] is given by its columns, one per motif position;
    [ncol] is their number. *)
Abbreviation NumericMatrix := (list (list Q)) (only parsing).

Record DataFrame : Type := {
  df_motif : list Z;
  df_motif_i : list Z;
  df_sequence : list Z;
  df_start : list Z;
  df_stop : list Z;
  df_score : list Q;
  df_match : list string
}.

Definition short_sequence_error : string :=
  "Found sequence(s) shorter than the width of the motif(s)".

(** [x * 1000] stored into an [int]: the binary64 product, truncated. *)
Definition scale (x : Q) : option Z := double_to_int (round64 (x * 1000)).
(** [scores2[i] /= 1000]. *)
Definition rescale (s : Z) : Q := (inject_Z s / 1000)%Q.

Definition scale_matrix (m : NumericMatrix) : option list_int_t :=
  mapM (mapM scale) m.

(** The two loops over [motif_sizes] and [seq_sizes]. *)
Definition too_short (motif_sizes seq_sizes : vec_int_t) : bool :=
  existsb (λ m, existsb (λ s, s <? m) seq_sizes) motif_sizes.

Definition scan_sequences_cpp (score_mats : list NumericMatrix)
    (seq_vecs : vec_str_t) (k : Z) (alph : string) (min_scores : vec_num_t)
    (nthreads : Z) (allow_nonfinite warnNA : bool)
    : list string * outcome DataFrame :=
  let alph2 := list_ascii_of_string alph in
  match mapM scale min_scores with
  | None => ([], Undefined)
  | Some min_scores2 =>
    let seq2_vecs := list_ascii_of_string <$> seq_vecs in
    match mapM scale_matrix score_mats with
    | None => ([], Undefined)
    | Some score2_mats =>
      let motif_sizes := (λ m : NumericMatrix, Z.of_nat (length m)) <$> score_mats in
      let seq_sizes := (λ s, Z.of_nat (String.length s)) <$> seq_vecs in
      if too_short motif_sizes seq_sizes then ([], Stop short_sequence_error)
      else
        let '(warnings, out_pre) :=
          scan_sequences_cpp_internal score2_mats seq2_vecs k alph2 nthreads warnNA in
        (warnings,
         out_pre ← defined out_pre;
         res ← defined (format_results out_pre min_scores2 score2_mats);
         let scores2 := (λ h, rescale (hit_score h)) <$> res in
         matches ← get_matches res seq_vecs score2_mats;
         Returned {| df_motif := hit_motif <$> res;
                     df_motif_i := hit_motif <$> res;
                     df_sequence := hit_sequence <$> res;
                     df_start := hit_start <$> res;
                     df_stop := hit_stop <$> res;
                     df_score := scores2;
                     df_match := matches |})
    end
  end.

(** ** The scenarios of the specification *)

Definition ACGT_motif : NumericMatrix :=
  [ [10; 0; 0; 0]; [0; 10; 0; 0]; [0; 0; 10; 0]; [0; 0; 0; 10] ]%Q.

(** ** Vocabulary of the properties *)

(** A letter outside the alphabet, and a batch with at least one such letter
    in at least one sequence. *)
Definition outside_alphabet (alph : vec_char_t) (c : ascii) : bool :=
  negb (existsb (Ascii.eqb c) alph).

Definition any_unrecognized (alph : vec_char_t) (seq_vecs : list_char_t) : bool :=
  existsb (existsb (outside_alphabet alph)) seq_vecs.

(** An encoded stream over an alphabet of [let_len] letters. *)
Definition encoded (let_len : Z) (s : vec_int_t) : Prop :=
  Forall (λ x, -1 ≤ x < let_len) s.

(** The k-window of [s] that starts at offset [i]. *)
Definition k_window (s : vec_int_t) (i k : nat) : vec_int_t := take k (drop i s).

(** The composite value of a k-window [w]: the sum over [j] in [[0,k)] of
    [w[j] * let_len^(k-1-j)]. *)
Fixpoint composite_value (let_len : Z) (w : vec_int_t) : Z :=
  match w with
  | [] => 0
  | x :: w' => x * let_len ^ Z.of_nat (length w') + composite_value let_len w'
  end.

(** What a recoded stream [r] must be for the stream [s]: the first
    [len - k + 1] entries hold the value of the window starting there (the
    sentinel, in the sentinel-aware variant, when the window contains one),
    and the remaining entries are those of [s]. *)
Definition recoded (na : bool) (k : nat) (let_len : Z) (s r : vec_int_t) : Prop :=
  length r = length s
  ∧ (∀ i, (i + k ≤ length s)%nat →
          r !! i = Some (if na && bool_decide (-1 ∈ k_window s i k) then -1
                         else composite_value let_len (k_window s i k)))
  ∧ (∀ i, (length s < i + k)%nat → r !! i = s !! i).

(** The scorer the orchestrator selects, and its window sum. *)
Definition scan_variant (na : bool) : list_int_t → vec_int_t → Z → option vec_int_t :=
  if na then scan_single_seq_NA else scan_single_seq.

Definition window_variant (na : bool) : list_int_t → vec_int_t → nat → Z → option Z :=
  if na then window_score_NA else window_score.

(** Inputs on which no window sum can leave the [int] range or a motif row:
    entries bounded by [B] in absolute value, and symbols below the row
    length. *)
Definition bounded_scores (B : Z) (motif : list_int_t) : Prop :=
  Forall (Forall (λ e, - B ≤ e ≤ B)) motif.

Definition symbols_in_rows (motif : list_int_t) (sequence : vec_int_t) : Prop :=
  Forall (λ row : vec_int_t, Forall (λ x, x < Z.of_nat (length row)) sequence) motif.

(** The first scenario of the specification: two hits, at 1 and at 5. *)
Definition ACGT_hits : DataFrame :=
  {| df_motif := [1; 1];
     df_motif_i := [1; 1];
     df_sequence := [1; 1];
     df_start := [1; 5];
     df_stop := [4; 8];
     df_score := [rescale 40000; rescale 40000];
     df_match := ["ACGT"%string; "ACGT"%string] |}.

(** A motif of three positions over the one-letter alphabet A, for k = 3. *)
Definition AAA_motif : NumericMatrix := [ [0]; [0]; [0] ]%Q.

(** ** Utilities around the scanner *)

(** A [double] produced by a division: a rational, an infinity or NaN. The
    rounding of the quotient is not modelled. *)
Inductive double : Type :=
  | Finite (q : Q)
  | PlusInfinity
  | MinusInfinity
  | NaN.

(** [double(n) / double(d)] for two [int]s. *)
Definition double_div (n d : Z) : double :=
  if d =? 0 then
    (if n =? 0 then NaN else if 0 <? n then PlusInfinity else MinusInfinity)
  else Finite (inject_Z n / inject_Z d)%Q.

(** The [case] labels of [calc_hit_gc]. *)
Definition is_GC (c : ascii) : bool :=
  (c =? "S")%char || (c =? "C")%char || (c =? "G")%char.

Definition is_AT (c : ascii) : bool :=
  (c =? "W")%char || (c =? "A")%char || (c =? "U")%char || (c =? "T")%char.

(** The loop over [j] when [ignoreN] is set: [GC] and [AT] are the two
    counters. *)
Fixpoint count_GC_AT (hit : vec_char_t) (GC AT : Z) : option (Z * Z) :=
  match hit with
  | [] => Some (GC, AT)
  | c :: hit' =>
      if is_GC c then GC' ← to_int (GC + 1); count_GC_AT hit' GC' AT
      else if is_AT c then AT' ← to_int (AT + 1); count_GC_AT hit' GC AT'
      else count_GC_AT hit' GC AT
  end.

(** The loop over [j] when [ignoreN] is not set. *)
Fixpoint count_GC (hit : vec_char_t) (GC : Z) : option Z :=
  match hit with
  | [] => Some GC
  | c :: hit' =>
      if is_GC c then GC' ← to_int (GC + 1); count_GC hit' GC'
      else count_GC hit' GC
  end.

Definition calc_hit_gc (hits : vec_str_t) (ignoreN : bool) : option (list double) :=
  if ignoreN then
    mapM (λ hit,
      '(GC, AT) ← count_GC_AT (list_ascii_of_string hit) 0 0;
      s ← to_int (AT + GC);
      Some (double_div GC s)) hits
  else
    mapM (λ hit,
      GC ← count_GC (list_ascii_of_string hit) 0;
      Some (double_div GC (Z.of_nat (String.length hit)))) hits.

(** The three columns of the hit table that [switch_antisense_coords_cpp]
    reads; the others are copied by [Rcpp::clone] and not touched. *)
Record coords : Type := Coords {
  strand : list string;
  start : list Z;
  stop : list Z
}.

(** The second loop: [i] runs over [to_switch]; [col_start] and [col_stop]
    are read, their clones written. *)
Fixpoint switch_loop (to_switch : list bool) (i : nat)
    (col_start col_stop col_start_new col_stop_new : list Z)
    : option (list Z * list Z) :=
  match to_switch with
  | [] => Some (col_start_new, col_stop_new)
  | flag :: to_switch' =>
      if flag then
        b ← col_stop !! i;
        a ← col_start !! i;
        if decide (i < length col_start_new ∧ i < length col_stop_new)%nat
        then switch_loop to_switch' (S i) col_start col_stop
               (<[i := b]> col_start_new) (<[i := a]> col_stop_new)
        else None
      else switch_loop to_switch' (S i) col_start col_stop
             col_start_new col_stop_new
  end.

Definition switch_antisense_coords_cpp (res : coords) : option coords :=
  let to_switch := (λ s, String.eqb s "-") <$> strand res in
  '(col_start_new, col_stop_new) ←
    switch_loop to_switch 0 (start res) (stop res) (start res) (stop res);
  Some (Coords (strand res) col_start_new col_stop_new).

(** [s.replace(pos, 1, ".")]: throws when [pos] exceeds the size, replaces
    one letter when there is one at [pos], and appends when [pos] is the
    size. *)
Definition replace_dot (s : vec_char_t) (pos : nat) : outcome vec_char_t :=
  if decide (pos ≤ length s)%nat
  then Returned (take pos s ++ "."%char :: drop (pos + 1) s)
  else OutOfRange.

(** The loop of [replace_gap_chars]; [gaplocs[i] - 1] is computed in [int]
    and then converted to [std::size_t]. *)
Fixpoint replace_gap_chars (seqstring : vec_char_t) (gaplocs : vec_int_t)
    : outcome vec_char_t :=
  match gaplocs with
  | [] => Returned seqstring
  | loc :: gaplocs' =>
      pos ← defined (int_pred loc);
      s ← replace_dot seqstring (Z.to_nat (size_t pos));
      replace_gap_chars s gaplocs'
  end.

(** The loop of [add_gap_dots_cpp]: [i] is the index of the first of the
    remaining [seqs]. *)
Fixpoint add_gap_dots_loop (seqs : list vec_char_t) (gaplocs : list_int_t)
    (i : nat) : outcome (list vec_char_t) :=
  match seqs with
  | [] => Returned []
  | s :: seqs' =>
      locs ← defined (gaplocs !! i);
      s' ← (if 0 <? Z.of_nat (length locs) then replace_gap_chars s locs
            else Returned s);
      rest ← add_gap_dots_loop seqs' gaplocs (S i);
      Returned (s' :: rest)
  end.

Definition add_gap_dots_cpp (seqs : vec_str_t) (gaplocs : list_int_t)
    : outcome vec_str_t :=
  match add_gap_dots_loop (list_ascii_of_string <$> seqs) gaplocs 0 with
  | Returned out => Returned (string_of_list_ascii <$> out)
  | Stop msg => Stop msg
  | OutOfRange => OutOfRange
  | Undefined => Undefined
  end.

(** ** Vocabulary of the further properties *)

(** The number of letters of [hit] that satisfy [f]. *)
Definition letters (f : ascii → bool) (hit : vec_char_t) : Z :=
  Z.of_nat (length (List.filter f hit)).

(** A ratio between 0 and 1. *)
Definition is_fraction (x : double) : Prop :=
  match x with
  | Finite q => (0 <= q)%Q ∧ (q <= 1)%Q
  | _ => False
  end.

(** [x <= y] on finite doubles. *)
Definition double_le (x y : double) : Prop :=
  match x, y with
  | Finite p, Finite q => (p <= q)%Q
  | _, _ => False
  end.

(** The denominator of the GC content of one hit. *)
Definition gc_denominator (ignoreN : bool) (hit : string) : Z :=
  if ignoreN
  then letters is_AT (list_ascii_of_string hit)
       + letters is_GC (list_ascii_of_string hit)
  else Z.of_nat (String.length hit).

(** The string [s] with a dot at each of the 1-based positions [locs]. *)
Definition dotted (s : vec_char_t) (locs : vec_int_t) : vec_char_t :=
  imap (λ p c, if bool_decide (Z.of_nat p + 1 ∈ locs) then "."%char else c) s.

(** The sequence [s] with a dot at each of the 1-based positions [locs]. *)
Definition with_dots (s : string) (locs : vec_int_t) : string :=
  string_of_list_ascii (dotted (list_ascii_of_string s) locs).

(** Every sequence has its list of gap positions, and every position lies
    inside its sequence. *)
Definition gaps_in_range (seqs : vec_str_t) (gaplocs : list_int_t) : Prop :=
  (length seqs ≤ length gaplocs)%nat
  ∧ ∀ i s locs,
      seqs !! i = Some s → gaplocs !! i = Some locs →
      Z.of_nat (String.length s) < 2 ^ 63
      ∧ Forall (λ loc, 1 ≤ loc ≤ Z.of_nat (String.length s)) locs.

(** What one motif position adds to a window score: the row entry at the
    symbol and, for the sentinel-aware scorer, the penalty at a negative
    symbol. *)
Definition strict_entry (row : vec_int_t) (x : Z) : Z :=
  default 0 (at_int row x).

Definition aware_entry (row : vec_int_t) (x : Z) : Z :=
  if x <? 0 then -999999 else default 0 (at_int row x).

(** The sum over the motif positions [p] of the entry of row [p] at the
    [p]-th symbol of the window [w]. *)
Definition window_sum (entry : vec_int_t → Z → Z) (rows : list_int_t)
    (w : vec_int_t) : Z :=
  foldr Z.add 0 (zip_with entry rows w).

(** The hit [h] reports a position of [out_pre] whose score meets the
    threshold of its motif. *)
Definition reports (out_pre : list (list vec_int_t)) (scores : vec_int_t)
    (motifs : list_mat_t) (h : hit) : Prop :=
  ∃ i j b vs v x t m,
    out_pre !! i = Some vs ∧ vs !! j = Some v ∧ v !! b = Some x
    ∧ scores !! i = Some t ∧ motifs !! i = Some m
    ∧ t ≤ x
    ∧ h = Hit (Z.of_nat i + 1) (Z.of_nat j + 1) (Z.of_nat b + 1)
              (Z.of_nat b + Z.of_nat (length m)) x.

(** The order of the rows: by motif, then by sequence, then by start. *)
Definition hit_before (h1 h2 : hit) : Prop :=
  hit_motif h1 < hit_motif h2
  ∨ (hit_motif h1 = hit_motif h2
     ∧ (hit_sequence h1 < hit_sequence h2
        ∨ (hit_sequence h1 = hit_sequence h2 ∧ hit_start h1 < hit_start h2))).


(** A [double] whose product with 1000 lies between [-B] and [B]. *)
Definition within (B : Z) (x : Q) : Prop :=
  (- inject_Z B <= x * 1000)%Q ∧ (x * 1000 <= inject_Z B)%Q.

(** The table without rows. *)
Definition empty_table : DataFrame :=
  {| df_motif := []; df_motif_i := []; df_sequence := []; df_start := [];
     df_stop := []; df_score := []; df_match := [] |}.

(** * Properties *)

(** ** Machine arithmetic *)

Lemma to_int_Some z z' : to_int z = Some z' ↔ z' = z ∧ INT_MIN ≤ z ≤ INT_MAX.
Proof.
  unfold to_int, in_int.
  destruct (INT_MIN <=? z) eqn:Hlo; destruct (z <=? INT_MAX) eqn:Hhi; simpl;
    split; intros H; try discriminate.
  - injection H as <-. lia.
  - destruct H as [-> _]. reflexivity.
  - lia.
  - lia.
  - lia.
Qed.

Lemma to_int_in_range z : INT_MIN ≤ z ≤ INT_MAX → to_int z = Some z.
Proof. intros H. apply to_int_Some. auto. Qed.

Lemma at_int_nonneg {A} (v : list A) i : 0 ≤ i → at_int v i = v !! Z.to_nat i.
Proof. intros H. unfold at_int. destruct (i <? 0) eqn:E; [lia | reflexivity]. Qed.

Lemma size_t_small z : 0 ≤ z < 2 ^ 64 → size_t z = z.
Proof. intros H. unfold size_t. apply Z.mod_small. exact H. Qed.

(** Expose the numerals behind the machine constants to [lia]. *)
Ltac machine_consts :=
  unfold INT_MIN, INT_MAX in *;
  change (2 ^ 64) with 18446744073709551616 in *;
  change (2 ^ 63) with 9223372036854775808 in *;
  change (2 ^ 31) with 2147483648 in *.

(** ** Strict and sentinel-aware scoring on clean input *)

Section CleanInput.

Variable sequence : vec_int_t.
Hypothesis clean : ∀ x, x ∈ sequence → 0 ≤ x.

Lemma window_score_NA_clean rows p tmp :
  window_score_NA rows sequence p tmp = window_score rows sequence p tmp.
Proof using clean.
  revert p tmp. induction rows as [|row rows IH]; intros p tmp; simpl.
  - reflexivity.
  - destruct (sequence !! p) as [x|] eqn:Hx; simpl; [|reflexivity].
    assert (0 ≤ x) as Hpos by (apply clean; eapply list_elem_of_lookup_2; eauto).
    destruct (x <? 0) eqn:Hneg; [lia|].
    destruct (at_int row x) as [e|]; simpl; [|reflexivity].
    destruct (to_int (tmp + e)); simpl; [apply IH | reflexivity].
Qed.

Lemma scan_single_seq_NA_clean motif k :
  scan_single_seq_NA motif sequence k = scan_single_seq motif sequence k.
Proof using clean.
  unfold scan_single_seq_NA, scan_single_seq.
  apply mapM_ext. intros i. apply window_score_NA_clean.
Qed.

End CleanInput.

(** C5. On an encoded stream (every symbol is an index or the sentinel -1)
    that contains no sentinel, the strict and the sentinel-aware window
    scorers return the same score vector, for every motif and every order. *)
Theorem strict_and_sentinel_aware_agree (motif : list_int_t) (sequence : vec_int_t) (k : Z) :
  (∀ x, x ∈ sequence → -1 ≤ x) →
  -1 ∉ sequence →
  scan_single_seq motif sequence k = scan_single_seq_NA motif sequence k.
Proof.
  intros Henc Hclean. symmetry. apply scan_single_seq_NA_clean.
  intros x Hx. specialize (Henc x Hx).
  destruct (decide (x = -1)) as [->|]; [contradiction | lia].
Qed.

Lemma strict_and_sentinel_aware_agree_witness :
  scan_single_seq [[10; 0]; [0; 10]] [0; 1; 0; 1] 1
  = scan_single_seq_NA [[10; 0]; [0; 10]] [0; 1; 0; 1] 1.
Proof.
  apply strict_and_sentinel_aware_agree.
  - intros x Hx. repeat (apply elem_of_cons in Hx as [-> | Hx]; [lia|]).
    inversion Hx.
  - intros Hx. repeat (apply elem_of_cons in Hx as [Hx | Hx]; [lia|]).
    inversion Hx.
Defined.

(** ** The unused parameter *)

(** C10. [allow_nonfinite] is accepted and never read: the call returns the
    same warnings and the same outcome whatever its value. *)
Theorem allow_nonfinite_is_ignored (score_mats : list NumericMatrix)
    (seq_vecs : vec_str_t) (k : Z) (alph : string) (min_scores : vec_num_t)
    (nthreads : Z) (warnNA : bool) :
  scan_sequences_cpp score_mats seq_vecs k alph min_scores nthreads true warnNA
  = scan_sequences_cpp score_mats seq_vecs k alph min_scores nthreads false warnNA.
Proof. reflexivity. Qed.

(** ** Fixed-point thresholds *)

(** *** The binary64 product *)

Lemma round_half_even_floor a b :
  0 < b →
  a / b ≤ round_half_even a b ≤ a / b + 1
  ∧ (a mod b = 0 → round_half_even a b = a / b).
Proof.
  intros Hb. unfold round_half_even.
  destruct (2 * (a mod b) ?= b) eqn:Hc.
  - apply Z.compare_eq in Hc. destruct (Z.even (a / b)); split; lia.
  - split; [lia | done].
  - apply Z.compare_gt_iff in Hc. split; lia.
Qed.

Lemma round_half_even_lower a b k :
  0 < b → k * b ≤ a → k ≤ round_half_even a b.
Proof.
  intros Hb Hk. pose proof (round_half_even_floor a b Hb) as [[Hf _] _].
  assert (k ≤ a / b) by (apply Z.div_le_lower_bound; lia). lia.
Qed.

Lemma round_half_even_upper a b k :
  0 < b → a ≤ k * b → round_half_even a b ≤ k.
Proof.
  intros Hb Hk. pose proof (round_half_even_floor a b Hb) as [[_ Hf] Hex].
  pose proof (Z.div_mod a b ltac:(lia)) as Hdm.
  pose proof (Z.mod_pos_bound a b Hb) as Hr.
  destruct (Z_lt_le_dec (a / b) k) as [Hlt|Hge]; [lia|].
  assert (a / b = k) as Heq by nia.
  rewrite Hex; [lia|]. nia.
Qed.

(** Above the subnormal range the last place is at most [|x| / 2^52]. *)
Lemma ulp_exponent_magnitude (x : Q) :
  0 < ulp_exponent x →
  2 ^ 52 * (Zpos (Qden x) * 2 ^ ulp_exponent x) ≤ Z.abs (Qnum x).
Proof.
  unfold ulp_exponent, shifted.
  assert (Z.abs (Qnum x) = 0 → Z.log2 (Z.abs (Qnum x)) = 0) as Hzero
    by (by intros ->).
  revert Hzero.
  generalize (Z.log2_nonneg (Zpos (Qden x))).
  generalize (Z.log2_spec (Zpos (Qden x)) eq_refl).
  generalize (Z.log2_spec (Z.abs (Qnum x))).
  generalize (Z.log2 (Zpos (Qden x))) as ld.
  generalize (Z.log2 (Z.abs (Qnum x))) as ln.
  assert (0 < Zpos (Qden x)) as Hd by done. revert Hd.
  generalize (Zpos (Qden x)) as d. generalize (Qnum x) as n.
  intros n d Hd ln ld Hln [_ Hld] Hld0 Hzero.
  assert (ln = 0 ∨ 2 ^ ln ≤ Z.abs n) as Hn.
  { destruct (decide (Z.abs n = 0)) as [H0|Hne].
    - left. by apply Hzero.
    - right. apply Hln. lia. }
  clear Hln Hzero.
  destruct (Z.abs (n * 2 ^ Z.max 0 (- (ln - ld - 52)))
            <? 2 ^ 52 * (d * 2 ^ Z.max 0 (ln - ld - 52))) eqn:Ht.
  - clear Ht. intros He.
    assert (Z.max (-1074) (ln - ld - 52 - 1) = ln - ld - 53) as -> by lia.
    destruct Hn as [-> | Hn]; [lia|].
    assert (2 ^ ln = 2 ^ 52 * (2 ^ Z.succ ld * 2 ^ (ln - ld - 53))) as Hpow.
    { rewrite <- !Z.pow_add_r by lia. f_equal. lia. }
    assert (0 < 2 ^ (ln - ld - 53)) by (apply Z.pow_pos_nonneg; lia).
    change (2 ^ 52) with 4503599627370496 in *.
    nia.
  - intros He. apply Z.ltb_ge in Ht.
    assert (Z.max (-1074) (ln - ld - 52) = ln - ld - 52) as Hmax by lia.
    rewrite Hmax in *.
    rewrite (Z.max_l 0 (- (ln - ld - 52))), (Z.max_r 0 (ln - ld - 52)) in Ht
      by lia.
    rewrite Z.pow_0_r, Z.mul_1_r in Ht. done.
Qed.

Lemma Qnum_round64 (x : Q) :
  Qnum (round64 x)
  = round_half_even (Qnum x * 2 ^ Z.max 0 (- ulp_exponent x))
      (Zpos (Qden x) * 2 ^ Z.max 0 (ulp_exponent x))
    * 2 ^ Z.max 0 (ulp_exponent x).
Proof. reflexivity. Qed.

Lemma Qden_round64 (x : Q) :
  Zpos (Qden (round64 x)) = 2 ^ Z.max 0 (- ulp_exponent x).
Proof.
  unfold round64, shifted. simpl. rewrite Z2Pos.id; [done|].
  apply Z.pow_pos_nonneg; lia.
Qed.

(** Rounding does not cross an integer of at most 53 bits: such an integer
    is a binary64 number, and rounding is monotone. *)
Lemma round64_integer (x : Q) (k : Z) :
  - 2 ^ 52 ≤ k ≤ 2 ^ 52 →
  ((inject_Z k <= x)%Q → (inject_Z k <= round64 x)%Q)
  ∧ ((x <= inject_Z k)%Q → (round64 x <= inject_Z k)%Q).
Proof.
  intros Hk. unfold Qle. rewrite Qnum_round64, Qden_round64.
  cbn [Qnum Qden inject_Z]. rewrite !Z.mul_1_r.
  set (n := Qnum x). set (d := Zpos (Qden x)). set (e := ulp_exponent x).
  assert (0 < d) as Hd by done.
  destruct (Z_lt_le_dec 0 e) as [Hpos|Hneg].
  - pose proof (ulp_exponent_magnitude x Hpos) as Hmag.
    fold n d e in Hmag.
    rewrite (Z.max_l 0 (- e)), (Z.max_r 0 e) by lia.
    rewrite Z.pow_0_r, !Z.mul_1_r.
    assert (2 ≤ 2 ^ e) as He.
    { replace 2 with (2 ^ 1) at 1 by done. apply Z.pow_le_mono_r; lia. }
    assert (0 < d * 2 ^ e) as Hb by nia.
    change (2 ^ 52) with 4503599627370496 in *.
    split; intros Hx.
    + destruct (Z_le_gt_dec 0 n) as [Hn|Hn]; [|nia].
      pose proof (round_half_even_lower n (d * 2 ^ e) 4503599627370496 Hb
                    ltac:(lia)) as Hm.
      nia.
    + destruct (Z_le_gt_dec 0 n) as [Hn|Hn]; [nia|].
      pose proof (round_half_even_upper n (d * 2 ^ e) (-4503599627370496) Hb
                    ltac:(lia)) as Hm.
      nia.
  - rewrite (Z.max_r 0 (- e)), (Z.max_l 0 e) by lia.
    rewrite Z.pow_0_r, !Z.mul_1_r.
    assert (0 < 2 ^ (- e)) as He by (apply Z.pow_pos_nonneg; lia).
    split; intros Hx.
    + apply round_half_even_lower; [done|]. nia.
    + apply round_half_even_upper; [done|]. nia.
Qed.

(** Neither does truncation toward zero. *)
Lemma Qtruncate_integer (r : Q) (k : Z) :
  ((inject_Z k <= r)%Q → k ≤ Qtruncate r)
  ∧ ((r <= inject_Z k)%Q → Qtruncate r ≤ k).
Proof.
  unfold Qle, Qtruncate. cbn [Qnum Qden inject_Z]. rewrite !Z.mul_1_r.
  set (n := Qnum r). set (d := Zpos (Qden r)).
  assert (0 < d) as Hd by done.
  pose proof (Z.quot_rem' n d) as Hqr.
  destruct (Z_le_gt_dec 0 n) as [Hn|Hn].
  - pose proof (Z.rem_bound_pos_pos n d ltac:(lia) Hn) as Hr. split; nia.
  - pose proof (Z.rem_bound_pos_neg n d ltac:(lia) ltac:(lia)) as Hr.
    split; nia.
Qed.

(** The products of the binary64 numbers nearest to 0.29 and to 0.03 with
    1000 round up to the integers 290 and 30 before the truncation; a
    product can also round down, here to -117. *)
Example scale_rounds_the_product :
  scale (5224175567749775 # 18014398509481984) = Some 290
  ∧ scale (1080863910568919 # 36028797018963968) = Some 30
  ∧ scale (-131730289100587 # 1125899906842624) = Some (-117)
  ∧ scale (1 # 2048) = Some 0.
Proof. by vm_compute. Qed.

(** *** Scaled thresholds *)

Lemma scale_Some t T :
  scale t = Some T →
  T = Qtruncate (round64 (t * 1000)) ∧ INT_MIN ≤ T ≤ INT_MAX.
Proof.
  unfold scale, double_to_int. intros H. apply to_int_Some in H.
  destruct H as [-> H]. auto.
Qed.

Lemma inject_Z_le_product (k : Z) (x : Q) :
  (inject_Z k <= x * 1000)%Q ↔ k * Zpos (Qden x) ≤ Qnum x * 1000.
Proof. unfold Qle, Qmult, inject_Z. simpl. lia. Qed.

Lemma product_le_inject_Z (k : Z) (x : Q) :
  (x * 1000 <= inject_Z k)%Q ↔ Qnum x * 1000 ≤ k * Zpos (Qden x).
Proof. unfold Qle, Qmult, inject_Z. simpl. lia. Qed.

(** The scaled value does not cross an integer that bounds the exact
    product. *)
Lemma scale_integer (x : Q) (T k : Z) :
  scale x = Some T →
  - 2 ^ 52 ≤ k ≤ 2 ^ 52 →
  (k * Zpos (Qden x) ≤ Qnum x * 1000 → k ≤ T)
  ∧ (Qnum x * 1000 ≤ k * Zpos (Qden x) → T ≤ k).
Proof.
  intros HT Hk. apply scale_Some in HT as [-> _].
  destruct (round64_integer (x * 1000) k Hk) as [Hlo Hhi].
  destruct (Qtruncate_integer (round64 (x * 1000)) k) as [Hlo' Hhi'].
  split; intros H.
  - by apply Hlo', Hlo, inject_Z_le_product.
  - by apply Hhi', Hhi, product_le_inject_Z.
Qed.

(** It is less than one unit away from the exact product. *)
Lemma scale_near (x : Q) (T : Z) :
  scale x = Some T →
  Qnum x * 1000 - Zpos (Qden x) < T * Zpos (Qden x)
  < Qnum x * 1000 + Zpos (Qden x).
Proof.
  intros HT. pose proof (scale_Some _ _ HT) as [_ Hr].
  assert (- 2 ^ 52 ≤ T - 1 ∧ T + 1 ≤ 2 ^ 52) as [Hlo Hhi]
    by (revert Hr; machine_consts;
        change (2 ^ 52) with 4503599627370496; lia).
  destruct (scale_integer x T (T + 1) HT ltac:(lia)) as [Hup _].
  destruct (scale_integer x T (T - 1) HT ltac:(lia)) as [_ Hdown].
  split.
  - destruct (Z_lt_le_dec (Qnum x * 1000 - Zpos (Qden x)) (T * Zpos (Qden x)))
      as [|Hle]; [done|].
    specialize (Hup ltac:(lia)). lia.
  - destruct (Z_lt_le_dec (T * Zpos (Qden x)) (Qnum x * 1000 + Zpos (Qden x)))
      as [|Hle]; [done|].
    specialize (Hdown ltac:(lia)). lia.
Qed.


Lemma le_rescale (t : Q) (s : Z) :
  (t <= rescale s)%Q ↔ Qnum t * 1000 ≤ s * Zpos (Qden t).
Proof.
  unfold rescale, Qle, Qdiv, Qmult, Qinv, inject_Z. simpl. lia.
Qed.


(** A threshold below zero is lowered too, by the rounding of the product:
    the binary64 number -0.11699999999999999 is scaled to -117, the score
    -117 passes, and -117/1000 is below the threshold. *)
Example rounding_lowers_a_negative_threshold :
  scale (-131730289100587 # 1125899906842624) = Some (-117)
  ∧ meets_threshold (-117) (-117) = true
  ∧ ¬ ((-131730289100587 # 1125899906842624) <= rescale (-117))%Q.
Proof.
  split_and!; [by vm_compute | done |].
  rewrite le_rescale. simpl. lia.
Qed.



(** ** The length precondition *)

Lemma too_short_true (motif_sizes seq_sizes : vec_int_t) :
  too_short motif_sizes seq_sizes = true
  ↔ ∃ m s, m ∈ motif_sizes ∧ s ∈ seq_sizes ∧ s < m.
Proof.
  unfold too_short. rewrite existsb_exists. split.
  - intros (m & Hm & Hs). apply existsb_exists in Hs as (s & Hs & Hlt).
    exists m, s. rewrite !list_elem_of_In. split_and!; [done | done | lia].
  - intros (m & s & Hm & Hs & Hlt). exists m.
    split; [by apply list_elem_of_In|].
    apply existsb_exists. exists s. split; [by apply list_elem_of_In | lia].
Qed.

Lemma too_short_sizes (score_mats : list NumericMatrix) (seq_vecs : vec_str_t) :
  too_short ((λ m : NumericMatrix, Z.of_nat (length m)) <$> score_mats)
            ((λ s, Z.of_nat (String.length s)) <$> seq_vecs) = true
  ↔ ∃ m s, m ∈ score_mats ∧ s ∈ seq_vecs ∧ (String.length s < length m)%nat.
Proof.
  rewrite too_short_true. split.
  - intros (m & s & Hm & Hs & Hlt).
    apply list_elem_of_fmap in Hm as (m' & -> & Hm').
    apply list_elem_of_fmap in Hs as (s' & -> & Hs').
    exists m', s'. split_and!; [done | done | lia].
  - intros (m & s & Hm & Hs & Hlt).
    exists (Z.of_nat (length m)), (Z.of_nat (String.length s)).
    split_and!; [| | lia].
    + apply list_elem_of_fmap. eauto.
    + apply list_elem_of_fmap. eauto.
Qed.

Lemma substr_not_Stop s pos len msg : substr s pos len ≠ Stop msg.
Proof. unfold substr. case_decide; discriminate. Qed.

Lemma get_match_not_Stop seq_vecs motifs h msg :
  get_match seq_vecs motifs h ≠ Stop msg.
Proof.
  unfold get_match.
  destruct (at_int seq_vecs (hit_sequence h - 1)); simpl; [|discriminate].
  destruct (at_int motifs (hit_motif h - 1)); simpl; [|discriminate].
  apply substr_not_Stop.
Qed.

Lemma get_matches_not_Stop res seq_vecs motifs msg :
  get_matches res seq_vecs motifs ≠ Stop msg.
Proof.
  induction res as [|h res IH]; simpl; [discriminate|].
  pose proof (get_match_not_Stop seq_vecs motifs h msg) as Hh.
  destruct (get_match seq_vecs motifs h); simpl;
    [| intros [= ->]; by apply Hh | discriminate | discriminate].
  destruct (get_matches res seq_vecs motifs); simpl;
    [discriminate | exact IH | discriminate | discriminate].
Qed.

(** Every [Stop] of the entry point is the length check, raised with no
    warning yet emitted. *)
Lemma scan_sequences_cpp_Stop score_mats seq_vecs k alph min_scores nthreads
    allow_nonfinite warnNA w msg :
  scan_sequences_cpp score_mats seq_vecs k alph min_scores nthreads
    allow_nonfinite warnNA = (w, Stop msg) →
  w = [] ∧ msg = short_sequence_error
  ∧ ∃ m s, m ∈ score_mats ∧ s ∈ seq_vecs ∧ (String.length s < length m)%nat.
Proof.
  unfold scan_sequences_cpp.
  destruct (mapM scale min_scores) as [min_scores2|]; [|discriminate].
  destruct (mapM scale_matrix score_mats) as [score2_mats|]; [|discriminate].
  destruct (too_short _ _) eqn:Hshort.
  - intros [= <- <-]. split_and!; [done | done |].
    by apply too_short_sizes.
  - destruct (scan_sequences_cpp_internal _ _ _ _ _ _) as [warnings out_pre].
    intros [= _ H]. exfalso. revert H.
    destruct out_pre as [out_pre|]; simpl; [|discriminate].
    destruct (format_results _ _ _) as [res|]; simpl; [|discriminate].
    pose proof (get_matches_not_Stop res seq_vecs score2_mats msg) as Hm.
    destruct (get_matches res seq_vecs score2_mats); simpl;
      [discriminate | intros [= ->]; by apply Hm | discriminate | discriminate].
Qed.

(** C3. Provided the scaled thresholds and matrix entries are representable,
    the call stops with the descriptive error exactly when some sequence is
    shorter than some motif's width; it then carries no warning (encoding has
    not run) and no hit table, and the entry point has no other [Stop]. *)
Theorem short_sequence_is_fatal (score_mats : list NumericMatrix)
    (seq_vecs : vec_str_t) (k : Z) (alph : string) (min_scores : vec_num_t)
    (nthreads : Z) (allow_nonfinite warnNA : bool) :
  is_Some (mapM scale min_scores) →
  is_Some (mapM scale_matrix score_mats) →
  ((∃ m s, m ∈ score_mats ∧ s ∈ seq_vecs ∧ (String.length s < length m)%nat)
   ↔ scan_sequences_cpp score_mats seq_vecs k alph min_scores nthreads
       allow_nonfinite warnNA = ([], Stop short_sequence_error))
  ∧ (∀ w msg,
       scan_sequences_cpp score_mats seq_vecs k alph min_scores nthreads
         allow_nonfinite warnNA = (w, Stop msg) →
       w = [] ∧ msg = short_sequence_error).
Proof.
  intros [min_scores2 Hmin] [score2_mats Hmats]. split.
  - split.
    + intros Hshort. apply too_short_sizes in Hshort.
      unfold scan_sequences_cpp. rewrite Hmin, Hmats, Hshort. reflexivity.
    + intros H. by apply scan_sequences_cpp_Stop in H as (_ & _ & H).
  - intros w msg H. apply scan_sequences_cpp_Stop in H. tauto.
Qed.

Lemma short_sequence_is_fatal_witness :
  is_Some (mapM scale [40%Q])
  ∧ is_Some (mapM scale_matrix [ACGT_motif])
  ∧ scan_sequences_cpp [ACGT_motif] ["ACN"%string] 1 "ACGT" [40%Q] 1 false true
    = ([], Stop short_sequence_error).
Proof.
  assert (is_Some (mapM scale [40%Q])) as Hmin by (by eexists).
  assert (is_Some (mapM scale_matrix [ACGT_motif])) as Hmats by (by eexists).
  split_and!; [done | done |].
  apply (short_sequence_is_fatal [ACGT_motif] ["ACN"%string] 1 "ACGT" [40%Q]
           1 false true Hmin Hmats).
  exists ACGT_motif, "ACN"%string. split_and!; [left | left | simpl; lia].
Defined.

(** ** Unrecognized letters *)

Lemma outside_alphabet_true alph c : outside_alphabet alph c = true ↔ c ∉ alph.
Proof.
  unfold outside_alphabet. rewrite negb_true_iff, <- not_true_iff_false.
  rewrite existsb_exists. split.
  - intros H Hin. apply H. exists c.
    split; [by apply list_elem_of_In | apply Ascii.eqb_refl].
  - intros H (x & Hx & Heq). apply Ascii.eqb_eq in Heq as <-.
    by apply H, list_elem_of_In.
Qed.

Lemma any_unrecognized_true alph seq_vecs :
  any_unrecognized alph seq_vecs = true
  ↔ ∃ s c, s ∈ seq_vecs ∧ c ∈ s ∧ c ∉ alph.
Proof.
  unfold any_unrecognized. rewrite existsb_exists. split.
  - intros (s & Hs & Hc). apply existsb_exists in Hc as (c & Hc & Hout).
    exists s, c.
    split_and!; [by apply list_elem_of_In | by apply list_elem_of_In |].
    by apply outside_alphabet_true.
  - intros (s & c & Hs & Hc & Hout). exists s.
    split; [by apply list_elem_of_In|].
    apply existsb_exists. exists c.
    split; [by apply list_elem_of_In | by apply outside_alphabet_true].
Qed.

Lemma alph_index_None alph c a :
  alph_index alph c a = None ↔ outside_alphabet alph c = true.
Proof.
  unfold outside_alphabet. rewrite negb_true_iff.
  revert a. induction alph as [|x alph IH]; intros a; simpl; [done|].
  destruct (Ascii.eqb c x); simpl; [split; discriminate | apply IH].
Qed.

Lemma encode_seq_na alph s :
  (encode_seq alph s).2 = if existsb (outside_alphabet alph) s then 1 else 0.
Proof.
  induction s as [|c s IH]; simpl; [done|].
  destruct (encode_seq alph s) as [ints na]. simpl in IH.
  destruct (alph_index alph c 0) as [a|] eqn:Ha; simpl.
  - destruct (outside_alphabet alph c) eqn:Hout; [|done].
    apply (alph_index_None alph c 0) in Hout. congruence.
  - apply alph_index_None in Ha. by rewrite Ha.
Qed.

Lemma accumulate_flags {A} (f : A → bool) (l : list A) (init : Z) :
  0 ≤ init →
  (0 <? accumulate ((λ x, if f x then 1 else 0) <$> l) init)
  = (0 <? init) || existsb f l.
Proof.
  unfold accumulate. revert init.
  induction l as [|x l IH]; intros init Hinit; simpl.
  - by rewrite orb_false_r.
  - rewrite IH by (destruct (f x); lia).
    destruct (f x); simpl.
    + rewrite orb_true_r. replace (0 <? init + 1) with true; [done|].
      symmetry. apply Z.ltb_lt. lia.
    + by rewrite Z.add_0_r.
Qed.

Lemma use_na_fun_spec alph seq_vecs :
  use_na_fun alph seq_vecs = any_unrecognized alph seq_vecs.
Proof.
  unfold use_na_fun, encode_all, any_unrecognized. simpl.
  rewrite <- list_fmap_compose.
  rewrite (list_fmap_ext _
             (λ s, if existsb (outside_alphabet alph) s then 1 else 0)
             seq_vecs)
    by (intros _ s _; apply encode_seq_na).
  by rewrite accumulate_flags.
Qed.

(** C6. Whether some letter of some sequence lies outside the alphabet
    decides the whole batch: if so, the sentinel-aware recoder (when k > 1)
    and the sentinel-aware scorer run on every sequence and every motif, and
    the warning is raised once exactly when [warnNA] is set; if not, the
    strict variants run and nothing is raised. No [Stop] is involved. *)
Theorem unrecognized_letters_switch_the_batch (score_mats : list_mat_t)
    (seq_vecs : list_char_t) (k : Z) (alph : vec_char_t) (nthreads : Z)
    (warnNA : bool) :
  (any_unrecognized alph seq_vecs = true
   ↔ ∃ s c, s ∈ seq_vecs ∧ c ∈ s ∧ c ∉ alph)
  ∧ scan_sequences_cpp_internal score_mats seq_vecs k alph nthreads warnNA
    = let seq_ints := (encode_all alph seq_vecs).1 in
      let let_len := Z.of_nat (length alph) in
      if any_unrecognized alph seq_vecs
      then (if warnNA then [NA_warning] else [],
            seq_ints' ← (if 1 <? k then deal_with_higher_k_NA seq_ints k let_len
                         else Some seq_ints);
            mapM (λ m, mapM (λ s, scan_single_seq_NA m s k) seq_ints') score_mats)
      else ([],
            seq_ints' ← (if 1 <? k then deal_with_higher_k seq_ints k let_len
                         else Some seq_ints);
            mapM (λ m, mapM (λ s, scan_single_seq m s k) seq_ints') score_mats).
Proof.
  split; [apply any_unrecognized_true|].
  unfold scan_sequences_cpp_internal. rewrite use_na_fun_spec.
  destruct (any_unrecognized alph seq_vecs), (1 <? k), warnNA; reflexivity.
Qed.

(** ** The number of window scores *)

Lemma scan_bound_no_wrap (motif : list_int_t) (sequence : vec_int_t) (k : Z) :
  1 ≤ k →
  Z.of_nat (length motif) + k - 1 ≤ Z.of_nat (length sequence) < 2 ^ 63 →
  Z.of_nat (scan_bound motif sequence k)
  = Z.of_nat (length sequence) - k + 1 - Z.of_nat (length motif) + 1.
Proof.
  intros Hk HL. unfold scan_bound.
  rewrite size_t_small by (machine_consts; lia). lia.
Qed.

Lemma mapM_seq_lookup {A} (f : nat → option A) (n : nat) (v : list A) :
  mapM f (seq 0 n) = Some v →
  length v = n ∧ ∀ i, (i < n)%nat → v !! i = f i.
Proof.
  intros H. pose proof (length_mapM _ _ _ H) as Hlen.
  rewrite length_seq in Hlen. split; [done|].
  intros i Hi. apply mapM_Some_1 in H.
  destruct (Forall2_lookup_l _ _ _ i i H) as (y & Hy & Hf).
  - apply lookup_seq. lia.
  - by rewrite Hy, Hf.
Qed.

Lemma mapM_seq_total {A} (f : nat → option A) (n : nat) :
  (∀ i, (i < n)%nat → is_Some (f i)) → is_Some (mapM f (seq 0 n)).
Proof.
  intros H. apply mapM_is_Some, Forall_forall. intros i Hi.
  apply elem_of_seq in Hi. apply H. lia.
Qed.

Section WindowTotal.

Variable sequence : vec_int_t.
Variable B : Z.

Lemma window_score_total rows p tmp :
  bounded_scores B rows →
  symbols_in_rows rows sequence →
  Forall (λ x, 0 ≤ x) sequence →
  (p + length rows ≤ length sequence)%nat →
  Z.abs tmp + Z.of_nat (length rows) * B ≤ INT_MAX →
  is_Some (window_score rows sequence p tmp).
Proof.
  intros Hb Hs Hpos. revert p tmp.
  induction rows as [|row rows IH]; intros p tmp Hp Htmp; simpl; [by eexists|].
  apply Forall_cons in Hb as [Hrow Hb]. apply Forall_cons in Hs as [Hsym Hs].
  simpl in Hp.
  destruct (lookup_lt_is_Some_2 sequence p) as [x Hx]; [lia|].
  rewrite Hx. simpl.
  assert (x ∈ sequence) as Hin by (eapply list_elem_of_lookup_2; eauto).
  pose proof (proj1 (Forall_forall _ _) Hpos x Hin) as Hx0. simpl in Hx0.
  pose proof (proj1 (Forall_forall _ _) Hsym x Hin) as Hx1. simpl in Hx1.
  rewrite at_int_nonneg by done.
  destruct (lookup_lt_is_Some_2 row (Z.to_nat x)) as [e He]; [lia|].
  rewrite He. simpl.
  assert (- B ≤ e ≤ B) as Hbe.
  { apply (proj1 (Forall_forall (λ e, - B ≤ e ≤ B) _) Hrow e).
    eapply list_elem_of_lookup_2; eauto. }
  assert (0 ≤ Z.of_nat (length rows) * B) as Hnb
    by (apply Z.mul_nonneg_nonneg; lia).
  rewrite to_int_in_range by (machine_consts; simpl length in *; lia).
  simpl. apply IH; [done | done | lia | simpl length in *; lia].
Qed.

Lemma window_score_NA_total rows p tmp :
  bounded_scores B rows →
  symbols_in_rows rows sequence →
  999999 ≤ B →
  (p + length rows ≤ length sequence)%nat →
  Z.abs tmp + Z.of_nat (length rows) * B ≤ INT_MAX →
  is_Some (window_score_NA rows sequence p tmp).
Proof.
  intros Hb Hs HB. revert p tmp.
  induction rows as [|row rows IH]; intros p tmp Hp Htmp; simpl; [by eexists|].
  apply Forall_cons in Hb as [Hrow Hb]. apply Forall_cons in Hs as [Hsym Hs].
  simpl in Hp.
  destruct (lookup_lt_is_Some_2 sequence p) as [x Hx]; [lia|].
  rewrite Hx. simpl.
  assert (x ∈ sequence) as Hin by (eapply list_elem_of_lookup_2; eauto).
  pose proof (proj1 (Forall_forall _ _) Hsym x Hin) as Hx1. simpl in Hx1.
  destruct (x <? 0) eqn:Hneg.
  - assert (0 ≤ Z.of_nat (length rows) * B) as Hnb
      by (apply Z.mul_nonneg_nonneg; lia).
    rewrite to_int_in_range
      by (machine_consts; simpl length in *; lia).
    simpl. apply IH; [done | done | lia | simpl length in *; lia].
  - rewrite at_int_nonneg by lia.
    destruct (lookup_lt_is_Some_2 row (Z.to_nat x)) as [e He]; [lia|].
    rewrite He. simpl.
    assert (- B ≤ e ≤ B) as Hbe.
    { apply (proj1 (Forall_forall (λ e, - B ≤ e ≤ B) _) Hrow e).
      eapply list_elem_of_lookup_2; eauto. }
    assert (0 ≤ Z.of_nat (length rows) * B) as Hnb
      by (apply Z.mul_nonneg_nonneg; lia).
    rewrite to_int_in_range
      by (machine_consts; simpl length in *; lia).
    simpl. apply IH; [done | done | lia | simpl length in *; lia].
Qed.

End WindowTotal.

Lemma scan_variant_unfold na motif sequence k :
  scan_variant na motif sequence k
  = mapM (λ i, window_variant na motif sequence i 0)
         (seq 0 (scan_bound motif sequence k)).
Proof. by destruct na. Qed.

(** C1, as stated, fails for k > 1: a motif of 2 positions on a stream of
    length 4 (the letters ACAC over the alphabet AC, recoded with k = 2)
    gets 2 scores, not 4 - 2 + 1 = 3. *)
Lemma window_count_depends_on_k :
  ¬ (∀ (motif : list_int_t) (sequence : vec_int_t) (k : Z) (v : vec_int_t),
       (length motif ≤ length sequence)%nat →
       1 ≤ k →
       scan_single_seq motif sequence k = Some v →
       Z.of_nat (length v)
       = Z.of_nat (length sequence) - Z.of_nat (length motif) + 1).
Proof.
  intros H.
  specialize (H [[0; 10; 0; 0]; [0; 0; 10; 0]] [1; 2; 1; 1] 2 [20; 0]).
  simpl in H. specialize (H ltac:(lia) ltac:(lia) eq_refl). lia.
Qed.

(** C1, amended. For a motif of W positions, a stream of length L and an
    order k >= 1 with W + k - 1 <= L, on inputs whose symbols index the motif
    rows and whose window sums fit an [int], the scorer returns exactly
    L - k + 1 - W + 1 scores, the i-th being the sum of the window that starts
    at offset i; for k = 1 this is L - W + 1. It holds for the strict scorer
    on sentinel-free streams and for the sentinel-aware scorer. *)
Theorem window_count (na : bool) (motif : list_int_t) (sequence : vec_int_t)
    (k B : Z) :
  1 ≤ k →
  Z.of_nat (length motif) + k - 1 ≤ Z.of_nat (length sequence) < 2 ^ 63 →
  bounded_scores B motif →
  Z.of_nat (length motif) * B ≤ INT_MAX →
  symbols_in_rows motif sequence →
  (if na then 999999 ≤ B else Forall (λ x, 0 ≤ x) sequence) →
  ∃ v, scan_variant na motif sequence k = Some v
       ∧ Z.of_nat (length v)
         = Z.of_nat (length sequence) - k + 1 - Z.of_nat (length motif) + 1
       ∧ ∀ i, (i < length v)%nat →
              is_Some (v !! i)
              ∧ v !! i = window_variant na motif sequence i 0.
Proof.
  intros Hk HL Hb HB Hs Hna.
  pose proof (scan_bound_no_wrap motif sequence k Hk HL) as Hbound.
  assert (∀ i, (i < scan_bound motif sequence k)%nat →
               is_Some (window_variant na motif sequence i 0)) as Htotal.
  { intros i Hi. destruct na; simpl.
    - apply (window_score_NA_total sequence B); [done | done | done | lia | simpl; lia].
    - apply (window_score_total sequence B); [done | done | done | lia | simpl; lia]. }
  rewrite scan_variant_unfold.
  destruct (mapM_seq_total _ _ Htotal) as [v Hv].
  exists v. destruct (mapM_seq_lookup _ _ _ Hv) as [Hlen Hlook].
  split_and!; [done | lia |].
  intros i Hi. rewrite Hlook by lia. split; [apply Htotal; lia | done].
Qed.

Lemma window_count_witness :
  ∃ v, scan_variant true [[0; 10; 0; 0]; [0; 0; 10; 0]] [1; -1; 1; 2; 1] 2 = Some v
       ∧ Z.of_nat (length v) = 5 - 2 + 1 - 2 + 1
       ∧ ∀ i, (i < length v)%nat →
              is_Some (v !! i)
              ∧ v !! i = window_variant true [[0; 10; 0; 0]; [0; 0; 10; 0]]
                           [1; -1; 1; 2; 1] i 0.
Proof.
  apply (window_count true [[0; 10; 0; 0]; [0; 0; 10; 0]] [1; -1; 1; 2; 1] 2 999999).
  - lia.
  - simpl. lia.
  - repeat constructor; lia.
  - unfold INT_MAX. simpl. lia.
  - repeat constructor; simpl; lia.
  - simpl. lia.
Defined.

(** ** The higher-order recoder *)

Lemma composite_value_cons A x w :
  composite_value A (x :: w)
  = x * A ^ Z.of_nat (length w) + composite_value A w.
Proof. reflexivity. Qed.

(** [composite_value] is the positional sum of the specification: the
    symbol at [j] weighs [let_len^(k-1-j)], for [k] the window's length. *)
Lemma composite_value_sum A w :
  composite_value A w
  = foldr Z.add 0
      (imap (λ j x, x * A ^ (Z.of_nat (length w) - 1 - Z.of_nat j)) w).
Proof.
  induction w as [|x w IH]; [done|].
  rewrite composite_value_cons, imap_cons. simpl foldr.
  f_equal; [f_equal; f_equal; simpl length; lia|].
  rewrite IH. f_equal. apply imap_ext. intros j y _. simpl.
  f_equal. f_equal. lia.
Qed.

Lemma composite_abs_nonneg A w : 0 ≤ A → 0 ≤ composite_value A (Z.abs <$> w).
Proof.
  intros HA. induction w as [|x w IH]; [simpl; lia|].
  rewrite fmap_cons, composite_value_cons.
  assert (0 ≤ A ^ Z.of_nat (length (Z.abs <$> w))) by (apply Z.pow_nonneg; lia).
  apply Z.add_nonneg_nonneg; [apply Z.mul_nonneg_nonneg; lia | done].
Qed.

Lemma composite_abs_bound A w :
  0 ≤ A →
  Forall (λ x, -1 ≤ x < A) w →
  composite_value A (Z.abs <$> w)
  ≤ if 2 <=? A then A ^ Z.of_nat (length w) - 1 else Z.of_nat (length w).
Proof.
  intros HA Hw. destruct (2 <=? A) eqn:HA2.
  - apply Z.leb_le in HA2.
    induction Hw as [|x w Hx Hw IH]; [simpl; lia|].
    rewrite fmap_cons, composite_value_cons, length_fmap. simpl length.
    replace (Z.of_nat (S (length w))) with (Z.succ (Z.of_nat (length w))) by lia.
    rewrite Z.pow_succ_r by lia.
    assert (0 < A ^ Z.of_nat (length w)) by (apply Z.pow_pos_nonneg; lia).
    assert (Z.abs x * A ^ Z.of_nat (length w) ≤ (A - 1) * A ^ Z.of_nat (length w))
      by (apply Z.mul_le_mono_nonneg_r; lia).
    lia.
  - apply Z.leb_gt in HA2.
    induction Hw as [|x w Hx Hw IH]; [simpl; lia|].
    rewrite fmap_cons, composite_value_cons, length_fmap. simpl length.
    assert (0 ≤ A ^ Z.of_nat (length w) ≤ 1).
    { split; [apply Z.pow_nonneg; lia|].
      destruct (decide (A = 1)) as [->|]; [by rewrite Z.pow_1_l by lia|].
      assert (A = 0) as -> by lia.
      destruct (length w); [done|]. rewrite Z.pow_0_l by lia. lia. }
    assert (Z.abs x * A ^ Z.of_nat (length w) ≤ 1 * 1)
      by (apply Z.mul_le_mono_nonneg; lia).
    lia.
Qed.

Lemma pow_finite A e k :
  0 ≤ A → 0 ≤ e ≤ k → A ^ k ≤ 2 ^ 31 → pow A e = Some (A ^ e).
Proof.
  intros HA He Hk. unfold pow.
  assert (A ^ e ≤ 2 ^ 31) as Hle.
  { destruct (decide (A = 0)) as [->|].
    - destruct (decide (e = 0)) as [->|]; [done|].
      rewrite Z.pow_0_l by lia. done.
    - etrans; [apply Z.pow_le_mono_r; [lia | exact (proj2 He)] | done]. }
  assert (2 ^ 31 < 2 ^ 1024 - 2 ^ 970) as Hbig by (by vm_compute).
  destruct (A ^ e <? 2 ^ 1024 - 2 ^ 970) eqn:E; [done|].
  apply Z.ltb_ge in E. lia.
Qed.

Lemma k_window_length (s : vec_int_t) i n :
  (i + n ≤ length s)%nat → length (k_window s i n) = n.
Proof.
  intros H. unfold k_window. rewrite length_take_le; [done|].
  rewrite length_drop. lia.
Qed.

Lemma k_window_cons (s : vec_int_t) i n x :
  s !! i = Some x → k_window s i (S n) = x :: k_window s (S i) n.
Proof. intros H. unfold k_window. by rewrite (drop_S _ _ _ H). Qed.

Lemma k_window_subseteq (s : vec_int_t) i n : k_window s i n ⊆ s.
Proof. unfold k_window. etrans; [apply subseteq_take | apply subseteq_drop]. Qed.

Section RecoderSums.

Variables k let_len : Z.
Hypothesis let_len_nonneg : 0 ≤ let_len.
Hypothesis composite_fits : let_len ^ k ≤ 2 ^ 31.

Lemma higher_k_sum_correct cur j n b tmp :
  Z.of_nat (b + n) = k →
  (j + b + n ≤ length cur)%nat →
  Z.abs tmp + composite_value let_len (Z.abs <$> k_window cur (j + b) n) ≤ INT_MAX →
  higher_k_sum k let_len cur j n b tmp
  = Some (tmp + composite_value let_len (k_window cur (j + b) n)).
Proof using let_len_nonneg composite_fits.
  revert b tmp. induction n as [|n IH]; intros b tmp Hk Hlen Hfit.
  - unfold k_window. simpl. f_equal. lia.
  - destruct (lookup_lt_is_Some_2 cur (j + b)) as [x Hx]; [lia|].
    rewrite (k_window_cons _ _ _ _ Hx) in Hfit |- *.
    rewrite fmap_cons, composite_value_cons, length_fmap in Hfit.
    rewrite composite_value_cons.
    rewrite k_window_length in Hfit |- * by lia.
    pose proof (composite_abs_nonneg let_len (k_window cur (S (j + b)) n)
                  let_len_nonneg) as Hrest.
    assert (0 ≤ let_len ^ Z.of_nat n) as Hp by (apply Z.pow_nonneg; lia).
    assert (Z.abs (x * let_len ^ Z.of_nat n) = Z.abs x * let_len ^ Z.of_nat n)
      as Habs by (rewrite Z.abs_mul, (Z.abs_eq (let_len ^ _)); done).
    simpl higher_k_sum. rewrite Hx. simpl.
    replace (k - Z.of_nat b - 1) with (Z.of_nat n) by lia.
    rewrite (pow_finite let_len (Z.of_nat n) k) by (done || lia). simpl.
    rewrite to_int_in_range by (machine_consts; lia). simpl.
    rewrite IH; [f_equal; rewrite Nat.add_succ_r; lia | lia | lia |].
    rewrite Nat.add_succ_r. lia.
Qed.

Lemma higher_k_sum_NA_correct cur j n b tmp :
  Z.of_nat (b + n) = k →
  (j + b + n ≤ length cur)%nat →
  Z.abs tmp + composite_value let_len (Z.abs <$> k_window cur (j + b) n) ≤ INT_MAX →
  higher_k_sum_NA k let_len cur j n b tmp
  = Some (if existsb (λ x, x <? 0) (k_window cur (j + b) n) then -1
          else tmp + composite_value let_len (k_window cur (j + b) n)).
Proof using let_len_nonneg composite_fits.
  revert b tmp. induction n as [|n IH]; intros b tmp Hk Hlen Hfit.
  - unfold k_window. simpl. f_equal. lia.
  - destruct (lookup_lt_is_Some_2 cur (j + b)) as [x Hx]; [lia|].
    rewrite (k_window_cons _ _ _ _ Hx) in Hfit |- *.
    rewrite fmap_cons, composite_value_cons, length_fmap in Hfit.
    rewrite composite_value_cons.
    rewrite k_window_length in Hfit |- * by lia.
    pose proof (composite_abs_nonneg let_len (k_window cur (S (j + b)) n)
                  let_len_nonneg) as Hrest.
    assert (0 ≤ let_len ^ Z.of_nat n) as Hp by (apply Z.pow_nonneg; lia).
    assert (Z.abs (x * let_len ^ Z.of_nat n) = Z.abs x * let_len ^ Z.of_nat n)
      as Habs by (rewrite Z.abs_mul, (Z.abs_eq (let_len ^ _)); done).
    simpl higher_k_sum_NA. rewrite Hx. simpl.
    destruct (x <? 0); [done|].
    replace (k - Z.of_nat b - 1) with (Z.of_nat n) by lia.
    rewrite (pow_finite let_len (Z.of_nat n) k) by (done || lia). simpl.
    rewrite to_int_in_range by (machine_consts; lia). simpl.
    rewrite IH; [| lia | lia | rewrite Nat.add_succ_r; lia].
    rewrite Nat.add_succ_r.
    destruct (existsb _ _); [done | f_equal; lia].
Qed.

End RecoderSums.

(** The loop over [j] reads only entries it has not yet written: when the
    sum at [j] is [f] of the k-window of the original stream, the loop
    fills the first [n] entries from [j] on and leaves the others. *)
Lemma higher_k_loop_correct (sum : vec_int_t → nat → option Z)
    (f : vec_int_t → Z) (kn : nat) (s : vec_int_t) :
  (0 < kn)%nat →
  (∀ cur j, length cur = length s → drop j cur = drop j s →
            (j + kn ≤ length s)%nat →
            sum cur j = Some (f (k_window s j kn))) →
  ∀ n j cur,
    length cur = length s → drop j cur = drop j s →
    (j + n + kn ≤ length s + 1)%nat →
    ∃ r, higher_k_loop sum n j cur = Some r
         ∧ length r = length s
         ∧ (∀ i, (i < j)%nat → r !! i = cur !! i)
         ∧ (∀ i, (j ≤ i < j + n)%nat → r !! i = Some (f (k_window s i kn)))
         ∧ (∀ i, (j + n ≤ i)%nat → r !! i = s !! i).
Proof.
  intros Hkn Hsum. induction n as [|n IH]; intros j cur Hlen Hdrop Hn.
  - exists cur. simpl. split_and!; [done | done | done | intros; lia |].
    intros i Hi. replace i with (j + (i - j))%nat by lia.
    by rewrite <- !lookup_drop, Hdrop.
  - simpl. rewrite (Hsum cur j) by (done || lia). simpl.
    rewrite decide_True by lia.
    destruct (IH (S j) (<[j := f (k_window s j kn)]> cur))
      as (r & Hr & Hrlen & Hbefore & Hin & Hafter).
    + by rewrite length_insert.
    + rewrite drop_insert_lt by lia.
      replace (S j) with (j + 1)%nat by lia.
      by rewrite <- !drop_drop, Hdrop.
    + lia.
    + exists r. split_and!; [done | done | | |].
      * intros i Hi. rewrite Hbefore by lia.
        apply list_lookup_insert_ne. lia.
      * intros i Hi. destruct (decide (i = j)) as [->|Hne].
        -- rewrite Hbefore by lia. apply list_lookup_insert_eq. lia.
        -- apply Hin. lia.
      * intros i Hi. apply Hafter. lia.
Qed.

Lemma higher_k_bound_no_wrap (s : vec_int_t) (k : Z) :
  1 < k →
  k - 1 ≤ Z.of_nat (length s) < 2 ^ 63 →
  (higher_k_bound s k + Z.to_nat k = length s + 1)%nat.
Proof.
  intros Hk Hs. unfold higher_k_bound.
  rewrite size_t_small by (machine_consts; lia). lia.
Qed.

Lemma negative_is_sentinel (w : vec_int_t) :
  Forall (λ x, -1 ≤ x) w →
  existsb (λ x, x <? 0) w = bool_decide (-1 ∈ w).
Proof.
  intros Hw. induction Hw as [|x w Hx Hw IH]; simpl; [done|].
  rewrite IH. destruct (x <? 0) eqn:Hneg; simpl.
  - symmetry. apply bool_decide_eq_true. assert (x = -1) as -> by lia. left.
  - destruct (bool_decide (-1 ∈ w)) eqn:Hd.
    + symmetry. apply bool_decide_eq_true. right.
      by apply bool_decide_eq_true in Hd.
    + symmetry. apply bool_decide_eq_false. intros Hin.
      apply elem_of_cons in Hin as [Heq | Hin]; [lia|].
      by apply bool_decide_eq_false in Hd.
Qed.

Lemma encoded_window let_len s i n :
  encoded let_len s → encoded let_len (k_window s i n).
Proof.
  unfold encoded. rewrite !Forall_forall. intros H x Hx.
  apply H. by apply (k_window_subseteq s i n).
Qed.

Section RecoderStream.

Variables k let_len : Z.
Hypothesis order : 1 < k ≤ INT_MAX.
Hypothesis let_len_nonneg : 0 ≤ let_len.
Hypothesis composite_fits : let_len ^ k ≤ 2 ^ 31.
Variable s : vec_int_t.
Hypothesis long_enough : k - 1 ≤ Z.of_nat (length s) < 2 ^ 63.
Hypothesis s_encoded : encoded let_len s.

Lemma window_fits cur j :
  drop j cur = drop j s →
  composite_value let_len (Z.abs <$> k_window cur j (Z.to_nat k)) ≤ INT_MAX.
Proof using order let_len_nonneg composite_fits s_encoded.
  intros Hdrop.
  assert (encoded let_len (k_window cur j (Z.to_nat k))) as Hw.
  { unfold k_window. rewrite Hdrop. by apply encoded_window. }
  pose proof (composite_abs_bound let_len _ let_len_nonneg Hw) as Hb.
  assert (length (k_window cur j (Z.to_nat k)) ≤ Z.to_nat k)%nat as Hlen
    by (unfold k_window; rewrite length_take; lia).
  destruct (2 <=? let_len) eqn:H2.
  - apply Z.leb_le in H2.
    assert (let_len ^ Z.of_nat (length (k_window cur j (Z.to_nat k)))
            ≤ let_len ^ k) by (apply Z.pow_le_mono_r; lia).
    machine_consts. lia.
  - machine_consts. lia.
Qed.

Lemma recode_stream (na : bool) :
  ∃ r, higher_k_loop
         (λ s' j, (if na then higher_k_sum_NA else higher_k_sum)
                    k let_len s' j (Z.to_nat k) 0%nat 0)
         (higher_k_bound s k) 0 s = Some r
       ∧ recoded na (Z.to_nat k) let_len s r.
Proof using All.
  pose proof (higher_k_bound_no_wrap s k ltac:(lia) long_enough) as Hbound.
  destruct (higher_k_loop_correct
              (λ s' j, (if na then higher_k_sum_NA else higher_k_sum)
                         k let_len s' j (Z.to_nat k) 0%nat 0)
              (λ w, if na && bool_decide (-1 ∈ w) then -1
                    else composite_value let_len w)
              (Z.to_nat k) s ltac:(lia)) with (n := higher_k_bound s k)
              (j := 0%nat) (cur := s)
    as (r & Hr & Hlen & _ & Hin & Hafter); [| done | done | lia |].
  - intros cur j Hlen Hdrop Hj.
    pose proof (window_fits cur j Hdrop) as Hfit.
    assert (k_window cur j (Z.to_nat k) = k_window s j (Z.to_nat k)) as Hw
      by (unfold k_window; by rewrite Hdrop).
    destruct na; simpl.
    + rewrite (higher_k_sum_NA_correct k let_len let_len_nonneg composite_fits)
        by (rewrite ?Nat.add_0_r; simpl; lia).
      rewrite Nat.add_0_r, Hw, negative_is_sentinel; [done|].
      eapply Forall_impl; [apply encoded_window, s_encoded|].
      simpl. intros; lia.
    + rewrite (higher_k_sum_correct k let_len let_len_nonneg composite_fits)
        by (rewrite ?Nat.add_0_r; simpl; lia).
      by rewrite Nat.add_0_r, Hw.
  - exists r. split; [done|]. split_and!; [done | |].
    + intros i Hi. apply Hin. lia.
    + intros i Hi. apply Hafter. lia.
Qed.

End RecoderStream.

Lemma mapM_Forall2 {A B} (f : A → option B) (P : A → B → Prop) (l : list A) :
  Forall (λ x, ∃ y, f x = Some y ∧ P x y) l →
  ∃ l', mapM f l = Some l' ∧ Forall2 P l l'.
Proof.
  induction 1 as [|x l (y & Hy & HP) _ (l' & Hl' & HF)].
  - exists []. by split.
  - exists (y :: l'). split; [|by constructor].
    simpl. rewrite Hy. simpl. by rewrite Hl'.
Qed.

(** C8. For an order k > 1 and encoded streams of at least k - 1 symbols
    over an alphabet whose k-th power fits an [int], both recoders return;
    every stream keeps its length; the entry at the start of each k-window
    is the composite value of the window's original symbols, or, in the
    sentinel-aware variant, the sentinel when the window contains one; and
    the entries past the first len - k + 1 are unchanged. *)
Theorem recoder_writes_composite_values (seq_ints : list_int_t) (k let_len : Z) :
  1 < k ≤ INT_MAX →
  0 ≤ let_len →
  let_len ^ k ≤ 2 ^ 31 →
  Forall (λ s, k - 1 ≤ Z.of_nat (length s) < 2 ^ 63 ∧ encoded let_len s) seq_ints →
  ∃ strict aware,
    deal_with_higher_k seq_ints k let_len = Some strict
    ∧ deal_with_higher_k_NA seq_ints k let_len = Some aware
    ∧ Forall2 (recoded false (Z.to_nat k) let_len) seq_ints strict
    ∧ Forall2 (recoded true (Z.to_nat k) let_len) seq_ints aware.
Proof.
  intros Hk HA Hfit Hs.
  destruct (mapM_Forall2
              (λ s, higher_k_loop
                      (λ s' j, higher_k_sum k let_len s' j (Z.to_nat k) 0 0)
                      (higher_k_bound s k) 0 s)
              (recoded false (Z.to_nat k) let_len) seq_ints)
    as (strict & Hstrict & Hrs).
  { eapply Forall_impl; [exact Hs|]. intros s [Hlen Henc].
    apply (recode_stream k let_len Hk HA Hfit s Hlen Henc false). }
  destruct (mapM_Forall2
              (λ s, higher_k_loop
                      (λ s' j, higher_k_sum_NA k let_len s' j (Z.to_nat k) 0 0)
                      (higher_k_bound s k) 0 s)
              (recoded true (Z.to_nat k) let_len) seq_ints)
    as (aware & Haware & Hra).
  { eapply Forall_impl; [exact Hs|]. intros s [Hlen Henc].
    apply (recode_stream k let_len Hk HA Hfit s Hlen Henc true). }
  exists strict, aware. by split_and!.
Qed.

Lemma recoder_writes_composite_values_witness :
  ∃ strict aware,
    deal_with_higher_k [[0; 1; -1; 1; 0]; [1]] 2 2 = Some strict
    ∧ deal_with_higher_k_NA [[0; 1; -1; 1; 0]; [1]] 2 2 = Some aware
    ∧ Forall2 (recoded false (Z.to_nat 2) 2) [[0; 1; -1; 1; 0]; [1]] strict
    ∧ Forall2 (recoded true (Z.to_nat 2) 2) [[0; 1; -1; 1; 0]; [1]] aware.
Proof.
  apply recoder_writes_composite_values.
  - unfold INT_MAX. simpl. lia.
  - lia.
  - simpl. lia.
  - repeat constructor; simpl; lia.
Defined.

Example recoder_on_ACNCA :
  deal_with_higher_k [[0; 1; -1; 1; 0]; [1]] 2 2 = Some [[1; 1; -1; 2; 0]; [1]]
  ∧ deal_with_higher_k_NA [[0; 1; -1; 1; 0]; [1]] 2 2
    = Some [[1; -1; -1; 2; 0]; [1]].
Proof. split; reflexivity. Qed.

(** ** Hits *)

Lemma window_score_in_bounds rows sequence p tmp x :
  window_score rows sequence p tmp = Some x →
  rows ≠ [] → (p + length rows ≤ length sequence)%nat.
Proof.
  revert p tmp. induction rows as [|row rows IH]; intros p tmp H Hne; [done|].
  simpl in H. destruct (sequence !! p) as [y|] eqn:Hy; [|done]. simpl in H.
  apply lookup_lt_Some in Hy.
  destruct (at_int row y) as [e|]; [|done]. simpl in H.
  destruct (to_int (tmp + e)) as [tmp'|]; [|done]. simpl in H.
  destruct rows as [|row' rows']; [simpl; lia|].
  specialize (IH _ _ H ltac:(done)). simpl in *. lia.
Qed.

Lemma window_score_NA_in_bounds rows sequence p tmp x :
  window_score_NA rows sequence p tmp = Some x →
  rows ≠ [] → (p + length rows ≤ length sequence)%nat.
Proof.
  revert p tmp. induction rows as [|row rows IH]; intros p tmp H Hne; [done|].
  simpl in H. destruct (sequence !! p) as [y|] eqn:Hy; [|done]. simpl in H.
  apply lookup_lt_Some in Hy.
  destruct (if y <? 0 then to_int (tmp + -999999)
            else at_int row y ≫= λ e, to_int (tmp + e)) as [tmp'|]; [|done].
  simpl in H.
  destruct rows as [|row' rows']; [simpl; lia|].
  specialize (IH _ _ H ltac:(done)). simpl in *. lia.
Qed.

Lemma scan_variant_in_bounds na motif sequence k v b :
  scan_variant na motif sequence k = Some v →
  (b < length v)%nat →
  (Z.of_nat b < 2 ^ 64)
  ∧ (motif ≠ [] → (b + length motif ≤ length sequence)%nat).
Proof.
  rewrite scan_variant_unfold. intros Hv Hb.
  destruct (mapM_seq_lookup _ _ _ Hv) as [Hlen Hlook].
  split.
  - unfold scan_bound, size_t in Hlen.
    pose proof (Z.mod_pos_bound
                  (Z.of_nat (length sequence) - k + 1
                   - Z.of_nat (length motif) + 1) (2 ^ 64) ltac:(done)).
    lia.
  - intros Hne. destruct (lookup_lt_is_Some_2 v b Hb) as [x Hx].
    rewrite Hlook in Hx by lia.
    destruct na; simpl in Hx.
    + by eapply window_score_NA_in_bounds.
    + by eapply window_score_in_bounds.
Qed.

Lemma higher_k_loop_length sum n j s r :
  higher_k_loop sum n j s = Some r → length r = length s.
Proof.
  revert j s. induction n as [|n IH]; intros j s H; simpl in H.
  - by injection H as <-.
  - destruct (sum s j) as [tmp|]; [|done]. simpl in H.
    case_decide; [|done]. apply IH in H. by rewrite length_insert in H.
Qed.

Lemma encode_seq_length alph s : length (encode_seq alph s).1 = length s.
Proof.
  induction s as [|c s IH]; simpl; [done|].
  destruct (encode_seq alph s) as [ints na].
  destruct (alph_index alph c 0); simpl in *; by rewrite IH.
Qed.

Lemma length_list_ascii_of_string s :
  length (list_ascii_of_string s) = String.length s.
Proof. induction s as [|c s IH]; simpl; [done | by rewrite IH]. Qed.

Lemma substring_length pos len s :
  (pos + len ≤ String.length s)%nat →
  String.length (substring pos len s) = len.
Proof.
  revert pos len. induction s as [|c s IH]; intros pos len H; simpl in *.
  - destruct pos, len; simpl; lia.
  - destruct pos as [|pos].
    + destruct len as [|len]; simpl; [done|]. rewrite IH; lia.
    + apply IH. lia.
Qed.

Lemma deal_with_higher_k_NA_lookup seq_ints k let_len out j s' :
  deal_with_higher_k_NA seq_ints k let_len = Some out →
  out !! j = Some s' →
  ∃ s, seq_ints !! j = Some s ∧ length s' = length s.
Proof.
  intros H Hj. apply mapM_Some_1 in H.
  destruct (Forall2_lookup_r _ _ _ _ _ H Hj) as (s & Hs & Hloop).
  exists s. split; [done|]. by eapply higher_k_loop_length.
Qed.

Lemma deal_with_higher_k_lookup seq_ints k let_len out j s' :
  deal_with_higher_k seq_ints k let_len = Some out →
  out !! j = Some s' →
  ∃ s, seq_ints !! j = Some s ∧ length s' = length s.
Proof.
  intros H Hj. apply mapM_Some_1 in H.
  destruct (Forall2_lookup_r _ _ _ _ _ H Hj) as (s & Hs & Hloop).
  exists s. split; [done|]. by eapply higher_k_loop_length.
Qed.

Lemma encode_all_lookup alph seq_vecs j s :
  (encode_all alph seq_vecs).1 !! j = Some s →
  ∃ raw, seq_vecs !! j = Some raw ∧ length s = length raw.
Proof.
  unfold encode_all. simpl. rewrite !list_lookup_fmap.
  destruct (seq_vecs !! j) as [raw|]; simpl; [|done].
  intros [= <-]. exists raw. split; [done | apply encode_seq_length].
Qed.

(** Each score vector of the orchestrator is the result of one of the two
    scorers on a motif and on a stream as long as the raw sequence. *)
Lemma internal_score_vector score_mats seq_vecs k alph nthreads warnNA w
    out_pre i j vs v :
  scan_sequences_cpp_internal score_mats seq_vecs k alph nthreads warnNA
  = (w, Some out_pre) →
  out_pre !! i = Some vs → vs !! j = Some v →
  ∃ na m s' raw,
    score_mats !! i = Some m ∧ seq_vecs !! j = Some raw
    ∧ length s' = length raw ∧ scan_variant na m s' k = Some v.
Proof.
  unfold scan_sequences_cpp_internal.
  generalize (eq_refl (encode_all alph seq_vecs).1).
  generalize (encode_all alph seq_vecs).1 at 2 3 4 5.
  intros seq_ints Hseq.
  generalize (use_na_fun alph seq_vecs). intros na [= _ H] Hi Hj.
  destruct (if (1 <? k) && na
            then deal_with_higher_k_NA seq_ints k (Z.of_nat (length alph))
            else if 1 <? k
                 then deal_with_higher_k seq_ints k (Z.of_nat (length alph))
                 else Some seq_ints) as [seq_ints'|] eqn:Hrec; [|done].
  simpl in H.
  assert (∃ m s', score_mats !! i = Some m ∧ seq_ints' !! j = Some s'
                  ∧ scan_variant na m s' k = Some v) as (m & s' & Hm & Hs' & Hv).
  { destruct na; simpl in H; apply mapM_Some_1 in H;
      destruct (Forall2_lookup_r _ _ _ _ _ H Hi) as (m & Hm & Hvs);
      apply mapM_Some_1 in Hvs;
      destruct (Forall2_lookup_r _ _ _ _ _ Hvs Hj) as (s' & Hs' & Hv);
      by exists m, s'. }
  assert (∃ s, seq_ints !! j = Some s ∧ length s' = length s) as (s & Hs & Hlen).
  { destruct ((1 <? k) && na).
    - by eapply deal_with_higher_k_NA_lookup.
    - destruct (1 <? k).
      + by eapply deal_with_higher_k_lookup.
      + injection Hrec as <-. by exists s'. }
  rewrite <- Hseq in Hs.
  destruct (encode_all_lookup _ _ _ _ Hs) as (raw & Hraw & Hlen').
  exists na, m, s', raw. split_and!; [done | done | lia | done].
Qed.

(** Each hit is a position of a score vector that meets the threshold. *)
Lemma format_positions_spec scores motifs i j b0 v hs h :
  format_positions scores motifs i j b0 v = Some hs →
  h ∈ hs →
  ∃ b m x,
    v !! b = Some x ∧ motifs !! i = Some m
    ∧ h = Hit (Z.of_nat i + 1) (Z.of_nat j + 1) (Z.of_nat (b0 + b) + 1)
              (Z.of_nat (b0 + b) + Z.of_nat (length m)) x.
Proof.
  revert b0 hs. induction v as [|y v IH]; intros b0 hs H Hh; simpl in H.
  - injection H as <-. inversion Hh.
  - destruct (scores !! i) as [t|]; [|done]. simpl in H.
    assert (∀ hs', format_positions scores motifs i j (S b0) v = Some hs' →
                   h ∈ hs' →
                   ∃ b m x, (y :: v) !! b = Some x ∧ motifs !! i = Some m
                     ∧ h = Hit (Z.of_nat i + 1) (Z.of_nat j + 1)
                               (Z.of_nat (b0 + b) + 1)
                               (Z.of_nat (b0 + b) + Z.of_nat (length m)) x)
      as Hrest.
    { intros hs' Hhs' Hin.
      destruct (IH _ _ Hhs' Hin) as (b & m & x & Hb & Hm & ->).
      exists (S b), m, x. split_and!; [done | done |].
      by replace (b0 + S b)%nat with (S b0 + b)%nat by lia. }
    destruct (meets_threshold y t).
    + destruct (motifs !! i) as [m|] eqn:Hm; [|done]. simpl in H.
      destruct (format_positions scores motifs i j (S b0) v) as [rest|];
        [|done].
      injection H as <-. apply elem_of_cons in Hh as [-> | Hh].
      * exists 0%nat, m, y. rewrite Nat.add_0_r. by split_and!.
      * by apply (Hrest rest).
    + by apply (Hrest hs).
Qed.

Lemma format_sequences_spec scores motifs i j0 vs hs h :
  format_sequences scores motifs i j0 vs = Some hs →
  h ∈ hs →
  ∃ j v b m x,
    vs !! j = Some v ∧ v !! b = Some x ∧ motifs !! i = Some m
    ∧ h = Hit (Z.of_nat i + 1) (Z.of_nat (j0 + j) + 1) (Z.of_nat b + 1)
              (Z.of_nat b + Z.of_nat (length m)) x.
Proof.
  revert j0 hs. induction vs as [|v vs IH]; intros j0 hs H Hh; simpl in H.
  - injection H as <-. inversion Hh.
  - destruct (format_positions scores motifs i j0 0 v) as [here|] eqn:Hhere;
      [|done]. simpl in H.
    destruct (format_sequences scores motifs i (S j0) vs) as [rest|] eqn:Hrest;
      [|done]. simpl in H.
    injection H as <-. apply elem_of_app in Hh as [Hh | Hh].
    + destruct (format_positions_spec _ _ _ _ _ _ _ _ Hhere Hh)
        as (b & m & x & Hb & Hm & ->).
      exists 0%nat, v, b, m, x. rewrite Nat.add_0_r. by split_and!.
    + destruct (IH _ _ Hrest Hh) as (j & v' & b & m & x & Hj & Hb & Hm & ->).
      exists (S j), v', b, m, x. split_and!; [done | done | done |].
      by replace (j0 + S j)%nat with (S j0 + j)%nat by lia.
Qed.

Lemma format_motifs_spec scores motifs i0 out_pre hs h :
  format_motifs scores motifs i0 out_pre = Some hs →
  h ∈ hs →
  ∃ i vs j v b m x,
    out_pre !! i = Some vs ∧ vs !! j = Some v ∧ v !! b = Some x
    ∧ motifs !! (i0 + i)%nat = Some m
    ∧ h = Hit (Z.of_nat (i0 + i) + 1) (Z.of_nat j + 1) (Z.of_nat b + 1)
              (Z.of_nat b + Z.of_nat (length m)) x.
Proof.
  revert i0 hs. induction out_pre as [|vs out IH]; intros i0 hs H Hh; simpl in H.
  - injection H as <-. inversion Hh.
  - destruct (format_sequences scores motifs i0 0 vs) as [here|] eqn:Hhere;
      [|done]. simpl in H.
    destruct (format_motifs scores motifs (S i0) out) as [rest|] eqn:Hrest;
      [|done]. simpl in H.
    injection H as <-. apply elem_of_app in Hh as [Hh | Hh].
    + destruct (format_sequences_spec _ _ _ _ _ _ _ Hhere Hh)
        as (j & v & b & m & x & Hj & Hb & Hm & ->).
      exists 0%nat, vs, j, v, b, m, x. rewrite Nat.add_0_r. by split_and!.
    + destruct (IH _ _ Hrest Hh)
        as (i & vs' & j & v & b & m & x & Hi & Hj & Hb & Hm & ->).
      exists (S i), vs', j, v, b, m, x.
      replace (i0 + S i)%nat with (S i0 + i)%nat by lia. by split_and!.
Qed.

Lemma get_matches_spec res seq_vecs motifs ms :
  get_matches res seq_vecs motifs = Returned ms →
  Forall2 (λ h m, get_match seq_vecs motifs h = Returned m) res ms.
Proof.
  revert ms. induction res as [|h res IH]; intros ms H; simpl in H.
  - injection H as <-. constructor.
  - destruct (get_match seq_vecs motifs h) as [m| | |] eqn:Hm; try done.
    simpl in H.
    destruct (get_matches res seq_vecs motifs) as [ms'| | |]; try done.
    simpl in H. injection H as <-. constructor; [done | by apply IH].
Qed.

Lemma get_match_Returned seq_vecs motifs i j b stop x mt :
  Z.of_nat b < 2 ^ 64 →
  get_match seq_vecs motifs
    (Hit (Z.of_nat i + 1) (Z.of_nat j + 1) (Z.of_nat b + 1) stop x)
  = Returned mt →
  ∃ raw m, seq_vecs !! j = Some raw ∧ motifs !! i = Some m
           ∧ (b ≤ String.length raw)%nat
           ∧ mt = substring b (length m) raw.
Proof.
  intros Hb. unfold get_match. simpl.
  rewrite !at_int_nonneg by lia.
  replace (Z.to_nat (Z.of_nat j + 1 - 1)) with j by lia.
  replace (Z.to_nat (Z.of_nat i + 1 - 1)) with i by lia.
  rewrite size_t_small by lia.
  replace (Z.to_nat (Z.of_nat b + 1 - 1)) with b by lia.
  destruct (seq_vecs !! j) as [raw|]; simpl; [|done].
  destruct (motifs !! i) as [m|]; simpl; [|done].
  unfold substr. case_decide; [|done].
  intros [= <-]. by exists raw, m.
Qed.

(** C2. In every returned hit table, whatever the order k, each row names a
    motif and a sequence of the call, its start and stop are 1-based
    positions inside the raw sequence, [stop - start + 1] is the motif's
    width (the number of columns of its score matrix, counted in raw
    letters), and the match is the slice of the raw sequence of that width
    that begins at [start]. *)
Theorem hit_spans_motif_width (score_mats : list NumericMatrix)
    (seq_vecs : vec_str_t) (k : Z) (alph : string) (min_scores : vec_num_t)
    (nthreads : Z) (allow_nonfinite warnNA : bool) (w : list string)
    (df : DataFrame) (r : nat) (motif : Z) :
  scan_sequences_cpp score_mats seq_vecs k alph min_scores nthreads
    allow_nonfinite warnNA = (w, Returned df) →
  df_motif df !! r = Some motif →
  ∃ sequence start stop match_ mat raw,
    df_sequence df !! r = Some sequence
    ∧ df_start df !! r = Some start
    ∧ df_stop df !! r = Some stop
    ∧ df_match df !! r = Some match_
    ∧ 1 ≤ motif ∧ score_mats !! Z.to_nat (motif - 1) = Some mat
    ∧ 1 ≤ sequence ∧ seq_vecs !! Z.to_nat (sequence - 1) = Some raw
    ∧ 1 ≤ start ∧ stop ≤ Z.of_nat (String.length raw)
    ∧ stop - start + 1 = Z.of_nat (length mat)
    ∧ match_ = substring (Z.to_nat (start - 1)) (length mat) raw
    ∧ String.length match_ = length mat.
Proof.
  unfold scan_sequences_cpp.
  destruct (mapM scale min_scores) as [min_scores2|]; [|done].
  destruct (mapM scale_matrix score_mats) as [score2_mats|] eqn:Hmats; [|done].
  destruct (too_short _ _); [done|].
  destruct (scan_sequences_cpp_internal _ _ _ _ _ _) as [w' out_pre] eqn:Hint.
  intros [= _ H].
  destruct out_pre as [out_pre|]; [|done]. simpl in H.
  destruct (format_results out_pre min_scores2 score2_mats) as [res|] eqn:Hres;
    [|done]. simpl in H.
  destruct (get_matches res seq_vecs score2_mats) as [matches| | |] eqn:Hget;
    try done. simpl in H. injection H as <-. simpl.
  intros Hr. apply list_lookup_fmap_Some in Hr as (h & -> & Hh).
  assert (h ∈ res) as Hin by (eapply list_elem_of_lookup_2; eauto).
  destruct (format_motifs_spec _ _ _ _ _ _ Hres Hin)
    as (i & vs & j & v & b & m2 & x & Hi & Hj & Hb & Hm2 & ->).
  simpl in Hm2.
  apply get_matches_spec in Hget.
  destruct (Forall2_lookup_l _ _ _ _ _ Hget Hh) as (mt & Hmt & Hgm).
  destruct (internal_score_vector _ _ _ _ _ _ _ _ _ _ _ _ Hint Hi Hj)
    as (na & m2' & s' & rawc & Hm2' & Hrawc & Hlen & Hscan).
  assert (m2' = m2) as -> by congruence.
  destruct (scan_variant_in_bounds _ _ _ _ _ b Hscan) as [Hb64 Hbounds];
    [by eapply lookup_lt_Some|].
  simpl in Hgm.
  destruct (get_match_Returned _ _ _ _ _ _ _ _ Hb64 Hgm)
    as (raw & m2'' & Hraw & Hm2'' & Hble & ->).
  assert (m2'' = m2) as -> by congruence.
  rewrite list_lookup_fmap, Hraw in Hrawc. injection Hrawc as <-.
  rewrite length_list_ascii_of_string in Hlen.
  apply mapM_Some_1 in Hmats.
  destruct (Forall2_lookup_r _ _ _ _ _ Hmats Hm2) as (mat & Hmat & Hscale).
  apply length_mapM in Hscale.
  assert (b + length m2 ≤ String.length raw)%nat as Hfit.
  { destruct m2 as [|row m2]; [simpl; lia|].
    specialize (Hbounds ltac:(done)). lia. }
  exists (Z.of_nat j + 1), (Z.of_nat b + 1),
         (Z.of_nat b + Z.of_nat (length m2)),
         (substring b (length m2) raw), mat, raw.
  rewrite !list_lookup_fmap, Hh. simpl.
  replace (Z.to_nat (Z.of_nat i + 1 - 1)) with i by lia.
  replace (Z.to_nat (Z.of_nat j + 1 - 1)) with j by lia.
  replace (Z.to_nat (Z.of_nat b + 1 - 1)) with b by lia.
  rewrite Hscale.
  split_and!; try done; try lia.
  by apply substring_length.
Qed.

Example scan_ACGTACGT :
  scan_sequences_cpp [ACGT_motif] ["ACGTACGT"%string] 1 "ACGT" [40%Q] 1 false true
  = ([], Returned ACGT_hits).
Proof. reflexivity. Qed.

(** The second scenario: the window over the unrecognized N is excluded. *)
Example scan_ACGNACGT :
  scan_sequences_cpp [ACGT_motif] ["ACGNACGT"%string] 1 "ACGT" [40%Q] 1 false true
  = ([NA_warning],
     Returned {| df_motif := [1]; df_motif_i := [1]; df_sequence := [1];
                 df_start := [5]; df_stop := [8];
                 df_score := [rescale 40000];
                 df_match := ["ACGT"%string] |}).
Proof. reflexivity. Qed.

(** Order 2 over the alphabet AC: a motif of two positions (rows of four
    composite symbols) on ACAC. The hit spans two raw letters, the number of
    motif positions, and the stream yields 4 - 2 + 1 - 2 + 1 = 2 windows. *)
Example scan_ACAC_order_2 :
  scan_sequences_cpp [[ [0; 10; 0; 0]; [0; 0; 10; 0] ]%Q] ["ACAC"%string] 2 "AC"
    [0%Q] 1 false true
  = ([],
     Returned {| df_motif := [1; 1]; df_motif_i := [1; 1];
                 df_sequence := [1; 1];
                 df_start := [1; 2]; df_stop := [2; 3];
                 df_score := [rescale 20000; rescale 0];
                 df_match := ["AC"%string; "CA"%string] |}).
Proof. reflexivity. Qed.

Lemma hit_spans_motif_width_witness :
  ∃ sequence start stop match_ mat raw,
    df_sequence ACGT_hits !! 1%nat = Some sequence
    ∧ df_start ACGT_hits !! 1%nat = Some start
    ∧ df_stop ACGT_hits !! 1%nat = Some stop
    ∧ df_match ACGT_hits !! 1%nat = Some match_
    ∧ 1 ≤ 1 ∧ [ACGT_motif] !! Z.to_nat (1 - 1) = Some mat
    ∧ 1 ≤ sequence ∧ ["ACGTACGT"%string] !! Z.to_nat (sequence - 1) = Some raw
    ∧ 1 ≤ start ∧ stop ≤ Z.of_nat (String.length raw)
    ∧ stop - start + 1 = Z.of_nat (length mat)
    ∧ match_ = substring (Z.to_nat (start - 1)) (length mat) raw
    ∧ String.length match_ = length mat.
Proof.
  apply (hit_spans_motif_width [ACGT_motif] ["ACGTACGT"%string] 1 "ACGT" [40%Q]
           1 false true [] ACGT_hits 1 1).
  - reflexivity.
  - reflexivity.
Defined.

(** ** Orders for which the length check is too weak *)

(** The scorer runs past the end of the stream as soon as its loop bound
    exceeds the number of windows. *)
Lemma scan_variant_overrun na motif sequence k :
  motif ≠ [] →
  (length sequence - length motif + 1 < scan_bound motif sequence k)%nat →
  scan_variant na motif sequence k = None.
Proof.
  intros Hne Hbound. rewrite scan_variant_unfold.
  apply mapM_None, Exists_exists.
  exists (length sequence - length motif + 1)%nat. split.
  - apply elem_of_seq. lia.
  - destruct (window_variant na motif sequence
                (length sequence - length motif + 1) 0) as [x|] eqn:Hx; [|done].
    exfalso. destruct na; simpl in Hx.
    + apply window_score_NA_in_bounds in Hx; [lia | done].
    + apply window_score_in_bounds in Hx; [lia | done].
Qed.

(** The recoder runs past the end of the stream as soon as its loop bound
    exceeds the length of the stream. *)
Lemma higher_k_loop_overrun sum n j s :
  (∀ s' j', (length s' ≤ j')%nat → sum s' j' = None) →
  (j ≤ length s < j + n)%nat →
  higher_k_loop sum n j s = None.
Proof.
  intros Hsum. revert j s. induction n as [|n IH]; intros j s Hj; [lia|].
  simpl. destruct (decide (j = length s)) as [->|Hne].
  - by rewrite Hsum.
  - destruct (sum s j) as [tmp|]; [|done]. simpl.
    rewrite decide_True by lia. apply IH. rewrite length_insert. lia.
Qed.

Lemma deal_with_higher_k_NA_overrun seq_ints k let_len s :
  s ∈ seq_ints →
  1 ≤ k →
  (length s < higher_k_bound s k)%nat →
  deal_with_higher_k_NA seq_ints k let_len = None.
Proof.
  intros Hs Hk Hbound. apply mapM_None, Exists_exists. exists s.
  split; [done|]. apply higher_k_loop_overrun; [|lia].
  intros s' j' Hj'. destruct (Z.to_nat k) as [|n] eqn:Hn; [lia|].
  simpl. rewrite Nat.add_0_r. by rewrite (lookup_ge_None_2 s' j').
Qed.

Lemma deal_with_higher_k_overrun seq_ints k let_len s :
  s ∈ seq_ints →
  1 ≤ k →
  (length s < higher_k_bound s k)%nat →
  deal_with_higher_k seq_ints k let_len = None.
Proof.
  intros Hs Hk Hbound. apply mapM_None, Exists_exists. exists s.
  split; [done|]. apply higher_k_loop_overrun; [|lia].
  intros s' j' Hj'. destruct (Z.to_nat k) as [|n] eqn:Hn; [lia|].
  simpl. rewrite Nat.add_0_r. by rewrite (lookup_ge_None_2 s' j').
Qed.

(** The entry point once its conversions and its length check have passed
    and the orchestrator has no defined result. *)
Lemma scan_sequences_cpp_undefined score_mats seq_vecs k alph min_scores
    nthreads allow_nonfinite warnNA min_scores2 score2_mats w :
  mapM scale min_scores = Some min_scores2 →
  mapM scale_matrix score_mats = Some score2_mats →
  too_short ((λ m : NumericMatrix, Z.of_nat (length m)) <$> score_mats)
            ((λ s, Z.of_nat (String.length s)) <$> seq_vecs) = false →
  scan_sequences_cpp_internal score2_mats (list_ascii_of_string <$> seq_vecs)
    k (list_ascii_of_string alph) nthreads warnNA = (w, None) →
  scan_sequences_cpp score_mats seq_vecs k alph min_scores nthreads
    allow_nonfinite warnNA = (w, Undefined).
Proof.
  intros Hmin Hmats Hshort Hint. unfold scan_sequences_cpp.
  by rewrite Hmin, Hmats, Hshort, Hint.
Qed.

(** The orchestrator on a batch with an unrecognized letter, for k > 1. *)
Lemma internal_sentinel_aware score_mats seq_vecs k alph nthreads warnNA :
  use_na_fun alph seq_vecs = true →
  1 < k →
  scan_sequences_cpp_internal score_mats seq_vecs k alph nthreads warnNA
  = (if warnNA then [NA_warning] else [],
     seq_ints' ← deal_with_higher_k_NA (encode_all alph seq_vecs).1 k
                   (Z.of_nat (length alph));
     mapM (λ m, mapM (λ s, scan_single_seq_NA m s k) seq_ints') score_mats).
Proof.
  intros Hna Hk. unfold scan_sequences_cpp_internal. rewrite Hna.
  apply Z.ltb_lt in Hk. rewrite Hk. by destruct warnNA.
Qed.

Lemma scorer_overruns_AAN :
  scan_single_seq_NA [[0]; [0]; [0]] [-1; 0; -1] 3 = None.
Proof.
  apply (scan_variant_overrun true); [done|].
  unfold scan_bound, size_t.
  change (length [-1; 0; -1]) with 3%nat.
  change (length [[0]; [0]; [0]]) with 3%nat.
  change (Z.of_nat 3 - 3 + 1 - Z.of_nat 3 + 1) with (-1).
  change (-1 mod 2 ^ 64) with 18446744073709551615. lia.
Qed.

Lemma recoder_overruns_N : deal_with_higher_k_NA [[-1]] 3 1 = None.
Proof.
  apply (deal_with_higher_k_NA_overrun _ _ _ [-1]); [left | lia |].
  unfold higher_k_bound, size_t.
  change (length [-1]) with 1%nat.
  change (Z.of_nat 1 - 3 + 1) with (-1).
  change (-1 mod 2 ^ 64) with 18446744073709551615. lia.
Qed.

(** C4. Two calls that pass the length check (3 >= 3 and 1 >= 1) and have
    no defined result. With the sequence AAN, a motif of three positions and
    k = 3, the sentinel-aware scorer's bound 3 - 3 + 1 - 3 + 1 wraps around
    and its second window reads [sequence[3]]. With the sequence N, a motif
    of one position and k = 3, the sentinel-aware recoder's bound 1 - 3 + 1
    wraps around and its second iteration reads [seq_ints[0][1]]. *)
Theorem scanning_overruns_short_sequences :
  too_short [3] [3] = false
  ∧ scan_sequences_cpp [AAA_motif] ["AAN"%string] 3 "A" [0%Q] 1 false true
    = ([NA_warning], Undefined)
  ∧ too_short [1] [1] = false
  ∧ scan_sequences_cpp [[[0%Q]]] ["N"%string] 3 "A" [0%Q] 1 false true
    = ([NA_warning], Undefined).
Proof.
  split_and!; [reflexivity | | reflexivity |].
  - apply (scan_sequences_cpp_undefined _ _ _ _ _ _ _ _ [0] [[[0]; [0]; [0]]]);
      [reflexivity | reflexivity | reflexivity |].
    rewrite internal_sentinel_aware by (reflexivity || lia).
    apply (f_equal2 pair); [reflexivity|].
    change (deal_with_higher_k_NA _ _ _) with (Some [[-1; 0; -1]]).
    apply mapM_None. left. apply mapM_None. left. exact scorer_overruns_AAN.
  - apply (scan_sequences_cpp_undefined _ _ _ _ _ _ _ _ [0] [[[0]]]);
      [reflexivity | reflexivity | reflexivity |].
    rewrite internal_sentinel_aware by (reflexivity || lia).
    apply (f_equal2 pair); [reflexivity|].
    change (deal_with_higher_k_NA _ _ _) with (deal_with_higher_k_NA [[-1]] 3 1).
    by rewrite recoder_overruns_N.
Qed.

(** ** What the entry point does not check *)

Lemma mapM_app {A B} (f : A → option B) (l1 l2 : list A) :
  mapM f (l1 ++ l2)
  = l1' ← mapM f l1; l2' ← mapM f l2; Some (l1' ++ l2').
Proof.
  induction l1 as [|x l1 IH]; simpl.
  - by destruct (mapM f l2).
  - destruct (f x) as [y|]; simpl; [|done]. rewrite IH.
    destruct (mapM f l1) as [l1'|]; simpl; [|done].
    by destruct (mapM f l2).
Qed.

Section SurplusThresholds.

Variables scores extra : vec_int_t.
Variable motifs : list_mat_t.

Lemma format_positions_surplus i j b v :
  (i < length scores)%nat →
  format_positions (scores ++ extra) motifs i j b v
  = format_positions scores motifs i j b v.
Proof.
  intros Hi. revert b. induction v as [|x v IH]; intros b; simpl; [done|].
  rewrite lookup_app_l by done.
  destruct (scores !! i) as [t|]; simpl; [|done].
  rewrite !IH. done.
Qed.

Lemma format_sequences_surplus i j vs :
  (i < length scores)%nat →
  format_sequences (scores ++ extra) motifs i j vs
  = format_sequences scores motifs i j vs.
Proof.
  intros Hi. revert j. induction vs as [|v vs IH]; intros j; simpl; [done|].
  by rewrite format_positions_surplus, IH.
Qed.

Lemma format_motifs_surplus i out_pre :
  (i + length out_pre ≤ length scores)%nat →
  format_motifs (scores ++ extra) motifs i out_pre
  = format_motifs scores motifs i out_pre.
Proof.
  revert i. induction out_pre as [|vs out IH]; intros i Hi; simpl; [done|].
  simpl in Hi. rewrite format_sequences_surplus by lia.
  rewrite IH by lia. done.
Qed.

End SurplusThresholds.

Lemma internal_out_pre_length score_mats seq_vecs k alph nthreads warnNA w out_pre :
  scan_sequences_cpp_internal score_mats seq_vecs k alph nthreads warnNA
  = (w, Some out_pre) →
  length out_pre = length score_mats.
Proof.
  unfold scan_sequences_cpp_internal. intros [= _ H].
  destruct (if (1 <? k) && _ then _ else _) as [seq_ints'|]; [|done].
  simpl in H. destruct (use_na_fun _ _); apply length_mapM in H; done.
Qed.

Lemma encode_seq_empty_alphabet s :
  encode_seq [] s = (replicate (length s) (-1), match s with [] => 0 | _ => 1 end).
Proof.
  induction s as [|c s IH]; simpl; [done|]. rewrite IH. done.
Qed.

(** C9, as stated, fails: with an empty alphabet, and two thresholds for one
    motif, the call returns a hit table. *)
Lemma contract_violations_are_not_fatal :
  ¬ (∀ (score_mats : list NumericMatrix) (seq_vecs : vec_str_t) (k : Z)
       (alph : string) (min_scores : vec_num_t) (nthreads : Z)
       (allow_nonfinite warnNA : bool),
       length score_mats ≠ length min_scores ∨ k ≤ 0 ∨ alph = EmptyString →
       ∃ w msg,
         scan_sequences_cpp score_mats seq_vecs k alph min_scores nthreads
           allow_nonfinite warnNA = (w, Stop msg)).
Proof.
  intros H.
  destruct (H [ACGT_motif] ["ACGT"%string] 1 EmptyString [-4000; 7]%Q 1 false true)
    as (w & msg & Hstop); [by right; right|].
  vm_compute in Hstop. discriminate.
Qed.

Example scan_with_empty_alphabet :
  scan_sequences_cpp [ACGT_motif] ["ACGT"%string] 1 EmptyString [-4000; 7]%Q 1 false true
  = ([NA_warning],
     Returned {| df_motif := [1]; df_motif_i := [1]; df_sequence := [1];
                 df_start := [1]; df_stop := [4];
                 df_score := [rescale (-3999996)];
                 df_match := ["ACGT"%string] |}).
Proof. reflexivity. Qed.

(** C9, amended. The entry point checks neither the number of thresholds,
    nor k, nor the alphabet. Its only fatal input error is the length check,
    raised before any warning; thresholds beyond the number of motifs are
    ignored; and with an empty alphabet every letter is encoded as the
    sentinel. *)
Theorem only_the_length_check_is_fatal (score_mats : list NumericMatrix)
    (seq_vecs : vec_str_t) (k : Z) (alph : string) (min_scores : vec_num_t)
    (nthreads : Z) (allow_nonfinite warnNA : bool) :
  (∀ w msg,
     scan_sequences_cpp score_mats seq_vecs k alph min_scores nthreads
       allow_nonfinite warnNA = (w, Stop msg) →
     w = [] ∧ msg = short_sequence_error
     ∧ ∃ m s, m ∈ score_mats ∧ s ∈ seq_vecs
              ∧ (String.length s < length m)%nat)
  ∧ (∀ extra,
       (length score_mats ≤ length min_scores)%nat →
       is_Some (mapM scale extra) →
       scan_sequences_cpp score_mats seq_vecs k alph (min_scores ++ extra)
         nthreads allow_nonfinite warnNA
       = scan_sequences_cpp score_mats seq_vecs k alph min_scores
           nthreads allow_nonfinite warnNA)
  ∧ (∀ raw, encode_seq (list_ascii_of_string EmptyString) raw
            = (replicate (length raw) (-1), match raw with [] => 0 | _ => 1 end)).
Proof.
  split_and!.
  - intros w msg H. by apply scan_sequences_cpp_Stop in H.
  - intros extra Hlen [extra2 Hextra]. unfold scan_sequences_cpp.
    rewrite mapM_app, Hextra.
    destruct (mapM scale min_scores) as [min_scores2|] eqn:Hmin; [|done].
    change (Some min_scores2 ≫= _) with (Some (min_scores2 ++ extra2)).
    cbv beta iota.
    apply length_mapM in Hmin.
    destruct (mapM scale_matrix score_mats) as [score2_mats|] eqn:Hmats; [|done].
    apply length_mapM in Hmats.
    destruct (too_short _ _); [done|].
    destruct (scan_sequences_cpp_internal _ _ _ _ _ _) as [w out_pre] eqn:Hint.
    destruct out_pre as [out_pre|]; [|done]. simpl.
    apply internal_out_pre_length in Hint.
    unfold format_results.
    rewrite format_motifs_surplus by lia. done.
  - intros raw. apply encode_seq_empty_alphabet.
Qed.

Lemma only_the_length_check_is_fatal_witness :
  scan_sequences_cpp [ACGT_motif] ["ACG"%string] 0 EmptyString ([40%Q] ++ [7%Q])
    1 false true = ([], Stop short_sequence_error)
  ∧ ∃ m s, m ∈ [ACGT_motif] ∧ s ∈ ["ACG"%string]
           ∧ (String.length s < length m)%nat.
Proof.
  destruct (only_the_length_check_is_fatal [ACGT_motif] ["ACG"%string] 0 EmptyString
              [40%Q] 1 false true) as (Hstop & Hsurplus & _).
  split.
  - rewrite Hsurplus; [reflexivity | simpl; lia | by eexists].
  - by apply (Hstop [] short_sequence_error).
Defined.

(** * Further properties *)

(** ** GC content of hits *)

Lemma letters_nonneg f hit : 0 ≤ letters f hit.
Proof. unfold letters. lia. Qed.

Lemma letters_cons f c hit :
  letters f (c :: hit) = (if f c then 1 else 0) + letters f hit.
Proof. unfold letters. simpl. destruct (f c); simpl; lia. Qed.

Lemma letters_le_length f hit : letters f hit ≤ Z.of_nat (length hit).
Proof.
  induction hit as [|c hit IH]; [done|].
  rewrite letters_cons. simpl length. destruct (f c); lia.
Qed.

Lemma is_GC_not_AT c : is_GC c = true → is_AT c = false.
Proof.
  unfold is_GC, is_AT. rewrite !orb_true_iff, !Ascii.eqb_eq.
  intros [[-> | ->] | ->]; reflexivity.
Qed.

Lemma letters_GC_AT_le_length hit :
  letters is_GC hit + letters is_AT hit ≤ Z.of_nat (length hit).
Proof.
  induction hit as [|c hit IH]; [done|].
  rewrite !letters_cons. simpl length.
  destruct (is_GC c) eqn:HGC; [rewrite (is_GC_not_AT c HGC); lia|].
  destruct (is_AT c); lia.
Qed.

Lemma count_GC_AT_spec hit GC AT :
  0 ≤ GC → 0 ≤ AT →
  GC + AT + Z.of_nat (length hit) ≤ INT_MAX →
  count_GC_AT hit GC AT
  = Some (GC + letters is_GC hit, AT + letters is_AT hit).
Proof.
  revert GC AT. induction hit as [|c hit IH]; intros GC AT HGC HAT Hfit.
  - simpl. unfold letters. simpl. f_equal. f_equal; lia.
  - simpl count_GC_AT. rewrite !letters_cons. simpl length in Hfit.
    destruct (is_GC c) eqn:Hc.
    + rewrite (is_GC_not_AT c Hc).
      rewrite to_int_in_range by (machine_consts; lia). simpl.
      rewrite IH by lia. f_equal. f_equal; lia.
    + destruct (is_AT c).
      * rewrite to_int_in_range by (machine_consts; lia). simpl.
        rewrite IH by lia. f_equal. f_equal; lia.
      * rewrite IH by lia. f_equal.
Qed.

Lemma count_GC_spec hit GC :
  0 ≤ GC →
  GC + Z.of_nat (length hit) ≤ INT_MAX →
  count_GC hit GC = Some (GC + letters is_GC hit).
Proof.
  revert GC. induction hit as [|c hit IH]; intros GC HGC Hfit.
  - simpl. unfold letters. simpl. f_equal. lia.
  - simpl count_GC. rewrite letters_cons. simpl length in Hfit.
    destruct (is_GC c).
    + rewrite to_int_in_range by (machine_consts; lia). simpl.
      rewrite IH by lia. f_equal. lia.
    + rewrite IH by lia. f_equal.
Qed.

(** The value computed for one hit. *)
Lemma calc_hit_gc_lookup hits ignoreN :
  Forall (λ hit, Z.of_nat (String.length hit) ≤ INT_MAX) hits →
  ∃ res,
    calc_hit_gc hits ignoreN = Some res
    ∧ Forall2 (λ hit x,
        x = double_div (letters is_GC (list_ascii_of_string hit))
              (if ignoreN
               then letters is_AT (list_ascii_of_string hit)
                    + letters is_GC (list_ascii_of_string hit)
               else Z.of_nat (String.length hit))) hits res.
Proof.
  intros Hlen. unfold calc_hit_gc. destruct ignoreN.
  - apply mapM_Forall2. eapply Forall_impl; [exact Hlen|].
    intros hit Hhit. simpl in Hhit.
    rewrite <- length_list_ascii_of_string in Hhit.
    pose proof (letters_GC_AT_le_length (list_ascii_of_string hit)) as Hle.
    pose proof (letters_nonneg is_GC (list_ascii_of_string hit)).
    pose proof (letters_nonneg is_AT (list_ascii_of_string hit)).
    rewrite count_GC_AT_spec by lia. simpl.
    rewrite to_int_in_range by (machine_consts; lia). simpl.
    eexists. split; [reflexivity|]. reflexivity.
  - apply mapM_Forall2. eapply Forall_impl; [exact Hlen|].
    intros hit Hhit. simpl in Hhit.
    rewrite <- length_list_ascii_of_string in Hhit.
    rewrite count_GC_spec by lia. simpl.
    eexists. split; [reflexivity|]. reflexivity.
Qed.

Lemma double_div_fraction n d :
  0 ≤ n ≤ d → 0 < d → is_fraction (double_div n d).
Proof.
  intros Hn Hd. unfold double_div.
  destruct (d =? 0) eqn:E; [lia|].
  destruct d as [|p|p]; [lia | | lia].
  unfold is_fraction, Qle, Qdiv, Qmult, Qinv, inject_Z. simpl. lia.
Qed.

Lemma double_div_antitone n d1 d2 :
  0 ≤ n → 0 < d2 ≤ d1 → double_le (double_div n d1) (double_div n d2).
Proof.
  intros Hn Hd. unfold double_div.
  destruct (d1 =? 0) eqn:E1; [lia|]. destruct (d2 =? 0) eqn:E2; [lia|].
  destruct d1 as [|p1|p1]; [lia | | lia].
  destruct d2 as [|p2|p2]; [lia | | lia].
  unfold double_le, Qle, Qdiv, Qmult, Qinv, inject_Z. simpl. nia.
Qed.

Lemma gc_denominator_bounds ignoreN hit :
  0 ≤ letters is_GC (list_ascii_of_string hit) ≤ gc_denominator ignoreN hit
  ∧ gc_denominator ignoreN hit ≤ Z.of_nat (String.length hit).
Proof.
  pose proof (letters_nonneg is_GC (list_ascii_of_string hit)).
  pose proof (letters_nonneg is_AT (list_ascii_of_string hit)).
  pose proof (letters_GC_AT_le_length (list_ascii_of_string hit)) as H1.
  pose proof (letters_le_length is_GC (list_ascii_of_string hit)) as H2.
  rewrite length_list_ascii_of_string in H1, H2.
  unfold gc_denominator. destruct ignoreN; lia.
Qed.

(** X1. For hits of fewer than 2^31 letters, [calc_hit_gc] returns one value
    per hit: NaN exactly when the denominator is zero (an empty hit, or, with
    [ignoreN], a hit with none of the letters S, C, G, W, A, U, T), and
    otherwise a ratio between 0 and 1. *)
Theorem gc_content_is_a_fraction (hits : vec_str_t) (ignoreN : bool) :
  Forall (λ hit, Z.of_nat (String.length hit) ≤ INT_MAX) hits →
  ∃ res,
    calc_hit_gc hits ignoreN = Some res
    ∧ length res = length hits
    ∧ ∀ i hit x,
        hits !! i = Some hit → res !! i = Some x →
        (gc_denominator ignoreN hit = 0 → x = NaN)
        ∧ (gc_denominator ignoreN hit ≠ 0 → is_fraction x).
Proof.
  intros Hlen.
  destruct (calc_hit_gc_lookup hits ignoreN Hlen) as (res & Hres & Hall).
  exists res. split; [done|].
  split; [symmetry; by eapply Forall2_length|].
  intros i hit x Hhit Hx.
  pose proof (Forall2_lookup_lr _ _ _ _ _ _ Hall Hhit Hx) as ->.
  fold (gc_denominator ignoreN hit).
  pose proof (gc_denominator_bounds ignoreN hit) as [Hn _].
  split.
  - intros Hd. unfold double_div. rewrite Hd. simpl.
    replace (letters is_GC (list_ascii_of_string hit)) with 0 by lia. done.
  - intros Hd. apply double_div_fraction; lia.
Qed.

Lemma gc_content_is_a_fraction_witness :
  ∃ res,
    calc_hit_gc ["ACGT"%string; "NNNN"%string] true = Some res
    ∧ length res = length ["ACGT"%string; "NNNN"%string]
    ∧ ∀ i hit x,
        ["ACGT"%string; "NNNN"%string] !! i = Some hit → res !! i = Some x →
        (gc_denominator true hit = 0 → x = NaN)
        ∧ (gc_denominator true hit ≠ 0 → is_fraction x).
Proof.
  apply gc_content_is_a_fraction.
  repeat constructor; unfold INT_MAX; simpl; lia.
Defined.

(** X2. Leaving the other letters out of the denominator never lowers the GC
    content: for every hit whose value with [ignoreN] is not NaN, the value
    without [ignoreN] is at most the value with it. *)
Theorem gc_content_ignoreN_dominates (hits : vec_str_t)
    (plain ignoring : list double) (i : nat) (x y : double) :
  Forall (λ hit, Z.of_nat (String.length hit) ≤ INT_MAX) hits →
  calc_hit_gc hits false = Some plain →
  calc_hit_gc hits true = Some ignoring →
  plain !! i = Some x → ignoring !! i = Some y →
  y ≠ NaN →
  double_le x y.
Proof.
  intros Hlen Hplain Hign Hx Hy Hnan.
  destruct (calc_hit_gc_lookup hits false Hlen) as (res1 & Hres1 & Hall1).
  destruct (calc_hit_gc_lookup hits true Hlen) as (res2 & Hres2 & Hall2).
  assert (res1 = plain) as -> by congruence.
  assert (res2 = ignoring) as -> by congruence.
  destruct (Forall2_lookup_r _ _ _ _ _ Hall1 Hx) as (hit & Hhit & ->).
  pose proof (Forall2_lookup_lr _ _ _ _ _ _ Hall2 Hhit Hy) as ->.
  pose proof (gc_denominator_bounds true hit) as [Hn Hd].
  unfold gc_denominator in Hn, Hd.
  set (GC := letters is_GC (list_ascii_of_string hit)) in *.
  set (AT := letters is_AT (list_ascii_of_string hit)) in *.
  assert (AT + GC ≠ 0) as Hne.
  { intros Hz. apply Hnan. unfold double_div. rewrite Hz. simpl.
    replace GC with 0 by lia. done. }
  apply double_div_antitone; lia.
Qed.

Lemma gc_content_ignoreN_dominates_witness :
  double_le (Finite (inject_Z 2 / inject_Z 6)) (Finite (inject_Z 2 / inject_Z 4)).
Proof.
  apply (gc_content_ignoreN_dominates ["ACNGTN"%string]
           [Finite (inject_Z 2 / inject_Z 6)]
           [Finite (inject_Z 2 / inject_Z 4)] 0).
  - repeat constructor; unfold INT_MAX; simpl; lia.
  - reflexivity.
  - reflexivity.
  - reflexivity.
  - reflexivity.
  - discriminate.
Defined.

(** ** Coordinates of antisense hits *)

(** The loop exchanges, in the clones, exactly the entries whose flag is set,
    and reads only the original columns. *)
Lemma switch_loop_spec to_switch i col_start col_stop sn pn :
  (i + length to_switch ≤ length col_start)%nat →
  length col_stop = length col_start →
  length sn = length col_start →
  length pn = length col_start →
  ∃ sn' pn',
    switch_loop to_switch i col_start col_stop sn pn = Some (sn', pn')
    ∧ length sn' = length col_start ∧ length pn' = length col_start
    ∧ ∀ j,
        (sn' !! j = if decide (i ≤ j)%nat
                    then match to_switch !! (j - i)%nat with
                         | Some true => col_stop !! j
                         | _ => sn !! j
                         end
                    else sn !! j)
        ∧ (pn' !! j = if decide (i ≤ j)%nat
                      then match to_switch !! (j - i)%nat with
                           | Some true => col_start !! j
                           | _ => pn !! j
                           end
                      else pn !! j).
Proof.
  revert i sn pn.
  induction to_switch as [|flag flags IH]; intros i sn pn Hi Hstop Hsn Hpn.
  - exists sn, pn. simpl. split_and!; [done | done | done |].
    intros j. rewrite ?lookup_nil. by case_decide.
  - simpl in Hi. simpl switch_loop. destruct flag.
    + destruct (lookup_lt_is_Some_2 col_stop i) as [b Hb]; [lia|].
      destruct (lookup_lt_is_Some_2 col_start i) as [a Ha]; [lia|].
      rewrite Hb, Ha. simpl. rewrite decide_True by lia.
      destruct (IH (S i) (<[i := b]> sn) (<[i := a]> pn))
        as (sn' & pn' & Hloop & Hl1 & Hl2 & Hj);
        [lia | done | by rewrite length_insert | by rewrite length_insert |].
      exists sn', pn'. split_and!; [done | done | done |].
      intros j. destruct (Hj j) as [Hs Hp]. rewrite Hs, Hp.
      destruct (decide (i = j)) as [<-|Hne].
      * repeat case_decide; try lia.
        rewrite Nat.sub_diag. simpl.
        rewrite !list_lookup_insert_eq by lia. by rewrite Hb, Ha.
      * rewrite !list_lookup_insert_ne by done.
        repeat case_decide; try lia; [|done].
        replace (j - i)%nat with (S (j - S i)) by lia. done.
    + destruct (IH (S i) sn pn) as (sn' & pn' & Hloop & Hl1 & Hl2 & Hj);
        [lia | done | done | done |].
      exists sn', pn'. split_and!; [done | done | done |].
      intros j. destruct (Hj j) as [Hs Hp]. rewrite Hs, Hp.
      destruct (decide (i = j)) as [<-|Hne].
      * repeat case_decide; try lia. by rewrite Nat.sub_diag.
      * repeat case_decide; try lia; [|done].
        replace (j - i)%nat with (S (j - S i)) by lia. done.
Qed.

(** The table after the exchange, row by row. *)
Lemma switch_antisense_rows (res : coords) :
  length (start res) = length (strand res) →
  length (stop res) = length (strand res) →
  ∃ out,
    switch_antisense_coords_cpp res = Some out
    ∧ strand out = strand res
    ∧ length (start out) = length (strand res)
    ∧ length (stop out) = length (strand res)
    ∧ ∀ j s,
        strand res !! j = Some s →
        start out !! j = (if String.eqb s "-" then stop res else start res) !! j
        ∧ stop out !! j = (if String.eqb s "-" then start res else stop res) !! j.
Proof.
  intros Hstart Hstop. unfold switch_antisense_coords_cpp.
  destruct (switch_loop_spec ((λ s, String.eqb s "-") <$> strand res) 0
              (start res) (stop res) (start res) (stop res))
    as (sn' & pn' & Hloop & Hl1 & Hl2 & Hj);
    [rewrite length_fmap; lia | lia | done | lia |].
  rewrite Hloop. simpl. eexists. split; [reflexivity|]. simpl.
  split_and!; [done | lia | lia |].
  intros j s Hs. destruct (Hj j) as [H1 H2]. rewrite H1, H2.
  rewrite decide_True by lia. rewrite Nat.sub_0_r, list_lookup_fmap, Hs. simpl.
  by destruct (String.eqb s "-").
Qed.

(** X3. On a table whose three columns have the same length,
    [switch_antisense_coords_cpp] returns a table of the same length with the
    same strands, in which the rows of strand "-" have start and stop
    exchanged and every other row is unchanged. *)
Theorem antisense_rows_are_exchanged (res : coords) :
  length (start res) = length (strand res) →
  length (stop res) = length (strand res) →
  ∃ out,
    switch_antisense_coords_cpp res = Some out
    ∧ strand out = strand res
    ∧ length (start out) = length (strand res)
    ∧ length (stop out) = length (strand res)
    ∧ ∀ j s a b,
        strand res !! j = Some s →
        start res !! j = Some a → stop res !! j = Some b →
        (s = "-"%string → start out !! j = Some b ∧ stop out !! j = Some a)
        ∧ (s ≠ "-"%string → start out !! j = Some a ∧ stop out !! j = Some b).
Proof.
  intros Hstart Hstop.
  destruct (switch_antisense_rows res Hstart Hstop)
    as (out & Hout & Hstrand & Hl1 & Hl2 & Hrows).
  exists out. split_and!; [done | done | done | done |].
  intros j s a b Hs Ha Hb. destruct (Hrows j s Hs) as [H1 H2].
  split.
  - intros ->. simpl in H1, H2. by rewrite H1, H2.
  - intros Hne. apply String.eqb_neq in Hne. rewrite Hne in H1, H2.
    by rewrite H1, H2.
Qed.

Lemma antisense_rows_are_exchanged_witness :
  ∃ out,
    switch_antisense_coords_cpp
      (Coords ["+"%string; "-"%string] [1; 5] [4; 8]) = Some out
    ∧ strand out = ["+"%string; "-"%string]
    ∧ length (start out) = 2%nat
    ∧ length (stop out) = 2%nat
    ∧ ∀ j s a b,
        ["+"%string; "-"%string] !! j = Some s →
        [1; 5] !! j = Some a → [4; 8] !! j = Some b →
        (s = "-"%string → start out !! j = Some b ∧ stop out !! j = Some a)
        ∧ (s ≠ "-"%string → start out !! j = Some a ∧ stop out !! j = Some b).
Proof.
  apply (antisense_rows_are_exchanged
           (Coords ["+"%string; "-"%string] [1; 5] [4; 8])); reflexivity.
Defined.

(** X4. Exchanging twice restores the table: on a table whose three columns
    have the same length, [switch_antisense_coords_cpp] is its own inverse. *)
Theorem antisense_exchange_is_an_involution (res out : coords) :
  length (start res) = length (strand res) →
  length (stop res) = length (strand res) →
  switch_antisense_coords_cpp res = Some out →
  switch_antisense_coords_cpp out = Some res.
Proof.
  intros Hstart Hstop Hout.
  destruct (switch_antisense_rows res Hstart Hstop)
    as (out' & Hout' & Hstrand & Hl1 & Hl2 & Hrows).
  assert (out' = out) as -> by congruence.
  destruct (switch_antisense_rows out) as (back & Hback & Hs2 & Hl3 & Hl4 & Hrows2);
    [congruence | congruence |].
  rewrite Hback. f_equal.
  destruct res as [st a b], back as [st' a' b']. simpl in *.
  assert (st' = st) as -> by congruence.
  rewrite Hstrand in Hl3, Hl4.
  f_equal; apply list_eq; intros j.
  - destruct (st !! j) as [s|] eqn:Hs.
    + destruct (Hrows2 j s) as [H1 _]; [by rewrite Hstrand|].
      destruct (Hrows j s Hs) as [H3 H4]. rewrite H1.
      destruct (String.eqb s "-"); done.
    + apply lookup_ge_None in Hs.
      rewrite (lookup_ge_None_2 a') by lia. by rewrite (lookup_ge_None_2 a) by lia.
  - destruct (st !! j) as [s|] eqn:Hs.
    + destruct (Hrows2 j s) as [_ H2]; [by rewrite Hstrand|].
      destruct (Hrows j s Hs) as [H3 H4]. rewrite H2.
      destruct (String.eqb s "-"); done.
    + apply lookup_ge_None in Hs.
      rewrite (lookup_ge_None_2 b') by lia. by rewrite (lookup_ge_None_2 b) by lia.
Qed.

Lemma antisense_exchange_is_an_involution_witness :
  switch_antisense_coords_cpp (Coords ["+"%string; "-"%string] [1; 8] [4; 5])
  = Some (Coords ["+"%string; "-"%string] [1; 5] [4; 8]).
Proof.
  apply (antisense_exchange_is_an_involution
           (Coords ["+"%string; "-"%string] [1; 5] [4; 8])); reflexivity.
Defined.

(** ** Gap markers *)

Lemma replace_dot_inside s pos :
  (pos < length s)%nat → replace_dot s pos = Returned (<[pos := "."%char]> s).
Proof.
  intros H. unfold replace_dot. rewrite decide_True by lia.
  rewrite Nat.add_1_r. by rewrite <- insert_take_drop.
Qed.

Lemma replace_dot_at_end s :
  replace_dot s (length s) = Returned (s ++ ["."%char]).
Proof.
  unfold replace_dot. rewrite decide_True by lia.
  rewrite take_ge by lia. rewrite drop_ge by lia. done.
Qed.

Lemma replace_dot_beyond s pos :
  (length s < pos)%nat → replace_dot s pos = OutOfRange.
Proof. intros H. unfold replace_dot. by rewrite decide_False by lia. Qed.

Lemma dotted_length s locs : length (dotted s locs) = length s.
Proof. unfold dotted. apply length_imap. Qed.

Lemma dotted_lookup s locs p :
  dotted s locs !! p
  = (λ c, if bool_decide (Z.of_nat p + 1 ∈ locs) then "."%char else c) <$> s !! p.
Proof. unfold dotted. apply list_lookup_imap. Qed.

Lemma dotted_nil s : dotted s [] = s.
Proof.
  apply list_eq. intros p. rewrite dotted_lookup.
  rewrite bool_decide_eq_false_2 by apply not_elem_of_nil.
  by destruct (s !! p).
Qed.

Lemma dotted_cons s loc locs :
  1 ≤ loc →
  dotted (<[Z.to_nat (loc - 1) := "."%char]> s) locs = dotted s (loc :: locs).
Proof.
  intros Hloc. apply list_eq. intros p. rewrite !dotted_lookup.
  destruct (decide (p = Z.to_nat (loc - 1))) as [->|Hne].
  - destruct (s !! Z.to_nat (loc - 1)) as [c|] eqn:Hc.
    + rewrite list_lookup_insert_eq by (by eapply lookup_lt_Some). simpl.
      replace (Z.of_nat (Z.to_nat (loc - 1)) + 1) with loc by lia.
      rewrite (bool_decide_eq_true_2 (loc ∈ loc :: locs)) by left.
      by destruct (bool_decide _).
    + rewrite list_insert_ge by (by apply lookup_ge_None). by rewrite Hc.
  - rewrite list_lookup_insert_ne by done.
    destruct (s !! p) as [c|]; simpl; [|done]. f_equal.
    destruct (bool_decide (Z.of_nat p + 1 ∈ locs)) eqn:Hd.
    + apply bool_decide_eq_true in Hd.
      rewrite bool_decide_eq_true_2; [done | by right].
    + apply bool_decide_eq_false in Hd.
      rewrite bool_decide_eq_false_2; [done|].
      intros Hin. apply elem_of_cons in Hin as [Heq | Hin]; [lia | done].
Qed.

Lemma int_pred_defined a : INT_MIN < a → int_pred a = Some (a - 1).
Proof. intros H. unfold int_pred. by rewrite (proj2 (Z.leb_gt a INT_MIN)). Qed.

Lemma replace_gap_chars_in_range s locs :
  Z.of_nat (length s) < 2 ^ 63 →
  Forall (λ loc, 1 ≤ loc ≤ Z.of_nat (length s)) locs →
  replace_gap_chars s locs = Returned (dotted s locs).
Proof.
  intros Hlen Hlocs. revert s Hlen Hlocs.
  induction locs as [|loc locs IH]; intros s Hlen Hlocs.
  - simpl. by rewrite dotted_nil.
  - apply Forall_cons in Hlocs as [Hloc Hlocs]. simpl.
    rewrite int_pred_defined by (unfold INT_MIN; lia). simpl.
    rewrite size_t_small by (machine_consts; lia).
    rewrite replace_dot_inside by lia. simpl.
    rewrite IH.
    + by rewrite dotted_cons by lia.
    + by rewrite length_insert.
    + by rewrite length_insert.
Qed.

(** X5. One step of [replace_gap_chars], for a position that is an [int]:
    at [INT_MIN] the subtraction [gaplocs[i] - 1] overflows and nothing is
    defined; otherwise a position inside the string overwrites that letter
    with a dot; the position one past the end appends a dot, so the string
    grows; position 0, a negative position and any position further past the
    end throw [std::out_of_range]. *)
Theorem gap_position_cases (s : vec_char_t) (loc : Z) (locs : vec_int_t) :
  INT_MIN ≤ loc ≤ INT_MAX →
  Z.of_nat (length s) < 2 ^ 63 →
  replace_gap_chars s (loc :: locs)
  = if decide (loc = INT_MIN) then Undefined
    else if decide (1 ≤ loc ≤ Z.of_nat (length s))
    then replace_gap_chars (<[Z.to_nat (loc - 1) := "."%char]> s) locs
    else if decide (loc = Z.of_nat (length s) + 1)
         then replace_gap_chars (s ++ ["."%char]) locs
         else OutOfRange.
Proof.
  intros Hint Hlen. simpl.
  destruct (decide (loc = INT_MIN)) as [->|Hmin]; [done|].
  rewrite int_pred_defined by lia. simpl.
  destruct (decide (1 ≤ loc ≤ Z.of_nat (length s))) as [Hin|Hout].
  - rewrite size_t_small by (machine_consts; lia).
    by rewrite replace_dot_inside by lia.
  - destruct (decide (loc = Z.of_nat (length s) + 1)) as [->|Hne].
    + rewrite size_t_small by (machine_consts; lia).
      replace (Z.to_nat (Z.of_nat (length s) + 1 - 1)) with (length s) by lia.
      by rewrite replace_dot_at_end.
    + rewrite replace_dot_beyond; [done|].
      destruct (decide (1 ≤ loc)) as [Hpos|Hneg].
      * rewrite size_t_small by (machine_consts; lia). lia.
      * unfold size_t.
        assert ((loc - 1) mod 2 ^ 64 = loc - 1 + 2 ^ 64) as ->.
        { symmetry. apply (Z.mod_unique _ _ (-1)); machine_consts; lia. }
        machine_consts. lia.
Qed.

Lemma gap_position_cases_witness :
  replace_gap_chars (list_ascii_of_string "AC") [3; 0]
  = if decide (3 = INT_MIN) then Undefined
    else if decide (1 ≤ 3 ≤ Z.of_nat (length (list_ascii_of_string "AC")))
    then replace_gap_chars
           (<[Z.to_nat (3 - 1) := "."%char]> (list_ascii_of_string "AC")) [0]
    else if decide (3 = Z.of_nat (length (list_ascii_of_string "AC")) + 1)
         then replace_gap_chars (list_ascii_of_string "AC" ++ ["."%char]) [0]
         else OutOfRange.
Proof.
  apply gap_position_cases.
  - unfold INT_MIN, INT_MAX. simpl. lia.
  - simpl. lia.
Defined.

(** At [INT_MIN], the missing value of an R integer vector, nothing is
    defined. *)
Example gap_position_NA :
  replace_gap_chars (list_ascii_of_string "AC") [INT_MIN] = Undefined.
Proof. reflexivity. Qed.

Lemma add_gap_dots_loop_in_range (seqs : list vec_char_t) gaplocs i :
  (i + length seqs ≤ length gaplocs)%nat →
  (∀ j s locs,
     seqs !! j = Some s → gaplocs !! (i + j)%nat = Some locs →
     Z.of_nat (length s) < 2 ^ 63
     ∧ Forall (λ loc, 1 ≤ loc ≤ Z.of_nat (length s)) locs) →
  add_gap_dots_loop seqs gaplocs i
  = Returned (zip_with dotted seqs (drop i gaplocs)).
Proof.
  revert i. induction seqs as [|s seqs IH]; intros i Hlen Hin; [done|].
  simpl in Hlen. simpl add_gap_dots_loop.
  destruct (lookup_lt_is_Some_2 gaplocs i) as [locs Hlocs]; [lia|].
  rewrite Hlocs, (drop_S _ _ _ Hlocs). simpl.
  destruct (Hin 0%nat s locs) as [Hs Hl]; [done | by rewrite Nat.add_0_r|].
  rewrite IH; [| lia |].
  - destruct (0 <? Z.of_nat (length locs)) eqn:Hne.
    + by rewrite replace_gap_chars_in_range.
    + apply Z.ltb_ge in Hne. destruct locs; [|simpl length in Hne; lia].
      simpl. by rewrite dotted_nil.
  - intros j s' locs' Hs' Hl'. apply (Hin (S j)); [done|].
    by rewrite Nat.add_succ_r.
Qed.

Lemma add_gap_dots_in_range seqs gaplocs :
  gaps_in_range seqs gaplocs →
  add_gap_dots_cpp seqs gaplocs = Returned (zip_with with_dots seqs gaplocs).
Proof.
  intros [Hlen Hin]. unfold add_gap_dots_cpp.
  rewrite add_gap_dots_loop_in_range.
  - f_equal. rewrite zip_with_fmap_l. unfold with_dots.
    apply list_eq. intros i.
    rewrite list_lookup_fmap, !lookup_zip_with.
    rewrite drop_0.
    destruct (seqs !! i); simpl; [|done]. by destruct (gaplocs !! i).
  - rewrite length_fmap. lia.
  - intros j s locs Hs Hl. rewrite list_lookup_fmap in Hs.
    destruct (seqs !! j) as [s0|] eqn:Hs0; [|done]. injection Hs as <-.
    rewrite length_list_ascii_of_string. by apply (Hin j).
Qed.

Lemma with_dots_length s locs :
  String.length (with_dots s locs) = String.length s.
Proof.
  unfold with_dots.
  rewrite <- length_list_ascii_of_string, list_ascii_of_string_of_list_ascii.
  by rewrite dotted_length, length_list_ascii_of_string.
Qed.

Lemma dotted_idempotent s locs : dotted (dotted s locs) locs = dotted s locs.
Proof.
  apply list_eq. intros p. rewrite !dotted_lookup.
  destruct (s !! p) as [c|]; simpl; [|done].
  by destruct (bool_decide _).
Qed.

(** X6. When every sequence has its list of gap positions and every position
    lies inside its sequence, [add_gap_dots_cpp] returns as many sequences,
    each of the same length as before, with a dot at exactly the listed
    positions and the other letters unchanged. *)
Theorem gap_dots_mark_the_positions (seqs : vec_str_t) (gaplocs : list_int_t) :
  gaps_in_range seqs gaplocs →
  ∃ out,
    add_gap_dots_cpp seqs gaplocs = Returned out
    ∧ length out = length seqs
    ∧ ∀ i s locs o,
        seqs !! i = Some s → gaplocs !! i = Some locs → out !! i = Some o →
        String.length o = String.length s
        ∧ ∀ p c,
            list_ascii_of_string s !! p = Some c →
            list_ascii_of_string o !! p
            = Some (if bool_decide (Z.of_nat p + 1 ∈ locs) then "."%char else c).
Proof.
  intros Hin. exists (zip_with with_dots seqs gaplocs).
  split; [by apply add_gap_dots_in_range|].
  split; [apply length_zip_with_l, Hin|].
  intros i s locs o Hs Hl Ho.
  rewrite lookup_zip_with, Hs, Hl in Ho. simpl in Ho. injection Ho as <-.
  split; [apply with_dots_length|].
  intros p c Hc. unfold with_dots.
  rewrite list_ascii_of_string_of_list_ascii, dotted_lookup, Hc. done.
Qed.

Lemma gap_dots_mark_the_positions_witness :
  ∃ out,
    add_gap_dots_cpp ["ACGT"%string; "AC"%string] [[2; 4]; []; [7]] = Returned out
    ∧ length out = length ["ACGT"%string; "AC"%string]
    ∧ ∀ i s locs o,
        ["ACGT"%string; "AC"%string] !! i = Some s →
        [[2; 4]; []; [7]] !! i = Some locs → out !! i = Some o →
        String.length o = String.length s
        ∧ ∀ p c,
            list_ascii_of_string s !! p = Some c →
            list_ascii_of_string o !! p
            = Some (if bool_decide (Z.of_nat p + 1 ∈ locs) then "."%char else c).
Proof.
  apply gap_dots_mark_the_positions. split; [simpl; lia|].
  intros [|[|i]] s locs Hs Hl; simpl in Hs, Hl; try done;
    injection Hs as <-; injection Hl as <-; simpl;
    (split; [lia | repeat constructor; lia]).
Defined.

(** X7. Marking the gaps a second time changes nothing: under the same
    condition, [add_gap_dots_cpp] applied to its own result with the same
    positions returns that result. *)
Theorem gap_dots_are_idempotent (seqs out : vec_str_t) (gaplocs : list_int_t) :
  gaps_in_range seqs gaplocs →
  add_gap_dots_cpp seqs gaplocs = Returned out →
  add_gap_dots_cpp out gaplocs = Returned out.
Proof.
  intros Hin Hout. rewrite (add_gap_dots_in_range _ _ Hin) in Hout.
  injection Hout as <-. destruct Hin as [Hlen Hin].
  rewrite add_gap_dots_in_range.
  - f_equal. apply list_eq. intros i. rewrite !lookup_zip_with.
    destruct (seqs !! i) as [s|]; simpl; [|done].
    destruct (gaplocs !! i) as [locs|]; simpl; [|done].
    f_equal. unfold with_dots.
    by rewrite list_ascii_of_string_of_list_ascii, dotted_idempotent.
  - split; [by rewrite length_zip_with_l|].
    intros i o locs Ho Hl.
    rewrite lookup_zip_with, Hl in Ho.
    destruct (seqs !! i) as [s|] eqn:Hs; [|done]. simpl in Ho.
    injection Ho as <-. rewrite with_dots_length. by apply (Hin i).
Qed.

Lemma gap_dots_are_idempotent_witness :
  add_gap_dots_cpp ["A.G."%string; "AC"%string] [[2; 4]; []; [7]]
  = Returned ["A.G."%string; "AC"%string].
Proof.
  apply (gap_dots_are_idempotent ["ACGT"%string; "AC"%string]);
    [|reflexivity].
  split; [simpl; lia|].
  intros [|[|i]] s locs Hs Hl; simpl in Hs, Hl; try done;
    injection Hs as <-; injection Hl as <-; simpl;
    (split; [lia | repeat constructor; lia]).
Defined.

(** ** The alphabet encoder *)

Lemma alph_index_Some alph c a0 a :
  alph_index alph c a0 = Some a →
  (a0 ≤ a)%nat
  ∧ alph !! (a - a0)%nat = Some c
  ∧ ∀ b, (b < a - a0)%nat → alph !! b ≠ Some c.
Proof.
  revert a0. induction alph as [|x alph IH]; intros a0 H; [done|].
  simpl in H. destruct (Ascii.eqb c x) eqn:Hcx.
  - injection H as <-. apply Ascii.eqb_eq in Hcx as ->.
    rewrite Nat.sub_diag. split_and!; [lia | done | intros; lia].
  - destruct (IH _ H) as (Hle & Hlook & Hfirst).
    apply Ascii.eqb_neq in Hcx.
    split_and!; [lia | |].
    + replace (a - a0)%nat with (S (a - S a0)) by lia. done.
    + intros [|b] Hb; simpl; [congruence|]. apply Hfirst. lia.
Qed.

Lemma encode_seq_lookup alph s i :
  (encode_seq alph s).1 !! i
  = (λ c, match alph_index alph c 0 with
          | Some a => Z.of_nat a
          | None => -1
          end) <$> s !! i.
Proof.
  revert i. induction s as [|c s IH]; intros i; [done|].
  simpl. destruct (encode_seq alph s) as [ints na]. simpl in IH.
  destruct (alph_index alph c 0) eqn:Ha; destruct i; simpl; rewrite ?Ha;
    try done; apply IH.
Qed.

(** X8. The encoder is exact: the encoded stream has the length of the
    sequence, and at every position it holds either -1, for a letter that
    does not occur in the alphabet, or the index of the first occurrence of
    the letter in the alphabet. *)
Theorem encoding_is_the_first_index (alph s : vec_char_t) :
  length (encode_seq alph s).1 = length s
  ∧ ∀ i c,
      s !! i = Some c →
      ∃ x,
        (encode_seq alph s).1 !! i = Some x
        ∧ ((x = -1 ∧ c ∉ alph)
           ∨ (0 ≤ x < Z.of_nat (length alph)
              ∧ alph !! Z.to_nat x = Some c
              ∧ ∀ a, (a < Z.to_nat x)%nat → alph !! a ≠ Some c)).
Proof.
  split; [apply encode_seq_length|].
  intros i c Hc. rewrite encode_seq_lookup, Hc. simpl.
  destruct (alph_index alph c 0) as [a|] eqn:Ha.
  - exists (Z.of_nat a). split; [done|]. right.
    destruct (alph_index_Some _ _ _ _ Ha) as (_ & Hlook & Hfirst).
    rewrite Nat.sub_0_r in Hlook, Hfirst. rewrite Nat2Z.id.
    apply lookup_lt_Some in Hlook as Hlt. split_and!; [lia | lia | done | done].
  - exists (-1). split; [done|]. left. split; [done|].
    by apply outside_alphabet_true, (alph_index_None alph c 0).
Qed.

Lemma encode_seq_clean alph s :
  existsb (outside_alphabet alph) s = false →
  Forall (λ x, 0 ≤ x < Z.of_nat (length alph)) (encode_seq alph s).1.
Proof.
  intros Hclean. apply Forall_lookup. intros i x Hx.
  rewrite encode_seq_lookup in Hx.
  destruct (s !! i) as [c|] eqn:Hc; [|done]. simpl in Hx. injection Hx as <-.
  destruct (alph_index alph c 0) as [a|] eqn:Ha.
  - destruct (alph_index_Some _ _ _ _ Ha) as (_ & Hlook & _).
    apply lookup_lt_Some in Hlook. lia.
  - apply (alph_index_None alph c 0) in Ha.
    assert (existsb (outside_alphabet alph) s = true) as Hex; [|congruence].
    apply existsb_exists. exists c. split; [|done].
    apply list_elem_of_In. by eapply list_elem_of_lookup_2.
Qed.

Lemma encode_seq_encoded alph s :
  encoded (Z.of_nat (length alph)) (encode_seq alph s).1.
Proof.
  apply Forall_lookup. intros i x Hx. rewrite encode_seq_lookup in Hx.
  destruct (s !! i) as [c|] eqn:Hc; [|done]. simpl in Hx. injection Hx as <-.
  destruct (alph_index alph c 0) as [a|] eqn:Ha; [|lia].
  destruct (alph_index_Some _ _ _ _ Ha) as (_ & Hlook & _).
  apply lookup_lt_Some in Hlook. lia.
Qed.

(** X9. The strict variants never meet a sentinel: whenever the orchestrator
    selects them ([use_na_fun] is false), every symbol of every encoded
    stream is an index into the alphabet. *)
Theorem strict_path_has_no_sentinel (alph : vec_char_t) (seq_vecs : list_char_t)
    (stream : vec_int_t) :
  use_na_fun alph seq_vecs = false →
  stream ∈ (encode_all alph seq_vecs).1 →
  Forall (λ x, 0 ≤ x < Z.of_nat (length alph)) stream.
Proof.
  rewrite use_na_fun_spec. unfold any_unrecognized, encode_all. simpl.
  intros Hna Hin.
  apply list_elem_of_fmap in Hin as ([ints na] & -> & Hin).
  apply list_elem_of_fmap in Hin as (s & Heq & Hs).
  replace ints with (encode_seq alph s).1 by (by rewrite <- Heq).
  apply encode_seq_clean.
  destruct (existsb (outside_alphabet alph) s) eqn:Hex; [|done].
  assert (existsb (existsb (outside_alphabet alph)) seq_vecs = true) as Hall;
    [|congruence].
  apply existsb_exists. exists s. split; [by apply list_elem_of_In | done].
Qed.

Lemma strict_path_has_no_sentinel_witness :
  Forall (λ x, 0 ≤ x < Z.of_nat (length (list_ascii_of_string "ACGT")))
         [2; 0; 3].
Proof.
  apply (strict_path_has_no_sentinel (list_ascii_of_string "ACGT")
           [list_ascii_of_string "GAT"; list_ascii_of_string "CC"]).
  - reflexivity.
  - left.
Defined.

(** ** Composite symbols *)

Lemma composite_value_range A w :
  Forall (λ x, 0 ≤ x < A) w →
  0 ≤ composite_value A w < A ^ Z.of_nat (length w).
Proof.
  induction 1 as [|x w Hx Hw IH]; [simpl; lia|].
  rewrite composite_value_cons. simpl length.
  replace (Z.of_nat (S (length w))) with (Z.succ (Z.of_nat (length w))) by lia.
  rewrite Z.pow_succ_r by lia.
  assert (0 ≤ x * A ^ Z.of_nat (length w)) by (apply Z.mul_nonneg_nonneg; lia).
  assert (x * A ^ Z.of_nat (length w) ≤ (A - 1) * A ^ Z.of_nat (length w))
    by (apply Z.mul_le_mono_nonneg_r; lia).
  lia.
Qed.

Lemma composite_value_injective A w1 w2 :
  length w1 = length w2 →
  Forall (λ x, 0 ≤ x < A) w1 →
  Forall (λ x, 0 ≤ x < A) w2 →
  composite_value A w1 = composite_value A w2 →
  w1 = w2.
Proof.
  revert w2. induction w1 as [|x1 w1 IH]; intros [|x2 w2] Hlen H1 H2 Heq;
    try done.
  apply Forall_cons in H1 as [Hx1 H1]. apply Forall_cons in H2 as [Hx2 H2].
  simpl in Hlen. injection Hlen as Hlen.
  rewrite !composite_value_cons, Hlen in Heq.
  pose proof (composite_value_range A w1 H1) as Hr1.
  pose proof (composite_value_range A w2 H2) as Hr2.
  rewrite Hlen in Hr1.
  set (P := A ^ Z.of_nat (length w2)) in *.
  set (c1 := composite_value A w1) in *.
  set (c2 := composite_value A w2) in *.
  assert (x1 = x2) as -> by nia.
  f_equal. apply IH; [done | done | done | lia].
Qed.

Lemma deal_with_higher_k_stream seq_ints k let_len out n s r :
  deal_with_higher_k seq_ints k let_len = Some out →
  seq_ints !! n = Some s → out !! n = Some r →
  higher_k_loop (λ s' j, higher_k_sum k let_len s' j (Z.to_nat k) 0 0)
    (higher_k_bound s k) 0 s = Some r.
Proof.
  intros H Hs Hr. apply mapM_Some_1 in H.
  exact (Forall2_lookup_lr _ _ _ _ _ _ H Hs Hr).
Qed.

Lemma deal_with_higher_k_NA_stream seq_ints k let_len out n s r :
  deal_with_higher_k_NA seq_ints k let_len = Some out →
  seq_ints !! n = Some s → out !! n = Some r →
  higher_k_loop (λ s' j, higher_k_sum_NA k let_len s' j (Z.to_nat k) 0 0)
    (higher_k_bound s k) 0 s = Some r.
Proof.
  intros H Hs Hr. apply mapM_Some_1 in H.
  exact (Forall2_lookup_lr _ _ _ _ _ _ H Hs Hr).
Qed.

Lemma clean_window s i k A :
  Forall (λ x, 0 ≤ x < A) s → Forall (λ x, 0 ≤ x < A) (k_window s i k).
Proof.
  rewrite !Forall_forall. intros H x Hx. apply H.
  by apply (k_window_subseteq s i k).
Qed.

(** X10. On sentinel-free streams the strict recoder is a faithful radix
    code: the value written at the start of a k-window lies in
    [0, |alphabet|^k), and two window starts of a stream hold the same value
    exactly when their k-windows are the same word. *)
Theorem recoded_symbols_identify_kmers (seq_ints out : list_int_t)
    (k let_len : Z) (n : nat) (s r : vec_int_t) (i j : nat) (x y : Z) :
  1 < k ≤ INT_MAX →
  let_len ^ k ≤ 2 ^ 31 →
  k - 1 ≤ Z.of_nat (length s) < 2 ^ 63 →
  Forall (λ x, 0 ≤ x < let_len) s →
  deal_with_higher_k seq_ints k let_len = Some out →
  seq_ints !! n = Some s → out !! n = Some r →
  (i + Z.to_nat k ≤ length s)%nat → (j + Z.to_nat k ≤ length s)%nat →
  r !! i = Some x → r !! j = Some y →
  0 ≤ x < let_len ^ k
  ∧ (x = y ↔ k_window s i (Z.to_nat k) = k_window s j (Z.to_nat k)).
Proof.
  intros Hk Hfit Hlen Hclean Hout Hs Hr Hi Hj Hx Hy.
  assert (0 ≤ let_len) as HA.
  { destruct s as [|x0 s']; [simpl in Hi; lia|].
    apply Forall_cons in Hclean as [Hx0 _]. lia. }
  assert (encoded let_len s) as Henc
    by (eapply Forall_impl; [exact Hclean | simpl; intros; lia]).
  destruct (recode_stream k let_len Hk HA Hfit s Hlen Henc false)
    as (r' & Hr' & _ & Hin & _).
  rewrite (deal_with_higher_k_stream _ _ _ _ _ _ _ Hout Hs Hr) in Hr'.
  injection Hr' as <-.
  rewrite (Hin i Hi) in Hx. rewrite (Hin j Hj) in Hy. simpl in Hx, Hy.
  injection Hx as <-. injection Hy as <-.
  pose proof (clean_window s i (Z.to_nat k) let_len Hclean) as Hwi.
  pose proof (clean_window s j (Z.to_nat k) let_len Hclean) as Hwj.
  split.
  - pose proof (composite_value_range _ _ Hwi) as Hrange.
    rewrite k_window_length in Hrange by done.
    by rewrite Z2Nat.id in Hrange by lia.
  - split; [|by intros ->].
    apply composite_value_injective; [|done|done].
    by rewrite !k_window_length.
Qed.

Lemma recoded_symbols_identify_kmers_witness :
  0 ≤ 1 < 2 ^ 2
  ∧ (1 = 1 ↔ k_window [0; 1; 0; 1; 1] 0 (Z.to_nat 2)
             = k_window [0; 1; 0; 1; 1] 2 (Z.to_nat 2)).
Proof.
  apply (recoded_symbols_identify_kmers [[0; 1; 0; 1; 1]] [[1; 2; 1; 3; 1]]
           2 2 0 [0; 1; 0; 1; 1] [1; 2; 1; 3; 1] 0 2 1 1).
  - unfold INT_MAX. simpl. lia.
  - simpl. lia.
  - simpl. lia.
  - repeat constructor; lia.
  - reflexivity.
  - reflexivity.
  - reflexivity.
  - simpl. lia.
  - simpl. lia.
  - reflexivity.
  - reflexivity.
Defined.

(** ** Window scores *)

Lemma window_sum_cons entry row rows x w :
  window_sum entry (row :: rows) (x :: w)
  = entry row x + window_sum entry rows w.
Proof. reflexivity. Qed.

Lemma window_score_sum rows sequence p tmp v :
  window_score rows sequence p tmp = Some v →
  INT_MIN ≤ tmp ≤ INT_MAX →
  v = tmp + window_sum strict_entry rows (k_window sequence p (length rows))
  ∧ INT_MIN ≤ v ≤ INT_MAX
  ∧ ∀ j row, rows !! j = Some row →
      ∃ y, sequence !! (p + j)%nat = Some y ∧ 0 ≤ y < Z.of_nat (length row).
Proof.
  revert p tmp. induction rows as [|row rows IH]; intros p tmp H Htmp.
  - simpl in H. injection H as <-. unfold k_window, window_sum. simpl.
    split_and!; [lia | lia | lia | done].
  - simpl in H. destruct (sequence !! p) as [x|] eqn:Hx; [|done]. simpl in H.
    destruct (at_int row x) as [e|] eqn:He; [|done]. simpl in H.
    destruct (to_int (tmp + e)) as [tmp'|] eqn:Ht; [|done]. simpl in H.
    apply to_int_Some in Ht as [-> Hrange].
    destruct (IH _ _ H Hrange) as (Hv & Hvr & Hsym).
    simpl length. rewrite (k_window_cons _ _ _ _ Hx), window_sum_cons.
    unfold strict_entry at 1. rewrite He. simpl.
    split_and!; [lia | lia | lia |].
    intros [|j] row' Hrow; simpl in Hrow.
    + injection Hrow as <-. exists x. rewrite Nat.add_0_r. split; [done|].
      unfold at_int in He. destruct (x <? 0) eqn:Hneg; [done|].
      apply lookup_lt_Some in He. lia.
    + destruct (Hsym j row' Hrow) as (y & Hy & Hyr). exists y.
      split; [|done]. by rewrite Nat.add_succ_r.
Qed.

Lemma window_score_NA_sum rows sequence p tmp v :
  window_score_NA rows sequence p tmp = Some v →
  INT_MIN ≤ tmp ≤ INT_MAX →
  v = tmp + window_sum aware_entry rows (k_window sequence p (length rows))
  ∧ INT_MIN ≤ v ≤ INT_MAX
  ∧ ∀ j row, rows !! j = Some row →
      ∃ y, sequence !! (p + j)%nat = Some y ∧ y < Z.of_nat (length row).
Proof.
  revert p tmp. induction rows as [|row rows IH]; intros p tmp H Htmp.
  - simpl in H. injection H as <-. unfold k_window, window_sum. simpl.
    split_and!; [lia | lia | lia | done].
  - simpl in H. destruct (sequence !! p) as [x|] eqn:Hx; [|done]. simpl in H.
    destruct (if x <? 0 then to_int (tmp + -999999)
              else at_int row x ≫= λ e, to_int (tmp + e)) as [tmp'|] eqn:Ht;
      [|done]. simpl in H.
    assert (tmp' = tmp + aware_entry row x ∧ INT_MIN ≤ tmp' ≤ INT_MAX
            ∧ x < Z.of_nat (length row)) as (-> & Hrange & Hxr).
    { unfold aware_entry. destruct (x <? 0) eqn:Hneg.
      - apply to_int_Some in Ht as [-> Hr]. split_and!; [done | lia | lia | lia].
      - destruct (at_int row x) as [e|] eqn:He; [|done]. simpl in Ht.
        apply to_int_Some in Ht as [-> Hr]. simpl.
        split_and!; [done | lia | lia |].
        rewrite at_int_nonneg in He by lia.
        apply lookup_lt_Some in He. lia. }
    destruct (IH _ _ H Hrange) as (Hv & Hvr & Hsym).
    simpl length. rewrite (k_window_cons _ _ _ _ Hx), window_sum_cons.
    split_and!; [lia | lia | lia |].
    intros [|j] row' Hrow; simpl in Hrow.
    + injection Hrow as <-. exists x. rewrite Nat.add_0_r. done.
    + destruct (Hsym j row' Hrow) as (y & Hy & Hyr). exists y.
      split; [|done]. by rewrite Nat.add_succ_r.
Qed.

(** X11. Every score that a scorer returns is exact: it is the sum, over the
    motif positions p, of the entry of row p at the symbol [sequence[i+p]]
    (the penalty -999999 at a negative symbol, for the sentinel-aware
    scorer); it is an [int]; and every symbol read was below the length of
    its row, and non-negative for the strict scorer. *)
Theorem scores_are_exact_sums (na : bool) (motif : list_int_t)
    (sequence v : vec_int_t) (k : Z) (i : nat) (x : Z) :
  scan_variant na motif sequence k = Some v →
  v !! i = Some x →
  x = window_sum (if na then aware_entry else strict_entry) motif
        (k_window sequence i (length motif))
  ∧ INT_MIN ≤ x ≤ INT_MAX
  ∧ ∀ p row, motif !! p = Some row →
      ∃ y, sequence !! (i + p)%nat = Some y
           ∧ y < Z.of_nat (length row) ∧ (na = false → 0 ≤ y).
Proof.
  rewrite scan_variant_unfold. intros Hv Hx.
  destruct (mapM_seq_lookup _ _ _ Hv) as [Hlen Hlook].
  rewrite Hlook in Hx by (apply lookup_lt_Some in Hx; lia).
  destruct na; simpl in Hx.
  - destruct (window_score_NA_sum _ _ _ _ _ Hx) as (-> & Hr & Hsym);
      [machine_consts; lia|].
    split_and!; [lia | lia | lia |].
    intros p row Hrow. destruct (Hsym p row Hrow) as (y & Hy & Hyr).
    exists y. split_and!; [done | done | done].
  - destruct (window_score_sum _ _ _ _ _ Hx) as (-> & Hr & Hsym);
      [machine_consts; lia|].
    split_and!; [lia | lia | lia |].
    intros p row Hrow. destruct (Hsym p row Hrow) as (y & Hy & Hyr).
    exists y. split_and!; [done | lia | lia].
Qed.

Lemma scores_are_exact_sums_witness :
  20 = window_sum aware_entry [[0; 10; 0; 0]; [0; 0; 10; 0]]
         (k_window [1; 2; -1; 1] 0 (length [[0; 10; 0; 0]; [0; 0; 10; 0]]))
  ∧ INT_MIN ≤ 20 ≤ INT_MAX
  ∧ ∀ p row, [[0; 10; 0; 0]; [0; 0; 10; 0]] !! p = Some row →
      ∃ y, [1; 2; -1; 1] !! (0 + p)%nat = Some y
           ∧ y < Z.of_nat (length row) ∧ (true = false → 0 ≤ y).
Proof.
  apply (scores_are_exact_sums true [[0; 10; 0; 0]; [0; 0; 10; 0]]
           [1; 2; -1; 1] [20; -999999; -999999] 1 0 20); reflexivity.
Defined.

Lemma window_score_NA_upper rows sequence p tmp v B :
  window_score_NA rows sequence p tmp = Some v →
  Forall (Forall (λ e, e ≤ B)) rows →
  -999999 ≤ B →
  v ≤ tmp + Z.of_nat (length rows) * B
  ∧ ((∃ j y, (j < length rows)%nat ∧ sequence !! (p + j)%nat = Some y ∧ y < 0) →
     v ≤ tmp + (Z.of_nat (length rows) - 1) * B - 999999).
Proof.
  intros H Hrows HB. revert p tmp H.
  induction Hrows as [|row rows Hrow Hrows IH]; intros p tmp H.
  - simpl in H. injection H as <-. simpl. split; [lia|].
    intros (j & y & Hj & _). lia.
  - simpl in H. destruct (sequence !! p) as [x|] eqn:Hx; [|done]. simpl in H.
    destruct (if x <? 0 then to_int (tmp + -999999)
              else at_int row x ≫= λ e, to_int (tmp + e)) as [tmp'|] eqn:Ht;
      [|done]. simpl in H.
    destruct (IH _ _ H) as [Hall Hsent]. simpl length.
    destruct (x <? 0) eqn:Hneg.
    + apply to_int_Some in Ht as [-> _]. split; lia.
    + destruct (at_int row x) as [e|] eqn:He; [|done]. simpl in Ht.
      apply to_int_Some in Ht as [-> _].
      assert (e ≤ B) as HeB.
      { rewrite at_int_nonneg in He by lia.
        apply (proj1 (Forall_forall (λ e, e ≤ B) _) Hrow e).
        by eapply list_elem_of_lookup_2. }
      split; [lia|].
      intros (j & y & Hj & Hy & Hyneg). destruct j as [|j].
      * rewrite Nat.add_0_r in Hy. simplify_eq. lia.
      * assert (v ≤ tmp + e + (Z.of_nat (length rows) - 1) * B - 999999);
          [|lia].
        apply Hsent. exists j, y. split_and!; [simpl in Hj; lia | | done].
        by rewrite Nat.add_succ_r in Hy.
Qed.

(** X12. A window over an unrecognized letter scores low: when every entry
    of the motif is at most B (with B >= -999999), the sentinel-aware score
    of a window that contains a negative symbol is at most
    (W - 1) * B - 999999, for W the number of motif positions. *)
Theorem sentinel_windows_score_low (motif : list_int_t) (sequence v : vec_int_t)
    (k B : Z) (i p : nat) (x y : Z) :
  scan_single_seq_NA motif sequence k = Some v →
  v !! i = Some x →
  Forall (Forall (λ e, e ≤ B)) motif →
  -999999 ≤ B →
  (p < length motif)%nat → sequence !! (i + p)%nat = Some y → y < 0 →
  x ≤ (Z.of_nat (length motif) - 1) * B - 999999.
Proof.
  intros Hv Hx Hrows HB Hp Hy Hneg.
  change (scan_single_seq_NA motif sequence k)
    with (scan_variant true motif sequence k) in Hv.
  rewrite scan_variant_unfold in Hv.
  destruct (mapM_seq_lookup _ _ _ Hv) as [Hlen Hlook].
  rewrite Hlook in Hx by (apply lookup_lt_Some in Hx; lia). simpl in Hx.
  destruct (window_score_NA_upper _ _ _ _ _ B Hx Hrows HB) as [_ Hsent].
  rewrite Z.add_0_l in Hsent. apply Hsent. by exists p, y.
Qed.

Lemma sentinel_windows_score_low_witness :
  -999999 ≤ (Z.of_nat (length [[0; 10; 0; 0]; [0; 0; 10; 0]]) - 1) * 10 - 999999.
Proof.
  apply (sentinel_windows_score_low [[0; 10; 0; 0]; [0; 0; 10; 0]]
           [1; 2; -1; 1] [20; -999999; -999999] 1 10 1 1 (-999999) (-1)).
  - reflexivity.
  - reflexivity.
  - repeat constructor; lia.
  - lia.
  - simpl. lia.
  - reflexivity.
  - lia.
Defined.

(** ** The hit table *)

Lemma format_positions_complete scores motifs i j b0 v hs b x t m :
  format_positions scores motifs i j b0 v = Some hs →
  v !! b = Some x → scores !! i = Some t → motifs !! i = Some m → t ≤ x →
  Hit (Z.of_nat i + 1) (Z.of_nat j + 1) (Z.of_nat (b0 + b) + 1)
      (Z.of_nat (b0 + b) + Z.of_nat (length m)) x ∈ hs.
Proof.
  intros H Hb Ht Hm Htx. revert b0 hs b H Hb.
  induction v as [|y v IH]; intros b0 hs b H Hb; [done|].
  simpl in H. rewrite Ht in H. simpl in H. unfold meets_threshold in H.
  destruct b as [|b]; simpl in Hb.
  - injection Hb as ->. rewrite (proj2 (Z.leb_le t x) Htx), Hm in H.
    simpl in H.
    destruct (format_positions scores motifs i j (S b0) v); [|done].
    injection H as <-. rewrite Nat.add_0_r. left.
  - replace (b0 + S b)%nat with (S b0 + b)%nat by lia.
    destruct (t <=? y).
    + rewrite Hm in H. simpl in H.
      destruct (format_positions scores motifs i j (S b0) v) as [rest|] eqn:Hr;
        [|done].
      injection H as <-. right. by apply (IH (S b0)).
    + by apply (IH (S b0)).
Qed.

Lemma format_positions_threshold scores motifs i j b0 v hs h :
  format_positions scores motifs i j b0 v = Some hs →
  h ∈ hs →
  ∃ t, scores !! i = Some t ∧ t ≤ hit_score h.
Proof.
  revert b0 hs. induction v as [|y v IH]; intros b0 hs H Hh; simpl in H.
  - injection H as <-. inversion Hh.
  - destruct (scores !! i) as [t|] eqn:Ht; [|done]. simpl in H.
    unfold meets_threshold in H. destruct (t <=? y) eqn:Hty.
    + destruct (motifs !! i) as [m|]; [|done]. simpl in H.
      destruct (format_positions scores motifs i j (S b0) v) as [rest|] eqn:Hr;
        [|done].
      injection H as <-. apply elem_of_cons in Hh as [-> | Hh].
      * exists t. split; [done|]. simpl. lia.
      * by apply (IH (S b0) rest).
    + by apply (IH (S b0) hs).
Qed.

Lemma format_sequences_complete scores motifs i j0 vs hs j v b x t m :
  format_sequences scores motifs i j0 vs = Some hs →
  vs !! j = Some v → v !! b = Some x →
  scores !! i = Some t → motifs !! i = Some m → t ≤ x →
  Hit (Z.of_nat i + 1) (Z.of_nat (j0 + j) + 1) (Z.of_nat b + 1)
      (Z.of_nat b + Z.of_nat (length m)) x ∈ hs.
Proof.
  intros H Hj Hb Ht Hm Htx. revert j0 hs j H Hj.
  induction vs as [|v0 vs IH]; intros j0 hs j H Hj; [done|].
  simpl in H.
  destruct (format_positions scores motifs i j0 0 v0) as [here|] eqn:Hhere;
    [|done]. simpl in H.
  destruct (format_sequences scores motifs i (S j0) vs) as [rest|] eqn:Hrest;
    [|done]. simpl in H. injection H as <-.
  apply elem_of_app. destruct j as [|j]; simpl in Hj.
  - injection Hj as ->. left. rewrite Nat.add_0_r.
    by apply (format_positions_complete _ _ _ _ 0 v _ b x t m Hhere).
  - right. replace (j0 + S j)%nat with (S j0 + j)%nat by lia.
    by apply (IH (S j0)).
Qed.

Lemma format_sequences_threshold scores motifs i j0 vs hs h :
  format_sequences scores motifs i j0 vs = Some hs →
  h ∈ hs →
  ∃ t, scores !! i = Some t ∧ t ≤ hit_score h.
Proof.
  revert j0 hs. induction vs as [|v vs IH]; intros j0 hs H Hh; simpl in H.
  - injection H as <-. inversion Hh.
  - destruct (format_positions scores motifs i j0 0 v) as [here|] eqn:Hhere;
      [|done]. simpl in H.
    destruct (format_sequences scores motifs i (S j0) vs) as [rest|] eqn:Hrest;
      [|done]. simpl in H. injection H as <-.
    apply elem_of_app in Hh as [Hh | Hh].
    + by eapply format_positions_threshold.
    + by eapply IH.
Qed.

Lemma format_motifs_complete scores motifs i0 out_pre hs i vs j v b x t m :
  format_motifs scores motifs i0 out_pre = Some hs →
  out_pre !! i = Some vs → vs !! j = Some v → v !! b = Some x →
  scores !! (i0 + i)%nat = Some t → motifs !! (i0 + i)%nat = Some m → t ≤ x →
  Hit (Z.of_nat (i0 + i) + 1) (Z.of_nat j + 1) (Z.of_nat b + 1)
      (Z.of_nat b + Z.of_nat (length m)) x ∈ hs.
Proof.
  intros H Hi Hj Hb Ht Hm Htx. revert i0 hs i H Hi Ht Hm.
  induction out_pre as [|vs0 out IH]; intros i0 hs i H Hi Ht Hm; [done|].
  simpl in H.
  destruct (format_sequences scores motifs i0 0 vs0) as [here|] eqn:Hhere;
    [|done]. simpl in H.
  destruct (format_motifs scores motifs (S i0) out) as [rest|] eqn:Hrest;
    [|done]. simpl in H. injection H as <-.
  apply elem_of_app. destruct i as [|i]; simpl in Hi.
  - injection Hi as ->. left. rewrite Nat.add_0_r in *.
    by apply (format_sequences_complete _ _ _ 0 vs _ j v b x t m Hhere).
  - right. replace (i0 + S i)%nat with (S i0 + i)%nat in * by lia.
    by apply (IH (S i0)).
Qed.

Lemma format_motifs_threshold scores motifs i0 out_pre hs h :
  format_motifs scores motifs i0 out_pre = Some hs →
  h ∈ hs →
  ∃ t, scores !! Z.to_nat (hit_motif h - 1) = Some t ∧ t ≤ hit_score h.
Proof.
  revert i0 hs. induction out_pre as [|vs out IH]; intros i0 hs H Hh;
    simpl in H.
  - injection H as <-. inversion Hh.
  - destruct (format_sequences scores motifs i0 0 vs) as [here|] eqn:Hhere;
      [|done]. simpl in H.
    destruct (format_motifs scores motifs (S i0) out) as [rest|] eqn:Hrest;
      [|done]. simpl in H. injection H as <-.
    apply elem_of_app in Hh as [Hh | Hh].
    + destruct (format_sequences_threshold _ _ _ _ _ _ _ Hhere Hh)
        as (t & Ht & Hle).
      destruct (format_sequences_spec _ _ _ _ _ _ _ Hhere Hh)
        as (j & v & b & m & x & _ & _ & _ & ->).
      exists t. simpl in *.
      replace (Z.to_nat (Z.of_nat i0 + 1 - 1)) with i0 by lia. done.
    + by eapply IH.
Qed.

(** X13. The hits are exactly the positions whose score meets the threshold
    of their motif: whenever [format_results] returns, a row is in its result
    if and only if it reports, with 1-based motif, sequence and start and
    with stop = offset + width, a position (motif i, sequence j, offset b)
    with [out_pre[i][j][b] >= scores[i]]. *)
Theorem hits_are_the_positions_meeting_the_threshold
    (out_pre : list (list vec_int_t)) (scores : vec_int_t) (motifs : list_mat_t)
    (hs : list hit) (h : hit) :
  format_results out_pre scores motifs = Some hs →
  (h ∈ hs ↔ reports out_pre scores motifs h).
Proof.
  unfold format_results. intros H. split.
  - intros Hh.
    destruct (format_motifs_spec _ _ _ _ _ _ H Hh)
      as (i & vs & j & v & b & m & x & Hi & Hj & Hb & Hm & ->).
    destruct (format_motifs_threshold _ _ _ _ _ _ H Hh) as (t & Ht & Hle).
    simpl in *.
    replace (Z.to_nat (Z.of_nat i + 1 - 1)) with i in Ht by lia.
    by exists i, j, b, vs, v, x, t, m.
  - intros (i & j & b & vs & v & x & t & m & Hi & Hj & Hb & Ht & Hm & Htx & ->).
    by apply (format_motifs_complete _ _ 0 _ _ i vs j v b x t m H).
Qed.

Lemma hits_are_the_positions_meeting_the_threshold_witness :
  Hit 1 1 2 3 7 ∈ [Hit 1 1 2 3 7]
  ↔ reports [[[5; 7]]] [6] [[[0]; [0]]] (Hit 1 1 2 3 7).
Proof.
  apply (hits_are_the_positions_meeting_the_threshold [[[5; 7]]] [6]
           [[[0]; [0]]] [Hit 1 1 2 3 7]).
  reflexivity.
Defined.

(** ** Order of the rows *)

Lemma format_positions_sorted scores motifs i j b0 v hs :
  format_positions scores motifs i j b0 v = Some hs →
  StronglySorted hit_before hs
  ∧ Forall (λ h, hit_motif h = Z.of_nat i + 1
                 ∧ hit_sequence h = Z.of_nat j + 1
                 ∧ Z.of_nat b0 + 1 ≤ hit_start h) hs.
Proof.
  revert b0 hs. induction v as [|y v IH]; intros b0 hs H; simpl in H.
  - injection H as <-. split; constructor.
  - destruct (scores !! i) as [t|]; [|done]. simpl in H.
    destruct (meets_threshold y t).
    + destruct (motifs !! i) as [m|]; [|done]. simpl in H.
      destruct (format_positions scores motifs i j (S b0) v) as [rest|] eqn:Hr;
        [|done].
      injection H as <-. destruct (IH _ _ Hr) as [Hs Hf].
      split.
      * apply StronglySorted_cons. split; [|done].
        eapply Forall_impl; [exact Hf|]. intros h (Hm & Hq & Hb).
        right. split; [simpl; lia|]. right. simpl. lia.
      * constructor; [simpl; lia|].
        eapply Forall_impl; [exact Hf|]. simpl. intros h (? & ? & ?). lia.
    + destruct (IH _ _ H) as [Hs Hf]. split; [done|].
      eapply Forall_impl; [exact Hf|]. simpl. intros h (? & ? & ?). lia.
Qed.

Lemma format_sequences_sorted scores motifs i j0 vs hs :
  format_sequences scores motifs i j0 vs = Some hs →
  StronglySorted hit_before hs
  ∧ Forall (λ h, hit_motif h = Z.of_nat i + 1
                 ∧ Z.of_nat j0 + 1 ≤ hit_sequence h) hs.
Proof.
  revert j0 hs. induction vs as [|v vs IH]; intros j0 hs H; simpl in H.
  - injection H as <-. split; constructor.
  - destruct (format_positions scores motifs i j0 0 v) as [here|] eqn:Hhere;
      [|done]. simpl in H.
    destruct (format_sequences scores motifs i (S j0) vs) as [rest|] eqn:Hrest;
      [|done]. simpl in H. injection H as <-.
    destruct (format_positions_sorted _ _ _ _ _ _ _ Hhere) as [Hs1 Hf1].
    destruct (IH _ _ Hrest) as [Hs2 Hf2].
    split.
    + apply StronglySorted_app_2; [|done|done].
      intros h1 h2 Hh1 Hh2.
      apply (proj1 (Forall_forall _ _) Hf1) in Hh1 as (Hm1 & Hq1 & _).
      apply (proj1 (Forall_forall _ _) Hf2) in Hh2 as (Hm2 & Hq2).
      right. split; [lia|]. left. lia.
    + apply Forall_app. split.
      * eapply Forall_impl; [exact Hf1|]. simpl. intros h (? & ? & ?). lia.
      * eapply Forall_impl; [exact Hf2|]. simpl. intros h (? & ?). lia.
Qed.

Lemma format_motifs_sorted scores motifs i0 out_pre hs :
  format_motifs scores motifs i0 out_pre = Some hs →
  StronglySorted hit_before hs
  ∧ Forall (λ h, Z.of_nat i0 + 1 ≤ hit_motif h) hs.
Proof.
  revert i0 hs. induction out_pre as [|vs out IH]; intros i0 hs H; simpl in H.
  - injection H as <-. split; constructor.
  - destruct (format_sequences scores motifs i0 0 vs) as [here|] eqn:Hhere;
      [|done]. simpl in H.
    destruct (format_motifs scores motifs (S i0) out) as [rest|] eqn:Hrest;
      [|done]. simpl in H. injection H as <-.
    destruct (format_sequences_sorted _ _ _ _ _ _ Hhere) as [Hs1 Hf1].
    destruct (IH _ _ Hrest) as [Hs2 Hf2].
    split.
    + apply StronglySorted_app_2; [|done|done].
      intros h1 h2 Hh1 Hh2.
      apply (proj1 (Forall_forall _ _) Hf1) in Hh1 as (Hm1 & _).
      apply (proj1 (Forall_forall _ _) Hf2) in Hh2.
      left. lia.
    + apply Forall_app. split.
      * eapply Forall_impl; [exact Hf1|]. simpl. intros h (? & ?). lia.
      * eapply Forall_impl; [exact Hf2|]. simpl. intros h ?. lia.
Qed.

Lemma StronglySorted_lookup_lt {A} (R : relation A) (l : list A) i j x y :
  StronglySorted R l →
  l !! i = Some x → l !! j = Some y → (i < j)%nat → R x y.
Proof.
  intros Hs. revert i j. induction Hs as [|a l Hs IH Hf]; intros i j Hi Hj Hij.
  - done.
  - destruct j as [|j]; [lia|]. simpl in Hj. destruct i as [|i]; simpl in Hi.
    + injection Hi as ->.
      apply (proj1 (Forall_forall _ _) Hf).
      by eapply list_elem_of_lookup_2.
    + apply (IH i j); [done | done | lia].
Qed.

(** The parts of a call of the entry point that returns a table. *)
Lemma scan_sequences_cpp_Returned score_mats seq_vecs k alph min_scores nthreads
    allow_nonfinite warnNA w df :
  scan_sequences_cpp score_mats seq_vecs k alph min_scores nthreads
    allow_nonfinite warnNA = (w, Returned df) →
  ∃ min_scores2 score2_mats out_pre res matches,
    mapM scale min_scores = Some min_scores2
    ∧ mapM scale_matrix score_mats = Some score2_mats
    ∧ scan_sequences_cpp_internal score2_mats (list_ascii_of_string <$> seq_vecs)
        k (list_ascii_of_string alph) nthreads warnNA = (w, Some out_pre)
    ∧ format_results out_pre min_scores2 score2_mats = Some res
    ∧ get_matches res seq_vecs score2_mats = Returned matches
    ∧ df = {| df_motif := hit_motif <$> res;
              df_motif_i := hit_motif <$> res;
              df_sequence := hit_sequence <$> res;
              df_start := hit_start <$> res;
              df_stop := hit_stop <$> res;
              df_score := (λ h, rescale (hit_score h)) <$> res;
              df_match := matches |}.
Proof.
  unfold scan_sequences_cpp.
  destruct (mapM scale min_scores) as [min_scores2|]; [|done].
  destruct (mapM scale_matrix score_mats) as [score2_mats|]; [|done].
  destruct (too_short _ _); [done|].
  destruct (scan_sequences_cpp_internal _ _ _ _ _ _) as [w' out_pre] eqn:Hint.
  intros [= -> H].
  destruct out_pre as [out_pre|]; [|done]. simpl in H.
  destruct (format_results out_pre min_scores2 score2_mats) as [res|] eqn:Hres;
    [|done]. simpl in H.
  destruct (get_matches res seq_vecs score2_mats) as [matches| | |] eqn:Hget;
    try done. simpl in H. injection H as <-.
  by exists min_scores2, score2_mats, out_pre, res, matches.
Qed.

(** X14. The rows of a returned table are strictly increasing in the order
    motif, then sequence, then start: for rows r1 < r2, either the motif of
    r1 is smaller, or the motifs agree and the sequence of r1 is smaller, or
    both agree and the start of r1 is smaller. In particular no position is
    reported twice. *)
Theorem rows_are_strictly_ordered (score_mats : list NumericMatrix)
    (seq_vecs : vec_str_t) (k : Z) (alph : string) (min_scores : vec_num_t)
    (nthreads : Z) (allow_nonfinite warnNA : bool) (w : list string)
    (df : DataFrame) (r1 r2 : nat) (m1 m2 s1 s2 b1 b2 : Z) :
  scan_sequences_cpp score_mats seq_vecs k alph min_scores nthreads
    allow_nonfinite warnNA = (w, Returned df) →
  (r1 < r2)%nat →
  df_motif df !! r1 = Some m1 → df_sequence df !! r1 = Some s1 →
  df_start df !! r1 = Some b1 →
  df_motif df !! r2 = Some m2 → df_sequence df !! r2 = Some s2 →
  df_start df !! r2 = Some b2 →
  m1 < m2 ∨ (m1 = m2 ∧ (s1 < s2 ∨ (s1 = s2 ∧ b1 < b2))).
Proof.
  intros H Hr Hm1 Hs1 Hb1 Hm2 Hs2 Hb2.
  apply scan_sequences_cpp_Returned in H
    as (min_scores2 & score2_mats & out_pre & res & matches
        & _ & _ & _ & Hres & _ & ->).
  simpl in *.
  apply list_lookup_fmap_Some in Hm1 as (h1 & -> & Hh1).
  apply list_lookup_fmap_Some in Hm2 as (h2 & -> & Hh2).
  rewrite list_lookup_fmap, Hh1 in Hs1, Hb1.
  rewrite list_lookup_fmap, Hh2 in Hs2, Hb2.
  simpl in *. injection Hs1 as <-. injection Hb1 as <-.
  injection Hs2 as <-. injection Hb2 as <-.
  destruct (format_motifs_sorted _ _ _ _ _ Hres) as [Hsorted _].
  apply (StronglySorted_lookup_lt hit_before res r1 r2 h1 h2 Hsorted Hh1 Hh2 Hr).
Qed.

Lemma rows_are_strictly_ordered_witness :
  1 < 1 ∨ (1 = 1 ∧ (1 < 1 ∨ (1 = 1 ∧ 1 < 5))).
Proof.
  apply (rows_are_strictly_ordered [ACGT_motif] ["ACGTACGT"%string] 1 "ACGT"
           [40%Q] 1 false true [] ACGT_hits 0 1 1 1 1 1 1 5);
    [reflexivity | lia | reflexivity ..].
Defined.

(** X15. The seven columns of a returned table have the same number of
    entries: one per hit. *)
Theorem table_columns_have_equal_length (score_mats : list NumericMatrix)
    (seq_vecs : vec_str_t) (k : Z) (alph : string) (min_scores : vec_num_t)
    (nthreads : Z) (allow_nonfinite warnNA : bool) (w : list string)
    (df : DataFrame) :
  scan_sequences_cpp score_mats seq_vecs k alph min_scores nthreads
    allow_nonfinite warnNA = (w, Returned df) →
  length (df_motif_i df) = length (df_motif df)
  ∧ length (df_sequence df) = length (df_motif df)
  ∧ length (df_start df) = length (df_motif df)
  ∧ length (df_stop df) = length (df_motif df)
  ∧ length (df_score df) = length (df_motif df)
  ∧ length (df_match df) = length (df_motif df).
Proof.
  intros H.
  apply scan_sequences_cpp_Returned in H
    as (min_scores2 & score2_mats & out_pre & res & matches
        & _ & _ & _ & _ & Hget & ->).
  simpl. rewrite !length_fmap.
  apply get_matches_spec, Forall2_length in Hget.
  by split_and!.
Qed.

Lemma table_columns_have_equal_length_witness :
  length (df_motif_i ACGT_hits) = length (df_motif ACGT_hits)
  ∧ length (df_sequence ACGT_hits) = length (df_motif ACGT_hits)
  ∧ length (df_start ACGT_hits) = length (df_motif ACGT_hits)
  ∧ length (df_stop ACGT_hits) = length (df_motif ACGT_hits)
  ∧ length (df_score ACGT_hits) = length (df_motif ACGT_hits)
  ∧ length (df_match ACGT_hits) = length (df_motif ACGT_hits).
Proof.
  apply (table_columns_have_equal_length [ACGT_motif] ["ACGTACGT"%string] 1
           "ACGT" [40%Q] 1 false true []).
  reflexivity.
Defined.

(** ** Reported scores and thresholds *)

(** X16. Scaling a threshold lowers it by less than one fixed-point unit:
    every reported score is [x / 1000] for a fixed-point score [x] with
    [x > 1000 t - 1], where [t] is the threshold the caller gave for the
    motif of the row. *)
Theorem reported_scores_are_near_the_threshold (score_mats : list NumericMatrix)
    (seq_vecs : vec_str_t) (k : Z) (alph : string) (min_scores : vec_num_t)
    (nthreads : Z) (allow_nonfinite warnNA : bool) (w : list string)
    (df : DataFrame) (r : nat) (motif : Z) (q : Q) :
  scan_sequences_cpp score_mats seq_vecs k alph min_scores nthreads
    allow_nonfinite warnNA = (w, Returned df) →
  df_motif df !! r = Some motif →
  df_score df !! r = Some q →
  ∃ (t : Q) (x : Z),
    min_scores !! Z.to_nat (motif - 1) = Some t
    ∧ q = rescale x
    ∧ (t * 1000 - 1 < inject_Z x)%Q.
Proof.
  intros H Hm Hq.
  apply scan_sequences_cpp_Returned in H
    as (min_scores2 & score2_mats & out_pre & res & matches
        & Hmin & _ & _ & Hres & _ & ->).
  simpl in *.
  apply list_lookup_fmap_Some in Hm as (h & -> & Hh).
  rewrite list_lookup_fmap, Hh in Hq. simpl in Hq. injection Hq as <-.
  assert (h ∈ res) as Hin by (eapply list_elem_of_lookup_2; eauto).
  destruct (format_motifs_threshold _ _ _ _ _ _ Hres Hin) as (T & HT & Hle).
  apply mapM_Some_1 in Hmin.
  destruct (Forall2_lookup_r _ _ _ _ _ Hmin HT) as (t & Ht & Hscale).
  destruct (scale_near t T Hscale) as [Hlow _].
  exists t, (hit_score h). split_and!; [done | done |].
  assert (T * Zpos (Qden t) ≤ hit_score h * Zpos (Qden t)) by nia.
  unfold Qlt, Qminus, Qplus, Qopp, Qmult, inject_Z. simpl. lia.
Qed.

Lemma reported_scores_are_near_the_threshold_witness :
  ∃ (t : Q) (x : Z),
    [40%Q] !! Z.to_nat (1 - 1) = Some t
    ∧ rescale 40000 = rescale x
    ∧ (t * 1000 - 1 < inject_Z x)%Q.
Proof.
  apply (reported_scores_are_near_the_threshold [ACGT_motif]
           ["ACGTACGT"%string] 1 "ACGT" [40%Q] 1 false true [] ACGT_hits 1);
    reflexivity.
Defined.

(** ** Raising the thresholds *)

Section RaisedThresholds.

Variables scores scores' : vec_int_t.
Variable motifs : list_mat_t.
Hypothesis raised : Forall2 Z.le scores scores'.

Lemma format_positions_raised i j b0 v hs :
  format_positions scores motifs i j b0 v = Some hs →
  ∃ hs', format_positions scores' motifs i j b0 v = Some hs'
         ∧ hs' `sublist_of` hs.
Proof using raised.
  revert b0 hs. induction v as [|y v IH]; intros b0 hs H; simpl in H.
  - injection H as <-. by exists [].
  - simpl. destruct (scores !! i) as [t|] eqn:Ht; [|done]. simpl in H.
    destruct (Forall2_lookup_l _ _ _ _ _ raised Ht) as (t' & Ht' & Hle).
    rewrite Ht'. simpl. unfold meets_threshold in *.
    destruct (t' <=? y) eqn:Hty'.
    + apply Z.leb_le in Hty'.
      rewrite (proj2 (Z.leb_le t y)) in H by lia.
      destruct (motifs !! i) as [m|]; [|done]. simpl in *.
      destruct (format_positions scores motifs i j (S b0) v) as [rest|] eqn:Hr;
        [|done].
      injection H as <-. destruct (IH _ _ Hr) as (rest' & -> & Hsub).
      eexists. split; [done|]. by apply sublist_skip.
    + destruct (t <=? y).
      * destruct (motifs !! i) as [m|]; [|done]. simpl in H.
        destruct (format_positions scores motifs i j (S b0) v) as [rest|] eqn:Hr;
          [|done].
        injection H as <-. destruct (IH _ _ Hr) as (rest' & -> & Hsub).
        eexists. split; [done|]. by apply sublist_cons.
      * by apply IH.
Qed.

Lemma format_sequences_raised i j0 vs hs :
  format_sequences scores motifs i j0 vs = Some hs →
  ∃ hs', format_sequences scores' motifs i j0 vs = Some hs'
         ∧ hs' `sublist_of` hs.
Proof using raised.
  revert j0 hs. induction vs as [|v vs IH]; intros j0 hs H; simpl in H.
  - injection H as <-. by exists [].
  - simpl.
    destruct (format_positions scores motifs i j0 0 v) as [here|] eqn:Hhere;
      [|done]. simpl in H.
    destruct (format_sequences scores motifs i (S j0) vs) as [rest|] eqn:Hrest;
      [|done]. simpl in H. injection H as <-.
    destruct (format_positions_raised _ _ _ _ _ Hhere) as (here' & -> & Hs1).
    destruct (IH _ _ Hrest) as (rest' & -> & Hs2).
    eexists. split; [done|]. by apply sublist_app.
Qed.

Lemma format_motifs_raised i0 out_pre hs :
  format_motifs scores motifs i0 out_pre = Some hs →
  ∃ hs', format_motifs scores' motifs i0 out_pre = Some hs'
         ∧ hs' `sublist_of` hs.
Proof using raised.
  revert i0 hs. induction out_pre as [|vs out IH]; intros i0 hs H; simpl in H.
  - injection H as <-. by exists [].
  - simpl.
    destruct (format_sequences scores motifs i0 0 vs) as [here|] eqn:Hhere;
      [|done]. simpl in H.
    destruct (format_motifs scores motifs (S i0) out) as [rest|] eqn:Hrest;
      [|done]. simpl in H. injection H as <-.
    destruct (format_sequences_raised _ _ _ _ Hhere) as (here' & -> & Hs1).
    destruct (IH _ _ Hrest) as (rest' & -> & Hs2).
    eexists. split; [done|]. by apply sublist_app.
Qed.

End RaisedThresholds.

(** X17. Raising thresholds only removes hits: if [format_results] returns
    the rows [hs] for the thresholds [scores], then for thresholds [scores']
    that are pointwise at least as large it returns too, and its rows are a
    sublist of [hs] (the same rows, in the same order, with some left out). *)
Theorem raising_thresholds_removes_hits (out_pre : list (list vec_int_t))
    (scores scores' : vec_int_t) (motifs : list_mat_t) (hs : list hit) :
  Forall2 Z.le scores scores' →
  format_results out_pre scores motifs = Some hs →
  ∃ hs', format_results out_pre scores' motifs = Some hs'
         ∧ hs' `sublist_of` hs.
Proof.
  intros Hle H. by apply (format_motifs_raised scores scores' motifs Hle 0).
Qed.

Lemma raising_thresholds_removes_hits_witness :
  ∃ hs', format_results [[[5; 7; 6]]] [7] [[[0]; [0]]] = Some hs'
         ∧ hs' `sublist_of` [Hit 1 1 2 3 7; Hit 1 1 3 4 6].
Proof.
  apply (raising_thresholds_removes_hits [[[5; 7; 6]]] [6] [7] [[[0]; [0]]]).
  - repeat constructor. lia.
  - reflexivity.
Defined.

(** ** Calls that return *)

Lemma scale_within (B : Z) (x : Q) :
  0 ≤ B ≤ INT_MAX → within B x → ∃ e, scale x = Some e ∧ - B ≤ e ≤ B.
Proof.
  intros HB [Hlo Hhi]. exists (Qtruncate (round64 (x * 1000))).
  assert (- 2 ^ 52 ≤ - B ∧ B ≤ 2 ^ 52) as [HB1 HB2]
    by (revert HB; machine_consts; change (2 ^ 52) with 4503599627370496;
        lia).
  change (- inject_Z B)%Q with (inject_Z (- B)) in Hlo.
  assert (- B ≤ Qtruncate (round64 (x * 1000)) ≤ B) as Hb.
  { split.
    - apply Qtruncate_integer, round64_integer; [lia | done].
    - apply Qtruncate_integer, round64_integer; [lia | done]. }
  split; [|done]. unfold scale, double_to_int.
  apply to_int_in_range. revert HB Hb. machine_consts. lia.
Qed.

Lemma scan_variant_total (na : bool) (motif : list_int_t) (sequence : vec_int_t)
    (k B : Z) :
  1 ≤ k →
  Z.of_nat (length motif) + k - 1 ≤ Z.of_nat (length sequence) < 2 ^ 63 →
  bounded_scores B motif →
  Z.of_nat (length motif) * B ≤ INT_MAX →
  symbols_in_rows motif sequence →
  (if na then 999999 ≤ B else Forall (λ x, 0 ≤ x) sequence) →
  is_Some (scan_variant na motif sequence k).
Proof.
  intros Hk HL Hb HB Hs Hna.
  pose proof (scan_bound_no_wrap motif sequence k Hk HL) as Hbound.
  rewrite scan_variant_unfold. apply mapM_seq_total. intros i Hi.
  destruct na; simpl.
  - apply (window_score_NA_total sequence B);
      [done | done | done | lia | simpl; lia].
  - apply (window_score_total sequence B);
      [done | done | done | lia | simpl; lia].
Qed.

Lemma encoded_stream_symbols alph raw (na : bool) :
  (na = false → existsb (outside_alphabet alph) raw = false) →
  Forall (λ x, (if na then -1 else 0) ≤ x < Z.of_nat (length alph))
         (encode_seq alph raw).1.
Proof.
  intros Hna. destruct na.
  - apply encode_seq_encoded.
  - apply encode_seq_clean. by apply Hna.
Qed.

Lemma recoded_symbols (na : bool) (k : nat) (A : Z) (s r : vec_int_t) :
  (0 < k)%nat → 0 ≤ A →
  Forall (λ x, (if na then -1 else 0) ≤ x < A) s →
  recoded na k A s r →
  Forall (λ x, (if na then -1 else 0) ≤ x < A ^ Z.of_nat k) r.
Proof.
  intros Hk HA Hs (Hlen & Hin & Hafter).
  assert (A ≤ A ^ Z.of_nat k) as Hpow.
  { destruct (decide (A = 0)) as [->|Hne].
    - rewrite Z.pow_0_l by lia. lia.
    - pose proof (Z.pow_le_mono_r A 1 (Z.of_nat k) ltac:(lia) ltac:(lia)) as H.
      by rewrite Z.pow_1_r in H. }
  assert (0 ≤ A ^ Z.of_nat k) as Hnn by (apply Z.pow_nonneg; lia).
  apply Forall_lookup. intros i x Hx.
  destruct (decide (i + k ≤ length s)%nat) as [Hi|Hi].
  - rewrite Hin in Hx by done. injection Hx as <-.
    destruct (na && bool_decide (-1 ∈ k_window s i k)) eqn:Hsent.
    + apply andb_true_iff in Hsent as [-> _]. lia.
    + assert (Forall (λ x, 0 ≤ x < A) (k_window s i k)) as Hclean.
      { apply Forall_forall. intros y Hy.
        assert (y ∈ s) as Hys by (by apply (k_window_subseteq s i k)).
        pose proof (proj1 (Forall_forall _ _) Hs y Hys) as Hy'. simpl in Hy'.
        destruct na; simpl in Hsent; [|lia].
        apply bool_decide_eq_false in Hsent.
        assert (y ≠ -1) by (intros ->; done). lia. }
      pose proof (composite_value_range A _ Hclean) as Hr.
      rewrite k_window_length in Hr by done. destruct na; lia.
  - rewrite Hafter in Hx by lia.
    pose proof (proj1 (Forall_lookup _ _) Hs i x Hx) as Hx'. simpl in Hx'. lia.
Qed.

(** The streams handed to the scorers: as long as the raw sequences, with
    symbols below [|alph|^k], and without sentinel on the strict path. *)
Lemma internal_streams (seq_vecs : list_char_t) (k : Z) (alph : vec_char_t)
    (na : bool) :
  1 ≤ k ≤ INT_MAX →
  Z.of_nat (length alph) ^ k ≤ 2 ^ 31 →
  (na = false → any_unrecognized alph seq_vecs = false) →
  Forall (λ s, k - 1 ≤ Z.of_nat (length s) < 2 ^ 63) seq_vecs →
  ∃ seq_ints',
    (if (1 <? k) && na
     then deal_with_higher_k_NA (encode_all alph seq_vecs).1 k
            (Z.of_nat (length alph))
     else if 1 <? k
          then deal_with_higher_k (encode_all alph seq_vecs).1 k
                 (Z.of_nat (length alph))
          else Some (encode_all alph seq_vecs).1) = Some seq_ints'
    ∧ Forall2 (λ raw s',
                 length s' = length raw
                 ∧ Forall (λ x, (if na then -1 else 0) ≤ x
                                < Z.of_nat (length alph) ^ k) s')
              seq_vecs seq_ints'.
Proof.
  intros Hk Hfit Hna Hlen.
  set (A := Z.of_nat (length alph)) in *.
  set (g := λ raw : vec_char_t, (encode_seq alph raw).1).
  assert ((encode_all alph seq_vecs).1 = g <$> seq_vecs) as ->
    by (unfold encode_all; simpl; by rewrite <- list_fmap_compose).
  assert (Forall (λ raw, Forall (λ x, (if na then -1 else 0) ≤ x < A) (g raw))
                 seq_vecs) as Hraw.
  { apply Forall_forall. intros raw Hin. apply encoded_stream_symbols.
    intros Hf. specialize (Hna Hf).
    destruct (existsb (outside_alphabet alph) raw) eqn:Hex; [|done].
    assert (any_unrecognized alph seq_vecs = true) as Hall; [|congruence].
    apply existsb_exists. exists raw. split; [by apply list_elem_of_In | done]. }
  destruct (1 <? k) eqn:Hk1.
  - apply Z.ltb_lt in Hk1.
    destruct (mapM_Forall2
                (λ s, higher_k_loop
                        (λ s' j, (if na then higher_k_sum_NA else higher_k_sum)
                                   k A s' j (Z.to_nat k) 0%nat 0)
                        (higher_k_bound s k) 0 s)
                (recoded na (Z.to_nat k) A) (g <$> seq_vecs))
      as (seq_ints' & Hrec & Hall).
    { apply Forall_fmap, Forall_forall. intros raw Hin. simpl.
      pose proof (proj1 (Forall_forall _ _) Hlen raw Hin) as Hl. simpl in Hl.
      apply (recode_stream k A ltac:(lia) ltac:(lia) Hfit (g raw)).
      - unfold g. by rewrite encode_seq_length.
      - apply encode_seq_encoded. }
    exists seq_ints'. split.
    { rewrite <- Hrec. by destruct na. }
    rewrite Forall2_fmap_l in Hall.
    apply Forall2_same_length_lookup.
    split; [exact (Forall2_length _ _ _ Hall)|].
    intros i raw r Hi Hr.
    pose proof (Forall2_lookup_lr _ _ _ _ _ _ Hall Hi Hr) as Hrc. simpl in Hrc.
    pose proof (proj1 (Forall_lookup _ _) Hraw i raw Hi) as Hsym. simpl in Hsym.
    split.
    + destruct Hrc as [Hl _]. rewrite Hl. apply encode_seq_length.
    + pose proof (recoded_symbols na (Z.to_nat k) A (g raw) r ltac:(lia)
                    ltac:(lia) Hsym Hrc) as Hout.
      by rewrite Z2Nat.id in Hout by lia.
  - apply Z.ltb_ge in Hk1. assert (k = 1) as -> by lia. simpl.
    exists (g <$> seq_vecs). split; [done|].
    apply Forall2_fmap_r, Forall_Forall2_diag.
    eapply Forall_impl; [exact Hraw|]. intros raw Hsym. simpl.
    split; [apply encode_seq_length|]. by rewrite Z.pow_1_r.
Qed.

Lemma internal_returns (score_mats : list_mat_t) (seq_vecs : list_char_t)
    (k : Z) (alph : vec_char_t) (nthreads : Z) (warnNA : bool) (B : Z) :
  1 ≤ k ≤ INT_MAX →
  Z.of_nat (length alph) ^ k ≤ 2 ^ 31 →
  999999 ≤ B →
  Forall (λ m : list vec_int_t,
            bounded_scores B m ∧ Z.of_nat (length m) * B ≤ INT_MAX
            ∧ Forall (λ row : vec_int_t,
                        Z.of_nat (length alph) ^ k ≤ Z.of_nat (length row)) m)
         score_mats →
  Forall (λ s : vec_char_t,
            k - 1 ≤ Z.of_nat (length s) < 2 ^ 63
            ∧ Forall (λ m : list vec_int_t,
                        Z.of_nat (length m) + k - 1 ≤ Z.of_nat (length s))
                     score_mats)
         seq_vecs →
  is_Some (scan_sequences_cpp_internal score_mats seq_vecs k alph nthreads
             warnNA).2.
Proof.
  intros Hk Hfit HB Hm Hs. unfold scan_sequences_cpp_internal. cbn [snd].
  destruct (internal_streams seq_vecs k alph (use_na_fun alph seq_vecs) Hk Hfit)
    as (seq_ints' & -> & Hstreams).
  { intros Hna. by rewrite <- use_na_fun_spec. }
  { eapply Forall_impl; [exact Hs|]. by intros s [? _]. }
  cbn [mbind option_bind].
  assert (is_Some (mapM (λ m, mapM (λ s, scan_variant (use_na_fun alph seq_vecs)
                                           m s k) seq_ints') score_mats))
    as Hall.
  { apply mapM_is_Some, Forall_forall. intros m Hin. cbn [compose].
    apply mapM_is_Some, Forall_lookup. intros j s' Hj. cbn [compose].
    destruct (Forall2_lookup_r _ _ _ _ _ Hstreams Hj)
      as (raw & Hraw & Hl & Hsym).
    pose proof (proj1 (Forall_forall _ _) Hm m Hin) as (Hb & HWB & Hrows).
    pose proof (proj1 (Forall_lookup _ _) Hs j raw Hraw) as (Hlen & Hms).
    pose proof (proj1 (Forall_forall _ _) Hms m Hin) as Hlm.
    cbn beta in Hlm.
    apply (scan_variant_total _ _ _ _ B); [lia | lia | done | done | |].
    - apply Forall_forall. intros row Hrow.
      pose proof (proj1 (Forall_forall _ _) Hrows row Hrow) as Hrl.
      cbn beta in Hrl.
      eapply Forall_impl; [exact Hsym|]. cbn beta. intros x Hx. lia.
    - destruct (use_na_fun alph seq_vecs); [done|].
      eapply Forall_impl; [exact Hsym|]. cbn beta. intros; lia. }
  destruct (use_na_fun alph seq_vecs); exact Hall.
Qed.

Lemma format_positions_total scores motifs i j b v :
  (i < length scores)%nat → (i < length motifs)%nat →
  is_Some (format_positions scores motifs i j b v).
Proof.
  intros Hs Hm. revert b. induction v as [|x v IH]; intros b; simpl;
    [by eexists|].
  destruct (lookup_lt_is_Some_2 scores i Hs) as [t ->].
  destruct (lookup_lt_is_Some_2 motifs i Hm) as [m ->]. simpl.
  destruct (IH (S b)) as [rest ->]. simpl.
  destruct (meets_threshold x t); by eexists.
Qed.

Lemma format_sequences_total scores motifs i j vs :
  (i < length scores)%nat → (i < length motifs)%nat →
  is_Some (format_sequences scores motifs i j vs).
Proof.
  intros Hs Hm. revert j. induction vs as [|v vs IH]; intros j; simpl;
    [by eexists|].
  destruct (format_positions_total scores motifs i j 0 v Hs Hm) as [here ->].
  destruct (IH (S j)) as [rest ->]. simpl. by eexists.
Qed.

Lemma format_motifs_total scores motifs i out_pre :
  (i + length out_pre ≤ length scores)%nat →
  (i + length out_pre ≤ length motifs)%nat →
  is_Some (format_motifs scores motifs i out_pre).
Proof.
  revert i. induction out_pre as [|vs out IH]; intros i Hs Hm; simpl;
    [by eexists|].
  simpl in Hs, Hm.
  destruct (format_sequences_total scores motifs i 0 vs) as [here ->];
    [lia | lia |].
  destruct (IH (S i)) as [rest ->]; [lia | lia |]. simpl. by eexists.
Qed.

Lemma get_match_total seq_vecs motifs i j b stop x raw (m : list vec_int_t) :
  seq_vecs !! j = Some raw → motifs !! i = Some m →
  (b ≤ String.length raw)%nat → Z.of_nat b < 2 ^ 64 →
  ∃ mt, get_match seq_vecs motifs
          (Hit (Z.of_nat i + 1) (Z.of_nat j + 1) (Z.of_nat b + 1) stop x)
        = Returned mt.
Proof.
  intros Hraw Hm Hb Hb64. unfold get_match. simpl.
  rewrite !at_int_nonneg by lia.
  replace (Z.to_nat (Z.of_nat j + 1 - 1)) with j by lia.
  replace (Z.to_nat (Z.of_nat i + 1 - 1)) with i by lia.
  rewrite size_t_small by lia.
  replace (Z.to_nat (Z.of_nat b + 1 - 1)) with b by lia.
  rewrite Hraw, Hm. simpl. unfold substr.
  rewrite decide_True by done. by eexists.
Qed.

Lemma get_matches_total res seq_vecs motifs :
  Forall (λ h, ∃ mt, get_match seq_vecs motifs h = Returned mt) res →
  ∃ ms, get_matches res seq_vecs motifs = Returned ms.
Proof.
  induction 1 as [|h res (mt & Hmt) _ (ms & Hms)]; simpl; [by eexists|].
  rewrite Hmt. simpl. rewrite Hms. simpl. by eexists.
Qed.

Lemma scale_column_within (B : Z) (col : list Q) :
  0 ≤ B ≤ INT_MAX → Forall (within B) col →
  ∃ col2, mapM scale col = Some col2 ∧ length col2 = length col
          ∧ Forall (λ e, - B ≤ e ≤ B) col2.
Proof.
  intros HB. induction 1 as [|x col Hx _ (col2 & Hc & Hl & Hf)];
    [by exists []|].
  destruct (scale_within B x HB Hx) as (e & He & Hb).
  exists (e :: col2). simpl. rewrite He. simpl. rewrite Hc. simpl.
  split_and!; [done | by rewrite Hl | by constructor].
Qed.

Lemma scale_matrix_within (B L : Z) (m : NumericMatrix) :
  0 ≤ B → Z.of_nat (length m) * B ≤ INT_MAX →
  Forall (λ col, L ≤ Z.of_nat (length col) ∧ Forall (within B) col) m →
  ∃ m2, scale_matrix m = Some m2 ∧ length m2 = length m
        ∧ bounded_scores B m2
        ∧ Forall (λ row : vec_int_t, L ≤ Z.of_nat (length row)) m2.
Proof.
  intros HB HW Hm.
  assert (m = [] ∨ B ≤ INT_MAX) as [-> | HB'].
  { destruct m as [|col m]; [by left | right]. simpl length in HW. nia. }
  { exists []. split_and!; [done | done | constructor | constructor]. }
  clear HW. induction Hm as [|col m [HL Hcol] _ (m2 & Hc & Hl & Hb & Hr)].
  - exists []. split_and!; [done | done | constructor | constructor].
  - destruct (scale_column_within B col ltac:(lia) Hcol)
      as (col2 & Hcol2 & Hl2 & Hb2).
    exists (col2 :: m2). unfold scale_matrix in *. simpl.
    rewrite Hcol2. simpl. rewrite Hc. simpl.
    split_and!; [done | by rewrite Hl | by constructor |].
    constructor; [lia | done].
Qed.

(** X18. Calls within the contract return a table. For an order k >= 1 with
    [|alph|^k <= 2^31], one threshold per motif (each within the [int] range
    after scaling), matrices whose columns have at least [|alph|^k] entries,
    each within [B] after scaling, where [B >= 999999] and width * B fits an
    [int], and sequences that hold at least width + k - 1 letters (and at
    least k - 1), the entry point neither stops, nor throws, nor leaves
    defined behaviour: it returns a table. *)
Theorem calls_within_the_contract_return (score_mats : list NumericMatrix)
    (seq_vecs : vec_str_t) (k : Z) (alph : string) (min_scores : vec_num_t)
    (nthreads : Z) (allow_nonfinite warnNA : bool) (B : Z) :
  1 ≤ k ≤ INT_MAX →
  Z.of_nat (String.length alph) ^ k ≤ 2 ^ 31 →
  999999 ≤ B →
  (length score_mats ≤ length min_scores)%nat →
  Forall (within INT_MAX) min_scores →
  Forall (λ m : NumericMatrix,
            Z.of_nat (length m) * B ≤ INT_MAX
            ∧ Forall (λ col,
                        Z.of_nat (String.length alph) ^ k ≤ Z.of_nat (length col)
                        ∧ Forall (within B) col) m)
         score_mats →
  Forall (λ s,
            k - 1 ≤ Z.of_nat (String.length s) < 2 ^ 63
            ∧ Forall (λ m : NumericMatrix,
                        Z.of_nat (length m) + k - 1
                        ≤ Z.of_nat (String.length s)) score_mats)
         seq_vecs →
  ∃ df, (scan_sequences_cpp score_mats seq_vecs k alph min_scores nthreads
           allow_nonfinite warnNA).2 = Returned df.
Proof.
  intros Hk Hfit HB Hlen Hthr Hmats Hseqs.
  set (L := Z.of_nat (String.length alph) ^ k) in *.
  unfold scan_sequences_cpp.
  destruct (scale_column_within INT_MAX min_scores) as (min_scores2 & -> & Hl2 & _);
    [unfold INT_MAX; lia | done |].
  destruct (mapM_Forall2 scale_matrix
              (λ (m : NumericMatrix) (m2 : list vec_int_t),
                 length m2 = length m ∧ bounded_scores B m2
                 ∧ Forall (λ row : vec_int_t, L ≤ Z.of_nat (length row)) m2)
              score_mats) as (score2_mats & -> & Hm2).
  { eapply Forall_impl; [exact Hmats|]. intros m [HW Hcols].
    apply (scale_matrix_within B L m); [lia | done | done]. }
  destruct (too_short _ _) eqn:Hshort.
  { exfalso. apply too_short_sizes in Hshort as (m & s & Hm & Hs & Hlt).
    pose proof (proj1 (Forall_forall _ _) Hseqs s Hs) as (_ & Hms).
    pose proof (proj1 (Forall_forall _ _) Hms m Hm) as Hl. cbn beta in Hl. lia. }
  assert (Forall (λ m2 : list vec_int_t,
                    bounded_scores B m2 ∧ Z.of_nat (length m2) * B ≤ INT_MAX
                    ∧ Forall (λ row : vec_int_t, L ≤ Z.of_nat (length row)) m2)
                 score2_mats) as Hmats2.
  { apply Forall_lookup. intros i m2 Hi.
    destruct (Forall2_lookup_r _ _ _ _ _ Hm2 Hi) as (m & Hm & Hl & Hb & Hr).
    pose proof (proj1 (Forall_lookup _ _) Hmats i m Hm) as [HW _].
    rewrite Hl. by split_and!. }
  assert (Forall (λ s : vec_char_t,
                    k - 1 ≤ Z.of_nat (length s) < 2 ^ 63
                    ∧ Forall (λ m2 : list vec_int_t,
                                Z.of_nat (length m2) + k - 1
                                ≤ Z.of_nat (length s)) score2_mats)
                 (list_ascii_of_string <$> seq_vecs)) as Hseqs2.
  { apply Forall_fmap. eapply Forall_impl; [exact Hseqs|].
    intros s [Hs Hms]. cbn [compose].
    rewrite length_list_ascii_of_string. split; [done|].
    apply Forall_lookup. intros i m2 Hi.
    destruct (Forall2_lookup_r _ _ _ _ _ Hm2 Hi) as (m & Hm & Hl & _).
    pose proof (proj1 (Forall_lookup _ _) Hms i m Hm) as Hlm. cbn beta in Hlm.
    rewrite Hl. done. }
  pose proof (internal_returns score2_mats (list_ascii_of_string <$> seq_vecs) k
                (list_ascii_of_string alph) nthreads warnNA B Hk) as Hret.
  rewrite length_list_ascii_of_string in Hret.
  specialize (Hret Hfit HB Hmats2 Hseqs2).
  destruct (scan_sequences_cpp_internal _ _ _ _ _ _) as [w out_pre] eqn:Hint.
  cbn [snd] in *. destruct Hret as [out ->].
  cbn [defined mbind outcome_bind].
  pose proof (internal_out_pre_length _ _ _ _ _ _ _ _ Hint) as Hout.
  pose proof (Forall2_length _ _ _ Hm2) as Hlm2.
  destruct (format_motifs_total min_scores2 score2_mats 0 out) as [res Hres];
    [simpl; lia | simpl; lia |].
  unfold format_results. rewrite Hres. cbn [defined mbind outcome_bind].
  destruct (get_matches_total res seq_vecs score2_mats) as [ms Hms].
  { apply Forall_forall. intros h Hh.
    destruct (format_motifs_spec _ _ _ _ _ _ Hres Hh)
      as (i & vs & j & v & b & m2 & x & Hi & Hj & Hb & Hm2i & ->).
    simpl in Hm2i.
    destruct (internal_score_vector _ _ _ _ _ _ _ _ _ _ _ _ Hint Hi Hj)
      as (na & m2' & s' & rawc & Hm2' & Hrawc & Hls & Hscan).
    assert (m2' = m2) as -> by congruence.
    apply list_lookup_fmap_Some in Hrawc as (raw & -> & Hraw).
    rewrite length_list_ascii_of_string in Hls.
    pose proof (lookup_lt_Some _ _ _ Hb) as Hbv.
    destruct (scan_variant_in_bounds _ _ _ _ _ b Hscan Hbv) as [Hb64 Hbounds].
    apply (get_match_total _ _ _ _ _ _ _ raw m2); [done | done | | done].
    destruct m2 as [|row m2]; [|specialize (Hbounds ltac:(done)); lia].
    rewrite scan_variant_unfold in Hscan.
    destruct (mapM_seq_lookup _ _ _ Hscan) as [Hlv _].
    pose proof (proj1 (Forall_lookup _ _) Hseqs j raw Hraw) as [Hs _].
    pose proof (scan_bound_no_wrap [] s' k ltac:(lia)) as Hsb.
    simpl length in Hsb. rewrite Hls in Hsb. specialize (Hsb ltac:(lia)).
    lia. }
  rewrite Hms. cbn [mbind outcome_bind]. by eexists.
Qed.

Lemma calls_within_the_contract_return_witness :
  ∃ df, (scan_sequences_cpp [ACGT_motif] ["ACGNACGT"%string] 1 "ACGT" [40%Q] 1
           false true).2 = Returned df.
Proof.
  apply (calls_within_the_contract_return [ACGT_motif] ["ACGNACGT"%string] 1
           "ACGT" [40%Q] 1 false true 999999).
  - unfold INT_MAX. lia.
  - simpl. lia.
  - lia.
  - simpl. lia.
  - repeat first [apply Forall_nil_2 | apply Forall_cons_2 | split];
      unfold Qle, INT_MAX; simpl; lia.
  - unfold ACGT_motif.
    repeat first [apply Forall_nil_2 | apply Forall_cons_2 | split];
      unfold Qle, INT_MAX; simpl; lia.
  - repeat first [apply Forall_nil_2 | apply Forall_cons_2 | split];
      simpl; lia.
Defined.

(** ** Reported scores without recoding *)

(** Without recoding, each score vector is the result of the selected scorer
    on a motif and on the encoding of a raw sequence. *)
Lemma internal_score_vector_unrecoded score_mats seq_vecs k alph nthreads warnNA
    w out_pre i j vs v :
  k ≤ 1 →
  scan_sequences_cpp_internal score_mats seq_vecs k alph nthreads warnNA
  = (w, Some out_pre) →
  out_pre !! i = Some vs → vs !! j = Some v →
  ∃ m raw,
    score_mats !! i = Some m ∧ seq_vecs !! j = Some raw
    ∧ scan_variant (use_na_fun alph seq_vecs) m (encode_seq alph raw).1 k
      = Some v.
Proof.
  intros Hk. unfold scan_sequences_cpp_internal.
  rewrite (proj2 (Z.ltb_ge 1 k)) by lia. cbn [andb].
  generalize (use_na_fun alph seq_vecs). intros na [= _ H] Hi Hj.
  cbn [mbind option_bind] in H.
  assert (∃ m s', score_mats !! i = Some m
                  ∧ (encode_all alph seq_vecs).1 !! j = Some s'
                  ∧ scan_variant na m s' k = Some v) as (m & s' & Hm & Hs' & Hv).
  { destruct na; apply mapM_Some_1 in H;
      destruct (Forall2_lookup_r _ _ _ _ _ H Hi) as (m & Hm & Hvs);
      apply mapM_Some_1 in Hvs;
      destruct (Forall2_lookup_r _ _ _ _ _ Hvs Hj) as (s' & Hs' & Hv);
      by exists m, s'. }
  unfold encode_all in Hs'. cbn [fst] in Hs'.
  rewrite <- list_fmap_compose in Hs'.
  apply list_lookup_fmap_Some in Hs' as (raw & -> & Hraw).
  by exists m, raw.
Qed.

(** X19. At an order k <= 1 (no recoding) a reported score is the window sum
    at the reported position: for a row with motif i, sequence j and start
    b, the score is, divided by 1000, the sum over the motif positions p of
    the scaled entry of column p of matrix i at the code of the letter b + p
    of sequence j (the penalty -999999 at an unrecognized letter, when the
    batch holds one). *)
Theorem reported_score_is_the_window_sum (score_mats : list NumericMatrix)
    (seq_vecs : vec_str_t) (k : Z) (alph : string) (min_scores : vec_num_t)
    (nthreads : Z) (allow_nonfinite warnNA : bool) (w : list string)
    (df : DataFrame) (r : nat) (motif sequence start : Z) (q : Q) :
  scan_sequences_cpp score_mats seq_vecs k alph min_scores nthreads
    allow_nonfinite warnNA = (w, Returned df) →
  k ≤ 1 →
  df_motif df !! r = Some motif →
  df_sequence df !! r = Some sequence →
  df_start df !! r = Some start →
  df_score df !! r = Some q →
  ∃ mat m2 raw,
    score_mats !! Z.to_nat (motif - 1) = Some mat
    ∧ scale_matrix mat = Some m2
    ∧ seq_vecs !! Z.to_nat (sequence - 1) = Some raw
    ∧ q = rescale
            (window_sum
               (if any_unrecognized (list_ascii_of_string alph)
                     (list_ascii_of_string <$> seq_vecs)
                then aware_entry else strict_entry)
               m2
               (k_window
                  (encode_seq (list_ascii_of_string alph)
                     (list_ascii_of_string raw)).1
                  (Z.to_nat (start - 1)) (length m2))).
Proof.
  intros H Hk Hm Hs Hb Hq.
  apply scan_sequences_cpp_Returned in H
    as (min_scores2 & score2_mats & out_pre & res & matches
        & _ & Hmats & Hint & Hres & _ & ->).
  simpl in *.
  apply list_lookup_fmap_Some in Hm as (h & -> & Hh).
  rewrite list_lookup_fmap, Hh in Hs, Hb.
  rewrite list_lookup_fmap, Hh in Hq. simpl in *.
  injection Hs as <-. injection Hb as <-. injection Hq as <-.
  assert (h ∈ res) as Hin by (eapply list_elem_of_lookup_2; eauto).
  destruct (format_motifs_spec _ _ _ _ _ _ Hres Hin)
    as (i & vs & j & v & b & m2 & x & Hi & Hj & Hbx & Hm2 & ->).
  simpl in *.
  destruct (internal_score_vector_unrecoded _ _ _ _ _ _ _ _ _ _ _ _ Hk Hint
              Hi Hj) as (m2' & rawc & Hm2' & Hrawc & Hscan).
  assert (m2' = m2) as -> by congruence.
  apply list_lookup_fmap_Some in Hrawc as (raw & -> & Hraw).
  apply mapM_Some_1 in Hmats.
  destruct (Forall2_lookup_r _ _ _ _ _ Hmats Hm2) as (mat & Hmat & Hscale).
  exists mat, m2, raw.
  replace (Z.to_nat (Z.of_nat i + 1 - 1)) with i by lia.
  replace (Z.to_nat (Z.of_nat j + 1 - 1)) with j by lia.
  replace (Z.to_nat (Z.of_nat b + 1 - 1)) with b by lia.
  split_and!; [done | done | done |]. f_equal.
  rewrite <- use_na_fun_spec.
  rewrite scan_variant_unfold in Hscan.
  destruct (mapM_seq_lookup _ _ _ Hscan) as [Hlen Hlook].
  rewrite Hlook in Hbx by (apply lookup_lt_Some in Hbx; lia).
  destruct (use_na_fun _ _); simpl in Hbx.
  - destruct (window_score_NA_sum _ _ _ _ _ Hbx) as (-> & _);
      [machine_consts; lia | lia].
  - destruct (window_score_sum _ _ _ _ _ Hbx) as (-> & _);
      [machine_consts; lia | lia].
Qed.

Lemma reported_score_is_the_window_sum_witness :
  ∃ mat m2 raw,
    [ACGT_motif] !! Z.to_nat (1 - 1) = Some mat
    ∧ scale_matrix mat = Some m2
    ∧ ["ACGTACGT"%string] !! Z.to_nat (1 - 1) = Some raw
    ∧ rescale 40000
      = rescale
          (window_sum
             (if any_unrecognized (list_ascii_of_string "ACGT")
                   (list_ascii_of_string <$> ["ACGTACGT"%string])
              then aware_entry else strict_entry)
             m2
             (k_window
                (encode_seq (list_ascii_of_string "ACGT")
                   (list_ascii_of_string raw)).1
                (Z.to_nat (5 - 1)) (length m2))).
Proof.
  apply (reported_score_is_the_window_sum [ACGT_motif] ["ACGTACGT"%string] 1
           "ACGT" [40%Q] 1 false true [] ACGT_hits 1 1 1 5 (rescale 40000));
    [reflexivity | lia | reflexivity ..].
Defined.

(** ** Empty inputs *)

Lemma too_short_no_sequences motif_sizes : too_short motif_sizes [] = false.
Proof. unfold too_short. by induction motif_sizes. Qed.

Lemma too_short_no_motifs seq_sizes : too_short [] seq_sizes = false.
Proof. done. Qed.

Lemma mapM_const {A B} (c : B) (l : list A) :
  mapM (λ _, Some c) l = Some (replicate (length l) c).
Proof. induction l as [|x l IH]; simpl; [done|]. by rewrite IH. Qed.

Lemma format_motifs_no_sequences scores motifs i n :
  format_motifs scores motifs i (replicate n []) = Some [].
Proof.
  revert i. induction n as [|n IH]; intros i; simpl; [done|]. by rewrite IH.
Qed.

(** X20. Without sequences the entry point returns the table without rows
    and raises no warning, whatever the motifs, the order, the alphabet and
    the number of thresholds, as soon as the thresholds and the matrix
    entries can be scaled. *)
Theorem no_sequences_give_the_empty_table (score_mats : list NumericMatrix)
    (k : Z) (alph : string) (min_scores : vec_num_t) (nthreads : Z)
    (allow_nonfinite warnNA : bool) :
  is_Some (mapM scale min_scores) →
  is_Some (mapM scale_matrix score_mats) →
  scan_sequences_cpp score_mats [] k alph min_scores nthreads allow_nonfinite
    warnNA = ([], Returned empty_table).
Proof.
  intros [min_scores2 Hmin] [score2_mats Hmats].
  unfold scan_sequences_cpp. rewrite Hmin, Hmats.
  cbn [fmap list_fmap]. rewrite too_short_no_sequences.
  unfold scan_sequences_cpp_internal, use_na_fun, encode_all.
  cbn [fmap list_fmap fst snd accumulate foldl Z.ltb Z.compare andb].
  rewrite andb_false_r.
  replace (if 1 <? k
           then deal_with_higher_k [] k
                  (Z.of_nat (length (list_ascii_of_string alph)))
           else Some []) with (Some (@nil vec_int_t)) by (by destruct (1 <? k)).
  cbn [mbind option_bind mapM].
  change (mapM (λ _ : list vec_int_t, mret []) score2_mats)
    with (mapM (λ _ : list vec_int_t, Some (@nil vec_int_t)) score2_mats).
  rewrite (mapM_const (@nil vec_int_t) score2_mats).
  cbn [defined mbind outcome_bind]. unfold format_results.
  rewrite format_motifs_no_sequences. done.
Qed.

Lemma no_sequences_give_the_empty_table_witness :
  scan_sequences_cpp [ACGT_motif] [] 3 "ACGT" [] 1 false true
  = ([], Returned empty_table).
Proof.
  apply (no_sequences_give_the_empty_table [ACGT_motif] 3 "ACGT" [] 1 false
           true); by eexists.
Defined.

(** X21. Without motifs, at an order k <= 1 and with thresholds that can be
    scaled, the entry point returns the table without rows for any
    sequences; the warning about unrecognized letters is still raised when
    [warnNA] is set and a letter lies outside the alphabet. *)
Theorem no_motifs_give_the_empty_table (seq_vecs : vec_str_t) (k : Z)
    (alph : string) (min_scores : vec_num_t) (nthreads : Z)
    (allow_nonfinite warnNA : bool) :
  k ≤ 1 →
  is_Some (mapM scale min_scores) →
  scan_sequences_cpp [] seq_vecs k alph min_scores nthreads allow_nonfinite
    warnNA
  = (if any_unrecognized (list_ascii_of_string alph)
          (list_ascii_of_string <$> seq_vecs) && warnNA
     then [NA_warning] else [],
     Returned empty_table).
Proof.
  intros Hk [min_scores2 Hmin].
  unfold scan_sequences_cpp. rewrite Hmin.
  cbn [mapM fmap list_fmap]. rewrite too_short_no_motifs.
  unfold scan_sequences_cpp_internal. rewrite use_na_fun_spec.
  rewrite (proj2 (Z.ltb_ge 1 k)) by lia. cbn [andb mbind option_bind].
  by destruct (any_unrecognized _ _).
Qed.

Lemma no_motifs_give_the_empty_table_witness :
  scan_sequences_cpp [] ["ACGN"%string] 1 "ACGT" [] 1 false true
  = ([NA_warning], Returned empty_table).
Proof.
  apply (no_motifs_give_the_empty_table ["ACGN"%string] 1 "ACGT" [] 1 false
           true); [lia | by eexists].
Defined.

(** X22. A motif without columns scores 0 at every offset, and the scorers
    return one score more than the stream has k-windows: for an order k >= 1
    and a stream of length L with k - 1 <= L < 2^63, both return L - k + 2
    zeros. *)
Theorem empty_motif_scores_zero (na : bool) (sequence : vec_int_t) (k : Z) :
  1 ≤ k →
  k - 1 ≤ Z.of_nat (length sequence) < 2 ^ 63 →
  scan_variant na [] sequence k
  = Some (replicate (Z.to_nat (Z.of_nat (length sequence) - k + 2)) 0).
Proof.
  intros Hk HL. rewrite scan_variant_unfold.
  pose proof (scan_bound_no_wrap [] sequence k Hk) as Hb.
  simpl length in Hb. specialize (Hb ltac:(lia)).
  replace (Z.to_nat (Z.of_nat (length sequence) - k + 2))
    with (scan_bound [] sequence k) by lia.
  generalize (scan_bound [] sequence k). intros n.
  replace (λ i, window_variant na [] sequence i 0)
    with (λ _ : nat, Some 0) by (by destruct na).
  by rewrite mapM_const, length_seq.
Qed.

Lemma empty_motif_scores_zero_witness :
  scan_variant true [] [0; -1; 2] 2 = Some (replicate (Z.to_nat (3 - 2 + 2)) 0).
Proof.
  apply (empty_motif_scores_zero true [0; -1; 2] 2); [lia | simpl; lia].
Defined.

(** ** The warning switch *)

(** X23. [warnNA] only switches the warning: the outcome of the entry point
    does not depend on it, and nothing is raised when it is unset. *)
Theorem warnNA_only_switches_the_warning (score_mats : list NumericMatrix)
    (seq_vecs : vec_str_t) (k : Z) (alph : string) (min_scores : vec_num_t)
    (nthreads : Z) (allow_nonfinite warnNA : bool) :
  (scan_sequences_cpp score_mats seq_vecs k alph min_scores nthreads
     allow_nonfinite warnNA).2
  = (scan_sequences_cpp score_mats seq_vecs k alph min_scores nthreads
       allow_nonfinite false).2
  ∧ (scan_sequences_cpp score_mats seq_vecs k alph min_scores nthreads
       allow_nonfinite false).1 = [].
Proof.
  unfold scan_sequences_cpp.
  destruct (mapM scale min_scores) as [min_scores2|]; [|done].
  destruct (mapM scale_matrix score_mats) as [score2_mats|]; [|done].
  destruct (too_short _ _); [done|].
  unfold scan_sequences_cpp_internal. rewrite andb_false_r. done.
Qed.

(** ** The value of the GC content *)

(** X24. The GC content of a hit is a ratio of letter counts: for hits of
    fewer than 2^31 letters, [calc_hit_gc] returns, for each hit, the number
    of its letters among S, C, G divided by its length, or, with [ignoreN],
    by the number of its letters among S, C, G, W, A, U, T. *)
Theorem gc_content_is_the_letter_ratio (hits : vec_str_t) (ignoreN : bool) :
  Forall (λ hit, Z.of_nat (String.length hit) ≤ INT_MAX) hits →
  calc_hit_gc hits ignoreN
  = Some ((λ hit, double_div (letters is_GC (list_ascii_of_string hit))
                    (gc_denominator ignoreN hit)) <$> hits).
Proof.
  intros Hlen.
  destruct (calc_hit_gc_lookup hits ignoreN Hlen) as (res & -> & Hall).
  f_equal. clear Hlen.
  induction Hall as [|hit x hits res -> _ IH]; [done|].
  simpl. by rewrite IH.
Qed.

Lemma gc_content_is_the_letter_ratio_witness :
  calc_hit_gc ["GATTACA"%string; "NNSW"%string] true
  = Some ((λ hit, double_div (letters is_GC (list_ascii_of_string hit))
                    (gc_denominator true hit))
          <$> ["GATTACA"%string; "NNSW"%string]).
Proof.
  apply gc_content_is_the_letter_ratio.
  repeat constructor; unfold INT_MAX; simpl; lia.
Defined.
